(** * txmpp: the framed packet transport and the request pump

    A model of [src/asynctcpsocket.cc] (class [AsyncTCPSocket]) and of
    [XmppThread::OnMessage] from [src/examples/hello/xmppthread.cc].

    The transport turns the byte stream of a socket into packets: every
    packet travels as a 16-bit length in network byte order followed by
    the payload.  The C++ object is a record of its data members; every
    member function becomes a function from the object state to the
    returned [int], the signals and diagnostics raised, and the new
    state.  The wrapped [AsyncSocket] is an interface of the repository
    that has no source here; it is played by a scripted socket that
    answers each call from a script and records what it was asked. *)

From Stdlib Require Import String Strings.Byte.
From Stdlib Require Import ZArith List Lia Bool.
From Equations Require Import Equations.
Import ListNotations.
Local Open Scope Z_scope.

Set Warnings "-register-all".

(** ** Bytes and raw memory *)

Definition Z_of_byte (b : byte) : Z := Z.of_N (Byte.to_N b).

Definition byte_of_Z (z : Z) : byte :=
  match Byte.of_N (Z.to_N (z mod 256)) with
  | Some b => b
  | None => x00
  end.

(** [n] bytes of [buf] starting at offset [off]. *)
Definition bytes_at (buf : list byte) (off n : Z) : list byte :=
  firstn (Z.to_nat n) (skipn (Z.to_nat off) buf).

(** [memcpy(dst + off, src, n)]. *)
Definition memcpy (dst : list byte) (off : Z) (src : list byte) (n : Z)
  : list byte :=
  firstn (Z.to_nat off) dst ++ firstn (Z.to_nat n) src
    ++ skipn (Z.to_nat (off + n)) dst.

(** [memmove(buf, buf + from, n)]: the regions may overlap, the bytes
    arrive as they were before the call. *)
Definition memmove (buf : list byte) (from n : Z) : list byte :=
  bytes_at buf from n ++ skipn (Z.to_nat n) buf.

(** ** Constants of asynctcpsocket.cc *)

Definition MAX_PACKET_SIZE : Z := 64 * 1024.

(** [typedef uint16 PacketLength]. *)
Definition PKT_LEN_SIZE : Z := 2.

Definition BUF_SIZE : Z := MAX_PACKET_SIZE + PKT_LEN_SIZE.

Definition LISTEN_BACKLOG : Z := 5.

(** [static_cast<PacketLength>(cb)]: conversion to an unsigned 16-bit
    integer keeps the value modulo 2^16. *)
Definition static_cast_PacketLength (cb : Z) : Z := cb mod 2 ^ 16.

(** Modelled from the spec: byteorder.h is not among the sources.  The
    packet length is "a 2-byte unsigned integer, network byte order";
    [HostToNetwork16] followed by the [memcpy] of the value is the
    memory image of that value, most significant byte first. *)
Definition HostToNetwork16 (n : Z) : list byte :=
  [byte_of_Z (n / 256); byte_of_Z n].

(** Modelled from the spec: the [memcpy] of two bytes into a
    [PacketLength] followed by [NetworkToHost16] reads them back as a
    big-endian number. *)
Definition NetworkToHost16 (mem : list byte) : Z :=
  match mem with
  | hi :: lo :: _ => 256 * Z_of_byte hi + Z_of_byte lo
  | [lo] => Z_of_byte lo
  | [] => 0
  end.

(** errno values (errno.h, Linux numbering). *)
Definition EWOULDBLOCK : Z := 11.
Definition EMSGSIZE : Z := 90.
Definition ENOTCONN : Z := 107.

(** ** The scripted socket *)

Definition SocketAddress := Z.

(** What the next [Send] of the socket does: it reports [n] bytes as
    sent, or fails (returns -1) with an error code. *)
Inductive SendOutcome :=
| SendTakes (n : Z)
| SendFails (err : Z).

(** What the next [Recv] has to offer: bytes that arrived, or a
    failure. *)
Inductive RecvOutcome :=
| RecvData (chunk : list byte)
| RecvFails (err : Z).

(** An incoming connection waiting in the listen queue: the peer and what
    the peer has already sent. *)
Record Incoming := {
  peer : SocketAddress;
  early_data : list RecvOutcome
}.

Inductive SocketCall :=
| CallSend (cb : Z)
| CallRecv (cb : Z)
| CallSetError (err : Z)
| CallListen (backlog : Z)
| CallAccept.

Record AsyncSocket := {
  remote_address : SocketAddress;
  error_ : Z;
  wire : list byte;                       (* bytes handed to the network *)
  send_script : list SendOutcome;
  recv_script : list RecvOutcome;
  listen_result : Z;
  accept_script : list (option Incoming);
  calls : list SocketCall                 (* calls received, oldest first *)
}.

Definition called (c : SocketCall) (s : AsyncSocket) : AsyncSocket :=
  {| remote_address := remote_address s; error_ := error_ s;
     wire := wire s; send_script := send_script s;
     recv_script := recv_script s; listen_result := listen_result s;
     accept_script := accept_script s; calls := calls s ++ [c] |}.

Definition with_error (e : Z) (s : AsyncSocket) : AsyncSocket :=
  {| remote_address := remote_address s; error_ := e;
     wire := wire s; send_script := send_script s;
     recv_script := recv_script s; listen_result := listen_result s;
     accept_script := accept_script s; calls := calls s |}.

Definition with_wire (out : list byte) (s : AsyncSocket) : AsyncSocket :=
  {| remote_address := remote_address s; error_ := error_ s;
     wire := wire s ++ out; send_script := send_script s;
     recv_script := recv_script s; listen_result := listen_result s;
     accept_script := accept_script s; calls := calls s |}.

Definition with_send_script (rest : list SendOutcome) (s : AsyncSocket)
  : AsyncSocket :=
  {| remote_address := remote_address s; error_ := error_ s;
     wire := wire s; send_script := rest;
     recv_script := recv_script s; listen_result := listen_result s;
     accept_script := accept_script s; calls := calls s |}.

Definition with_recv_script (rest : list RecvOutcome) (s : AsyncSocket)
  : AsyncSocket :=
  {| remote_address := remote_address s; error_ := error_ s;
     wire := wire s; send_script := send_script s;
     recv_script := rest; listen_result := listen_result s;
     accept_script := accept_script s; calls := calls s |}.

Definition with_accept_script (rest : list (option Incoming))
  (s : AsyncSocket) : AsyncSocket :=
  {| remote_address := remote_address s; error_ := error_ s;
     wire := wire s; send_script := send_script s;
     recv_script := recv_script s; listen_result := listen_result s;
     accept_script := rest; calls := calls s |}.

Module Socket.

Definition GetRemoteAddress (s : AsyncSocket) : SocketAddress :=
  remote_address s.

Definition GetError (s : AsyncSocket) : Z := error_ s.

Definition SetError (e : Z) (s : AsyncSocket) : AsyncSocket :=
  with_error e (called (CallSetError e) s).

(** Modelled from the spec: "would block" is the transient condition
    of a non-blocking socket. *)
Definition IsBlocking (s : AsyncSocket) : bool := error_ s =? EWOULDBLOCK.

(** [Send(buf, cb)]: the bytes reported as sent go to the wire, in
    order.  A socket with nothing scripted would block. *)
Definition Send (s : AsyncSocket) (buf : list byte) (cb : Z)
  : Z * AsyncSocket :=
  let s := called (CallSend cb) s in
  match send_script s with
  | [] => (-1, with_error EWOULDBLOCK s)
  | SendTakes n :: rest =>
      (n, with_wire (bytes_at (bytes_at buf 0 cb) 0 n)
          (with_send_script rest s))
  | SendFails e :: rest => (-1, with_error e (with_send_script rest s))
  end.

(** [Recv(buf, cb)]: at most [cb] of the bytes that arrived are
    handed over, what does not fit stays in the socket. *)
Definition Recv (s : AsyncSocket) (cb : Z)
  : Z * list byte * AsyncSocket :=
  let s := called (CallRecv cb) s in
  match recv_script s with
  | [] => (-1, [], with_error EWOULDBLOCK s)
  | RecvData chunk :: rest =>
      let got := firstn (Z.to_nat cb) chunk in
      let left := skipn (Z.to_nat cb) chunk in
      (Z.of_nat (length got), got,
       with_recv_script
         (match left with [] => rest | _ => RecvData left :: rest end) s)
  | RecvFails e :: rest => (-1, [], with_error e (with_recv_script rest s))
  end.

Definition Listen (s : AsyncSocket) (backlog : Z) : Z * AsyncSocket :=
  (listen_result s, called (CallListen backlog) s).

(** The socket of an accepted connection. *)
Definition accepted (i : Incoming) : AsyncSocket :=
  {| remote_address := peer i; error_ := 0; wire := [];
     send_script := []; recv_script := early_data i;
     listen_result := -1; accept_script := []; calls := [] |}.

Definition Accept (s : AsyncSocket) : option AsyncSocket * AsyncSocket :=
  let s := called CallAccept s in
  match accept_script s with
  | [] => (None, with_error EWOULDBLOCK s)
  | None :: rest => (None, with_accept_script rest s)
  | Some i :: rest => (Some (accepted i), with_accept_script rest s)
  end.

End Socket.

(** ** The transport object *)

Record AsyncTCPSocket := {
  socket_ : AsyncSocket;
  listen_ : bool;
  inbuf_ : list byte;
  insize_ : Z;
  inpos_ : Z;
  outbuf_ : list byte;
  outsize_ : Z;
  outpos_ : Z
}.

Definition set_socket (s : AsyncSocket) (t : AsyncTCPSocket) :=
  {| socket_ := s; listen_ := listen_ t;
     inbuf_ := inbuf_ t; insize_ := insize_ t; inpos_ := inpos_ t;
     outbuf_ := outbuf_ t; outsize_ := outsize_ t; outpos_ := outpos_ t |}.

Definition set_in (buf : list byte) (pos : Z) (t : AsyncTCPSocket) :=
  {| socket_ := socket_ t; listen_ := listen_ t;
     inbuf_ := buf; insize_ := insize_ t; inpos_ := pos;
     outbuf_ := outbuf_ t; outsize_ := outsize_ t; outpos_ := outpos_ t |}.

Definition set_out (buf : list byte) (pos : Z) (t : AsyncTCPSocket) :=
  {| socket_ := socket_ t; listen_ := listen_ t;
     inbuf_ := inbuf_ t; insize_ := insize_ t; inpos_ := inpos_ t;
     outbuf_ := buf; outsize_ := outsize_ t; outpos_ := pos |}.

(** Signals raised to the observers, and diagnostics: a line logged
    with [LOG(LS_ERROR)], its text and the error code streamed after it,
    and a failed [ASSERT]. *)
Inductive Event :=
| SignalReadPacket (data : list byte) (remote : SocketAddress)
| SignalNewConnection (conn : AsyncTCPSocket) (primed : list Event)
| SignalConnect
| SignalClose (err : Z)
| LogError (msg : string) (code : option Z)
| AssertFailed.

(** Modelled from the spec: common.h, which defines the macro [ASSERT],
    is not among the sources.  A failed [ASSERT] is reported and the
    statements after it are executed, as the reference behaviour on a
    full inbound buffer, which "merely resets state", says. *)
Definition ASSERT (cond : bool) : list Event :=
  if cond then [] else [AssertFailed].

Definition result (A : Type) : Type := A * list Event * AsyncTCPSocket.

(** [int AsyncTCPSocket::Flush()] *)
Definition Flush (t : AsyncTCPSocket) : result Z :=
  let (res, s) := Socket.Send (socket_ t) (outbuf_ t) (outpos_ t) in
  let t := set_socket s t in
  if res <=? 0 then (res, [], t)
  else if res <=? outpos_ t then
    let pos := outpos_ t - res in
    if 0 <? pos
    then (res, [], set_out (memmove (outbuf_ t) res pos) pos t)
    else (res, [], set_out (outbuf_ t) pos t)
  else (-1, ASSERT false, t).

(** [int AsyncTCPSocket::Send(const void *pv, size_t cb)]; the payload
    is the list [pv], [cb] is its length. *)
Definition Send (t : AsyncTCPSocket) (pv : list byte) : result Z :=
  let cb := Z.of_nat (length pv) in
  if MAX_PACKET_SIZE <? cb
  then (-1, [], set_socket (Socket.SetError EMSGSIZE (socket_ t)) t)
  else if negb (outpos_ t =? 0) then (cb, [], t)
  else
    let pkt_len := HostToNetwork16 (static_cast_PacketLength cb) in
    let buf := memcpy (outbuf_ t) 0 pkt_len PKT_LEN_SIZE in
    let buf := memcpy buf PKT_LEN_SIZE pv cb in
    let '(res, ev, t) := Flush (set_out buf (PKT_LEN_SIZE + cb) t) in
    if res <=? 0 then (res, ev, set_out (outbuf_ t) 0 t)
    else (cb, ev, t).

(** [int AsyncTCPSocket::SendTo(pv, cb, addr)] *)
Definition SendTo (t : AsyncTCPSocket) (pv : list byte)
  (addr : SocketAddress) : result Z :=
  if addr =? Socket.GetRemoteAddress (socket_ t) then Send t pv
  else (-1, ASSERT false,
        set_socket (Socket.SetError ENOTCONN (socket_ t)) t).

(** [int AsyncTCPSocket::SendRaw(const void *pv, size_t cb)] *)
Definition SendRaw (t : AsyncTCPSocket) (pv : list byte) : result Z :=
  let cb := Z.of_nat (length pv) in
  if outsize_ t <? outpos_ t + cb
  then (-1, [], set_socket (Socket.SetError EMSGSIZE (socket_ t)) t)
  else Flush (set_out (memcpy (outbuf_ t) (outpos_ t) pv cb)
                      (outpos_ t + cb) t).

(** One turn of the [while (true)] loop of [ProcessInput]: [None] when
    the loop returns, otherwise the packet signalled and the buffer and
    length the next turn starts from. *)
Definition ProcessInput_turn (remote : SocketAddress) (data : list byte)
  (len : Z) : option (Event * (list byte * Z)) :=
  if len <? PKT_LEN_SIZE then None
  else
    let pkt_len := NetworkToHost16 (bytes_at data 0 PKT_LEN_SIZE) in
    if len <? PKT_LEN_SIZE + pkt_len then None
    else
      let ev := SignalReadPacket (bytes_at data PKT_LEN_SIZE pkt_len) remote in
      let len' := len - (PKT_LEN_SIZE + pkt_len) in
      if 0 <? len'
      then Some (ev, (memmove data (PKT_LEN_SIZE + pkt_len) len', len'))
      else Some (ev, (data, len')).

(** A value together with the equation that it is the value of the
    expression inspected; the recursion of [ProcessInput] is justified
    from that equation. *)
Definition inspect {A : Type} (a : A) : {b : A | a = b} :=
  exist _ a eq_refl.

(** [void AsyncTCPSocket::ProcessInput(char *data, size_t &len)]: the
    packets signalled, in order, and the buffer and [len] on return. *)
Equations? ProcessInput (remote : SocketAddress) (data : list byte) (len : Z)
  : list Event * (list byte * Z) by wf (Z.to_nat len) lt :=
  ProcessInput remote data len
    with inspect (ProcessInput_turn remote data len) := {
    | exist _ None _ => ([], (data, len))
    | exist _ (Some (ev, (data', len'))) Hturn =>
        let r := ProcessInput remote data' len' in
        (ev :: fst r, snd r) }.
Proof.
  revert Hturn. unfold ProcessInput_turn.
  destruct (len <? PKT_LEN_SIZE) eqn:E1; [discriminate|].
  assert (0 <= NetworkToHost16 (bytes_at data 0 PKT_LEN_SIZE))
    by (destruct (bytes_at data 0 PKT_LEN_SIZE) as [|hi [|lo rest]];
        cbn [NetworkToHost16]; unfold Z_of_byte; lia).
  destruct (len <? PKT_LEN_SIZE + _) eqn:E2; [discriminate|].
  apply Z.ltb_ge in E1, E2.
  destruct (0 <? _); intros Hsome;
    assert (len' = len - (PKT_LEN_SIZE
                          + NetworkToHost16 (bytes_at data 0 PKT_LEN_SIZE)))
      by (inversion Hsome; reflexivity);
    unfold PKT_LEN_SIZE in *; lia.
Qed.


(** The constructor.  [new char[n]] leaves the bytes indeterminate; they
    are taken to be zero, and nothing below depends on that choice. *)
Definition AsyncTCPSocket_new (socket : AsyncSocket) (listen : bool)
  : list Event * AsyncTCPSocket :=
  let fresh := repeat x00 (Z.to_nat BUF_SIZE) in
  let t := {| socket_ := socket; listen_ := listen;
              inbuf_ := fresh; insize_ := BUF_SIZE; inpos_ := 0;
              outbuf_ := fresh; outsize_ := BUF_SIZE; outpos_ := 0 |} in
  if listen then
    let (res, s) := Socket.Listen socket LISTEN_BACKLOG in
    if res <? 0
    then ([LogError "Listen() failed with error " (Some (Socket.GetError s))],
          set_socket s t)
    else ([], set_socket s t)
  else ([], t).

(** [AsyncTCPSocket::Create(factory, listen)]; [sock] is what the
    factory's [CreateAsyncSocket] returned, [None] for [NULL]. *)
Definition Create (sock : option AsyncSocket) (listen : bool)
  : option (list Event * AsyncTCPSocket) :=
  match sock with
  | Some s => Some (AsyncTCPSocket_new s listen)
  | None => None
  end.

(** The [else] branch of [OnReadEvent]: the object wraps a connection. *)
Definition OnReadEvent_data (t : AsyncTCPSocket)
  : list Event * AsyncTCPSocket :=
  let '(len, got, s) := Socket.Recv (socket_ t) (insize_ t - inpos_ t) in
  let t := set_socket s t in
  if len <? 0 then
    if Socket.IsBlocking s then ([], t)
    else ([LogError "Recv() returned error: " (Some (Socket.GetError s))], t)
  else
    let buf := memcpy (inbuf_ t) (inpos_ t) got len in
    let '(evs, (buf, pos)) :=
      ProcessInput (Socket.GetRemoteAddress s) buf (inpos_ t + len) in
    if insize_ t <=? pos
    then (evs ++ LogError "input buffer overflow" None :: ASSERT false,
          set_in buf 0 t)
    else (evs, set_in buf pos t).

(** [void AsyncTCPSocket::OnReadEvent(AsyncSocket *socket)]; the
    socket that signals is [socket_] itself.  In listening mode the
    accepted socket is wrapped in a new object, which is announced and
    then primed with a read event of its own; [SignalNewConnection]
    shows that object as it stands when [OnReadEvent] returns, with what
    it raised while it was primed. *)
Definition OnReadEvent (t : AsyncTCPSocket) : list Event * AsyncTCPSocket :=
  if listen_ t then
    let (new_socket, s) := Socket.Accept (socket_ t) in
    let t := set_socket s t in
    match new_socket with
    | None =>
        ([LogError "TCP accept failed with error " (Some (Socket.GetError s))],
         t)
    | Some ns =>
        let (primed, conn) :=
          OnReadEvent_data (snd (AsyncTCPSocket_new ns false)) in
        ([SignalNewConnection conn primed], t)
    end
  else OnReadEvent_data t.

(** [void AsyncTCPSocket::OnWriteEvent(AsyncSocket *socket)] *)
Definition OnWriteEvent (t : AsyncTCPSocket) : list Event * AsyncTCPSocket :=
  if 0 <? outpos_ t
  then let '(_, ev, t) := Flush t in (ev, t)
  else ([], t).

Definition OnConnectEvent (t : AsyncTCPSocket)
  : list Event * AsyncTCPSocket := ([SignalConnect], t).

Definition OnCloseEvent (t : AsyncTCPSocket) (error : Z)
  : list Event * AsyncTCPSocket := ([SignalClose error], t).

(** ** Vocabulary of the statements *)

(** The value returned, and the object afterwards. *)
Definition returned {A} (r : result A) : A := fst (fst r).
Definition raised {A} (r : result A) : list Event := snd (fst r).
Definition after {A} (r : result A) : AsyncTCPSocket := snd r.

(** The bytes queued for sending: the first [outpos_] bytes of
    [outbuf_]. *)
Definition pending (t : AsyncTCPSocket) : list byte :=
  bytes_at (outbuf_ t) 0 (outpos_ t).

(** The bytes received and not yet delivered. *)
Definition buffered (t : AsyncTCPSocket) : list byte :=
  bytes_at (inbuf_ t) 0 (inpos_ t).

Definition size (p : list byte) : Z := Z.of_nat (length p).

(** A packet as [Send] lays it out in [outbuf_]. *)
Definition frame (p : list byte) : list byte :=
  HostToNetwork16 (static_cast_PacketLength (size p)) ++ p.

(** A payload whose length the 16-bit prefix can state. *)
Definition fits_prefix (p : list byte) : Prop := size p < 65536.

(** What the socket answers when [Flush] hands it the bytes queued in
    [t]: the result of its [Send] and the socket afterwards. *)
Definition flushed (t : AsyncTCPSocket) : Z * AsyncSocket :=
  Socket.Send (socket_ t) (outbuf_ t) (outpos_ t).

(** The object on which [Send] calls [Flush]. *)
Definition framed (t : AsyncTCPSocket) (pv : list byte) : AsyncTCPSocket :=
  set_out (frame pv ++ skipn (Z.to_nat (PKT_LEN_SIZE + size pv)) (outbuf_ t))
          (PKT_LEN_SIZE + size pv) t.

(** The state every object is in from its constructor on: both buffers
    have the capacity [BUF_SIZE] and the cursors are inside them. *)
Record Inv (t : AsyncTCPSocket) : Prop := {
  inv_insize : insize_ t = BUF_SIZE;
  inv_inbuf : size (inbuf_ t) = insize_ t;
  inv_inpos : 0 <= inpos_ t <= insize_ t;
  inv_outsize : outsize_ t = BUF_SIZE;
  inv_outbuf : size (outbuf_ t) = outsize_ t;
  inv_outpos : 0 <= outpos_ t <= outsize_ t
}.

(** The three ways in which [Flush] ends. *)
Inductive FlushCase (t : AsyncTCPSocket) : result Z -> Prop :=
| FlushNoProgress res s :
    Socket.Send (socket_ t) (outbuf_ t) (outpos_ t) = (res, s) ->
    res <= 0 ->
    FlushCase t (res, [], set_socket s t)
| FlushProgress res s :
    Socket.Send (socket_ t) (outbuf_ t) (outpos_ t) = (res, s) ->
    0 < res <= outpos_ t ->
    FlushCase t
      (res, [],
       set_out (if 0 <? outpos_ t - res
                then memmove (outbuf_ t) res (outpos_ t - res)
                else outbuf_ t)
               (outpos_ t - res) (set_socket s t))
| FlushOverrun res s :
    Socket.Send (socket_ t) (outbuf_ t) (outpos_ t) = (res, s) ->
    outpos_ t < res -> 0 < res ->
    FlushCase t (-1, [AssertFailed], set_socket s t).

(** [n] read events in a row. *)
Fixpoint read_events (n : nat) (t : AsyncTCPSocket)
  : list Event * AsyncTCPSocket :=
  match n with
  | O => ([], t)
  | S n =>
      let (ev, t) := OnReadEvent t in
      let (evs, t) := read_events n t in
      (ev ++ evs, t)
  end.

(** The network delivers [chunks], one per read event. *)
Definition arriving (chunks : list (list byte)) (t : AsyncTCPSocket)
  : AsyncTCPSocket :=
  set_socket (with_recv_script (map RecvData chunks) (socket_ t)) t.

(** The next [Send] of the socket behaves as [o]. *)
Definition sending (o : list SendOutcome) (t : AsyncTCPSocket)
  : AsyncTCPSocket :=
  set_socket (with_send_script o (socket_ t)) t.

Definition packets (remote : SocketAddress) (ps : list (list byte))
  : list Event :=
  map (fun p => SignalReadPacket p remote) ps.

(** ** Sample objects *)

(** A connected socket with nothing scripted. *)
Definition a_socket : AsyncSocket :=
  {| remote_address := 5222; error_ := 0; wire := [];
     send_script := []; recv_script := []; listen_result := 0;
     accept_script := []; calls := [] |}.

(** A transport fresh from its constructor. *)
Definition a_connection : AsyncTCPSocket :=
  snd (AsyncTCPSocket_new a_socket false).

(** A transport that is send-blocked: the socket took one byte of a
    three-byte frame. *)
Definition a_blocked : AsyncTCPSocket :=
  after (Send (sending [SendTakes 1] a_connection) ["a"%byte]).

(** An object with inbound capacity 4 that finds four bytes in its
    socket, the first two announcing a payload of nine.  No constructor
    makes it: the capacity is always [BUF_SIZE]. *)
Definition a_small_buffer : AsyncTCPSocket :=
  {| socket_ := with_recv_script
                  [RecvData ["000"%byte; "009"%byte; "a"%byte; "b"%byte]]
                  a_socket;
     listen_ := false;
     inbuf_ := repeat x00 4; insize_ := 4; inpos_ := 0;
     outbuf_ := repeat x00 4; outsize_ := 4; outpos_ := 0 |}.

(** ** The request pump: [XmppThread::OnMessage] *)

Module hello.

Definition MSG_LOGIN : Z := 1.
Definition MSG_DISCONNECT : Z := 2.

(** The connection settings are carried, never inspected. *)
Definition XmppClientSettings := string.

Record LoginData := { xcs : XmppClientSettings }.

(** [txmpp::Message]: the kind and the payload pointer, which may be
    null. *)
Record Message := {
  message_id : Z;
  pdata : option LoginData
}.

(** Objects created with [new] are named by the order of their
    creation. *)
Definition object := nat.

(** What a dispatch does, in the order in which it does it. *)
Inductive Action :=
| NewXmppAsyncSocketImpl (tls : bool) (made : object)
| NewPreXmppAuthImpl (made : object)
| DoLogin (settings : XmppClientSettings) (socket auth : object)
| DeleteLoginData (data : LoginData)
| DoDisconnect.

(** A dispatch returns, or a failed [assert] aborts the program. *)
Inductive Outcome :=
| Returned
| AssertionFailed.

(** [Login] and [Disconnect] post these messages. *)
Definition Login (settings : XmppClientSettings) : Message :=
  {| message_id := MSG_LOGIN; pdata := Some {| xcs := settings |} |}.

Definition Disconnect : Message :=
  {| message_id := MSG_DISCONNECT; pdata := None |}.

(** [void XmppThread::OnMessage(txmpp::Message *pmsg)]; [next] is the
    number of objects created so far.  The two [new] expressions are
    arguments of one call, the socket is taken to be created first. *)
Definition OnMessage (next : object) (pmsg : Message)
  : Outcome * list Action * object :=
  if message_id pmsg =? MSG_LOGIN then
    match pdata pmsg with
    | None => (AssertionFailed, [], next)
    | Some data =>
        let socket := next in
        let auth := S next in
        (Returned,
         [NewXmppAsyncSocketImpl true socket; NewPreXmppAuthImpl auth;
          DoLogin (xcs data) socket auth; DeleteLoginData data],
         S (S next))
    end
  else if message_id pmsg =? MSG_DISCONNECT then
    (Returned, [DoDisconnect], next)
  else (AssertionFailed, [], next).

Definition outcome (r : Outcome * list Action * object) : Outcome :=
  fst (fst r).

Definition actions (r : Outcome * list Action * object) : list Action :=
  snd (fst r).

Definition is_DoLogin (a : Action) : bool :=
  match a with DoLogin _ _ _ => true | _ => false end.

Definition is_DoDisconnect (a : Action) : bool :=
  match a with DoDisconnect => true | _ => false end.

Definition count (f : Action -> bool) (l : list Action) : nat :=
  length (filter f l).

End hello.

(** A listening transport with one connection waiting, from peer 7,
    that has already sent a one-byte packet. *)
Definition a_listener : AsyncTCPSocket :=
  snd (AsyncTCPSocket_new
         (with_accept_script
            [Some {| peer := 7;
                     early_data :=
                       [RecvData ["000"%byte; "001"%byte; "a"%byte]] |}]
            a_socket)
         true).

(** ** Dispatch of a series of requests *)

(** What a caller asks of the thread: [XmppThread::Login] or
    [XmppThread::Disconnect]. *)
Inductive Request :=
| RequestLogin (settings : hello.XmppClientSettings)
| RequestDisconnect.

(** The message that the request posts. *)
Definition posted (r : Request) : hello.Message :=
  match r with
  | RequestLogin settings => hello.Login settings
  | RequestDisconnect => hello.Disconnect
  end.

(** Modelled from the spec: the message queue of [txmpp::Thread] has no
    source here; messages "are delivered to [OnMessage] in post order".
    A failed assertion ends the program, what is queued behind it is not
    dispatched. *)
Fixpoint dispatch (next : hello.object) (msgs : list hello.Message)
  : hello.Outcome * list hello.Action * hello.object :=
  match msgs with
  | [] => (hello.Returned, [], next)
  | pmsg :: msgs =>
      match hello.OnMessage next pmsg with
      | (hello.Returned, acts, next) =>
          let '(o, acts', next) := dispatch next msgs in
          (o, acts ++ acts', next)
      | failed => failed
      end
  end.

(** The calls made on the pump, as the requests that ask for them, and
    the objects handed to [DoLogin]. *)
Definition pump_call (a : hello.Action) : list Request :=
  match a with
  | hello.DoLogin settings _ _ => [RequestLogin settings]
  | hello.DoDisconnect => [RequestDisconnect]
  | _ => []
  end.

Definition login_objects (a : hello.Action) : list hello.object :=
  match a with
  | hello.DoLogin _ socket auth => [socket; auth]
  | _ => []
  end.

(** ** The parser of /proc/cpuinfo (linux.cc) *)

Module ConfigParser.

(** [std::map<std::string, std::string>], seen through [find], [empty]
    and [operator[]]: a list with one entry per key. *)
Definition SimpleMap := list (string * string).

Definition MapVector := list SimpleMap.

(** [m.find(key)], [None] for [m.end()]. *)
Fixpoint find (m : SimpleMap) (key : string) : option string :=
  match m with
  | [] => None
  | (k, v) :: m => if String.eqb k key then Some v else find m key
  end.

(** [m[key] = value]. *)
Fixpoint assign (m : SimpleMap) (key value : string) : SimpleMap :=
  match m with
  | [] => [(key, value)]
  | (k, v) :: m =>
      if String.eqb k key then (k, value) :: m
      else (k, v) :: assign m key value
  end.

Definition empty {A} (l : list A) : bool :=
  match l with [] => true | _ => false end.

(** [ParseLine] reads through interfaces that have no source here
    ([FileStream::ReadLine], [split]); the stream is taken as the
    outcomes of its successive calls: [Some (key, value)] when it returns
    true, [None] when it returns false, and false for ever once the script
    is used up. *)
Definition Stream := list (option (string * string)).

(** [bool ConfigParser::ParseSection(SimpleMap *key_val_pair)] *)
Fixpoint ParseSection (key_val_pair : SimpleMap) (instream_ : Stream)
  : bool * SimpleMap * Stream :=
  match instream_ with
  | Some (key, value) :: instream_ =>
      ParseSection (assign key_val_pair key value) instream_
  | None :: instream_ =>
      (negb (empty key_val_pair), key_val_pair, instream_)
  | [] => (negb (empty key_val_pair), key_val_pair, [])
  end.

(** [bool ConfigParser::Parse(MapVector *key_val_pairs)]; the local
    [section] is empty at every call of [ParseSection]: it is cleared
    after each [push_back], and a call that returns false leaves it
    empty. *)
Equations? Parse (key_val_pairs : MapVector) (instream_ : Stream)
  : bool * (MapVector * Stream) by wf (length instream_) lt :=
  Parse key_val_pairs instream_
    with inspect (ParseSection [] instream_) := {
    | exist _ (true, section, rest) Hsection =>
        Parse (key_val_pairs ++ [section]) rest
    | exist _ (false, _, rest) _ =>
        (negb (empty key_val_pairs), (key_val_pairs, rest)) }.
Proof.
  assert (Hshrink : forall stream m,
            (length (snd (ParseSection m stream)) <= length stream)%nat
            /\ (fst (fst (ParseSection m stream)) = true -> m = [] ->
                (length (snd (ParseSection m stream)) < length stream)%nat)).
  { induction stream as [|[[k v]|] stream IH]; intros m; cbn.
    - split; [lia|]. intros H ->. discriminate H.
    - destruct (IH (assign m k v)) as [IH1 _]. split; lia.
    - split; [lia|]. intros H ->. discriminate H. }
  destruct (Hshrink instream_ []) as [_ H].
  rewrite Hsection in H. cbn in H. now apply H.
Qed.

End ConfigParser.

Module ProcCpuInfo.

Import ConfigParser.

(** [int] has 32 bits: [static_cast<int>] of a [size_t] keeps the low
    32 bits and reads them as a signed number. *)
Definition INT_MAX : Z := 2147483647.

Definition static_cast_int (n : Z) : Z :=
  (n + 2147483648) mod 4294967296 - 2147483648.

Section Queries.

(** [FromString] (stringencode.h) has no source here: the integer it
    reads from a string, [None] when it returns false. *)
Variable FromString : string -> option Z.

(** Whether the program is built for ARM ([__arm__]). *)
Variable arm : bool.

(** The data member [sections_]. *)
Variable sections_ : MapVector.

(** [bool GetSectionCount(size_t *count)]: [None] for false, otherwise
    the value stored through the pointer.  The same reading holds for
    the functions below. *)
Definition GetSectionCount : option Z :=
  if empty sections_ then None else Some (Z.of_nat (length sections_)).

(** [bool GetSectionStringValue(section_num, key, result)] *)
Definition GetSectionStringValue (section_num : nat) (key : string)
  : option string :=
  match nth_error sections_ section_num with
  | None => None
  | Some section => find section key
  end.

(** [bool GetSectionIntValue(section_num, key, result)] *)
Definition GetSectionIntValue (section_num : nat) (key : string)
  : option Z :=
  match GetSectionStringValue section_num key with
  | None => None
  | Some value => FromString value
  end.

(** [bool GetNumCpus(int *num)].  The counter of the ARM loop is at
    most the number of sections; like the sum in [GetNumPhysicalCpus]
    it is written in [Z], signed overflow being undefined. *)
Definition GetNumCpus : option Z :=
  if empty sections_ then None
  else if arm then
    let total_cpus :=
      fold_left
        (fun total_cpus i =>
           match GetSectionIntValue i "processor" with
           | Some _ => total_cpus + 1
           | None => total_cpus
           end)
        (seq 0 (length sections_)) 0 in
    Some (if total_cpus =? 0 then 1 else total_cpus)
  else Some (static_cast_int (Z.of_nat (length sections_))).

(** The loop of [GetNumPhysicalCpus]: the set [physical_ids] and
    [total_cores] after the sections [indices].  The sum is written in
    [Z]: it describes the runs in which the [int] does not overflow. *)
Definition count_cores (indices : list nat) : list Z * Z :=
  fold_left
    (fun '(physical_ids, total_cores) i =>
       match GetSectionIntValue i "physical id",
             GetSectionIntValue i "cpu cores" with
       | Some physical_id, Some cores =>
           if existsb (Z.eqb physical_id) physical_ids
           then (physical_ids, total_cores)
           else (physical_id :: physical_ids, total_cores + cores)
       | _, _ => (physical_ids, total_cores)
       end)
    indices ([], 0).

(** [bool GetNumPhysicalCpus(int *num)] *)
Definition GetNumPhysicalCpus : option Z :=
  if empty sections_ then None
  else if arm then GetNumCpus
  else Some (snd (count_cores (seq 0 (length sections_)))).

End Queries.

(** [bool LoadFromSystem()]: [file] is the stream that opening
    /proc/cpuinfo gives, [None] when it cannot be opened.  The result is
    the value returned and [sections_] afterwards. *)
Definition LoadFromSystem (sections_ : MapVector) (file : option Stream)
  : bool * MapVector :=
  match file with
  | None => (false, sections_)
  | Some procfs =>
      (fst (Parse sections_ procfs), fst (snd (Parse sections_ procfs)))
  end.

End ProcCpuInfo.

(** ** The cached release string (linux.cc) *)

Module linux.

(** The results of [ReadLine] that the code tells apart: success, end
    of stream, and any other. *)
Inductive StreamResult :=
| SR_SUCCESS
| SR_EOS
| SR_ERROR.

(** A run of [lsb_release -idrcs] through [POpenStream], which has no
    source here: whether [Open] succeeds, what each [ReadLine] gives (end
    of stream once the list is used up), and whether the wait status
    shows a normal exit with status 0. *)
Record POpenStream := {
  opens : bool;
  output : list (StreamResult * string);
  exited_cleanly : bool
}.

Inductive Log :=
| LS_ERROR (msg : string)
| LS_WARNING (msg : string).

Definition ReadLine (stream : list (StreamResult * string))
  : StreamResult * string * list (StreamResult * string) :=
  match stream with
  | [] => (SR_EOS, EmptyString, [])
  | (res, line) :: stream => (res, line, stream)
  end.

(** [static bool ExpectLineFromStream(FileStream *stream,
    std::string *out)]: the line read when it returns true. *)
Definition ExpectLineFromStream (stream : list (StreamResult * string))
  : option string * list Log * list (StreamResult * string) :=
  let '(res, out, stream) := ReadLine stream in
  match res with
  | SR_SUCCESS => (Some out, [], stream)
  | SR_EOS =>
      (None, [LS_ERROR "Incorrect number of lines in stream"], stream)
  | SR_ERROR => (None, [LS_ERROR "Error when reading from stream"], stream)
  end.

(** [static void ExpectEofFromStream(FileStream *stream)] *)
Definition ExpectEofFromStream (stream : list (StreamResult * string))
  : list Log :=
  let '(res, _, _) := ReadLine stream in
  match res with
  | SR_SUCCESS =>
      [LS_WARNING "Ignoring unexpected extra lines from stream"]
  | SR_EOS => []
  | SR_ERROR =>
      [LS_WARNING "Error when checking for extra lines from stream"]
  end.

Definition double_quote : string :=
  String (Ascii.ascii_of_nat 34) EmptyString.

Definition is_empty (s : string) : bool :=
  match s with EmptyString => true | _ => false end.

(** What a call gives: the string returned, the static
    [lsb_release_string] afterwards, what was logged, and whether the
    command was started, that is, whether [Open] was called and
    succeeded. *)
Record Call := {
  returned_string : string;
  cached : string;
  logged : list Log;
  started : bool
}.

(** [std::string ReadLinuxLsbRelease()]; [lsb_release_string] is the
    static cache, [run] what starting the command would give.  The
    critical section has no part in a single thread of calls. *)
Definition ReadLinuxLsbRelease (lsb_release_string : string)
  (run : POpenStream) : Call :=
  if negb (is_empty lsb_release_string) then
    {| returned_string := lsb_release_string;
       cached := lsb_release_string; logged := []; started := false |}
  else if negb (opens run) then
    {| returned_string := lsb_release_string;
       cached := lsb_release_string;
       logged := [LS_ERROR "Can't run lsb_release"]; started := false |}
  else
    let failed log :=
      {| returned_string := lsb_release_string;
         cached := lsb_release_string; logged := log; started := true |} in
    match ExpectLineFromStream (output run) with
    | (None, log, _) => failed log
    | (Some id, _, stream) =>
    match ExpectLineFromStream stream with
    | (None, log, _) => failed log
    | (Some description, _, stream) =>
    match ExpectLineFromStream stream with
    | (None, log, _) => failed log
    | (Some release, _, stream) =>
    match ExpectLineFromStream stream with
    | (None, log, _) => failed log
    | (Some codename, _, stream) =>
        let sstr :=
          ("DISTRIB_ID=" ++ id
           ++ " DISTRIB_DESCRIPTION=" ++ double_quote ++ description
           ++ double_quote
           ++ " DISTRIB_RELEASE=" ++ release
           ++ " DISTRIB_CODENAME=" ++ codename)%string in
        {| returned_string := sstr; cached := sstr;
           logged :=
             ExpectEofFromStream stream
               ++ (if exited_cleanly run then []
                   else [LS_WARNING
                           "Unexpected exit status from lsb_release"]);
           started := true |}
    end end end end.

End linux.

(** ** Vocabulary for /proc/cpuinfo *)

(** What the lines [g] (key and value) make of the section [m]. *)
Definition fill (m : ConfigParser.SimpleMap) (g : list (string * string))
  : ConfigParser.SimpleMap :=
  fold_left (fun m kv => ConfigParser.assign m (fst kv) (snd kv)) g m.

(** The stream of sections whose lines are [groups], each closed by a
    line that [ParseLine] rejects (the blank line that ends a section
    of /proc/cpuinfo). *)
Definition sections_stream (groups : list (list (string * string)))
  : ConfigParser.Stream :=
  flat_map (fun g => map Some g ++ [None]) groups.

(** Whether [section] has a "processor" entry that reads as a
    number. *)
Definition names_a_processor (FromString : string -> option Z)
  (section : ConfigParser.SimpleMap) : bool :=
  match ProcCpuInfo.GetSectionIntValue FromString [section] 0 "processor"
  with
  | Some _ => true
  | None => false
  end.

(** A reader of one-digit numbers, to try the queries on. *)
Definition one_digit (value : string) : option Z :=
  match value with
  | String c EmptyString =>
      let n := Z.of_nat (Ascii.nat_of_ascii c) in
      if (48 <=? n) && (n <=? 57) then Some (n - 48) else None
  | _ => None
  end.

(** Two packages: a dual core with two threads per core seen as four
    processors of which three are listed, and a single core. *)
Definition a_cpuinfo : list (list (string * string)) :=
  [[("processor", "0"); ("physical id", "0"); ("cpu cores", "2")];
   [("processor", "1"); ("physical id", "0"); ("cpu cores", "2")];
   [("processor", "2"); ("physical id", "1"); ("cpu cores", "1")];
   [("processor", "3"); ("physical id", "0"); ("cpu cores", "2")]]%string.

(** ** More vocabulary *)

(** [n] write events in a row. *)
Fixpoint write_events (n : nat) (t : AsyncTCPSocket)
  : list Event * AsyncTCPSocket :=
  match n with
  | O => ([], t)
  | S n =>
      let (ev, t) := OnWriteEvent t in
      let (evs, t) := write_events n t in
      (ev ++ evs, t)
  end.

(** What [ProcessInput] signals when the bytes [v] are buffered, and
    the bytes it leaves buffered. *)
Definition delivered (remote : SocketAddress) (v : list byte) : list Event :=
  fst (ProcessInput remote v (size v)).

Definition remainder (remote : SocketAddress) (v : list byte) : list byte :=
  bytes_at (fst (snd (ProcessInput remote v (size v))))
           0 (snd (snd (ProcessInput remote v (size v)))).

(** The bytes a script of [Recv] outcomes brings, and the
    packet-received signals among the events raised. *)
Definition received (script : list RecvOutcome) : list byte :=
  concat (map (fun o => match o with
                        | RecvData chunk => chunk
                        | RecvFails _ => []
                        end) script).

Definition is_packet (e : Event) : bool :=
  match e with
  | SignalReadPacket _ _ => true
  | _ => false
  end.

(** The payload a packet-received signal carries. *)
Definition payload_of (e : Event) : list byte :=
  match e with
  | SignalReadPacket data _ => data
  | _ => []
  end.

(** The socket has the [Recv] outcomes [script] in store, one per read
    event. *)
Definition receiving (script : list RecvOutcome) (t : AsyncTCPSocket)
  : AsyncTCPSocket :=
  set_socket (with_recv_script script (socket_ t)) t.

(** * Properties *)

(** Reads a field of an updated object. *)
Ltac fields :=
  cbn [socket_ listen_ inbuf_ insize_ inpos_ outbuf_ outsize_ outpos_
       set_socket set_in set_out].

(** ** Bytes and byte order *)

Lemma Z_of_byte_range (b : byte) : 0 <= Z_of_byte b < 256.
Proof.
  unfold Z_of_byte. pose proof (Byte.to_N_bounded b). lia.
Qed.

Lemma Z_of_byte_of_Z (z : Z) : Z_of_byte (byte_of_Z z) = z mod 256.
Proof.
  unfold Z_of_byte, byte_of_Z.
  pose proof (Z.mod_pos_bound z 256 eq_refl) as Hm.
  destruct (Byte.of_N (Z.to_N (z mod 256))) as [b|] eqn:Hb.
  - apply Byte.to_of_N in Hb. rewrite Hb. lia.
  - apply Byte.of_N_None_iff in Hb. lia.
Qed.

Lemma NetworkToHost16_range mem : 0 <= NetworkToHost16 mem < 65536.
Proof.
  destruct mem as [|hi [|lo rest]]; cbn [NetworkToHost16]; try lia.
  - pose proof (Z_of_byte_range hi). lia.
  - pose proof (Z_of_byte_range hi). pose proof (Z_of_byte_range lo). lia.
Qed.

Lemma NetworkToHost16_HostToNetwork16 (n : Z) (rest : list byte) :
  0 <= n < 65536 -> NetworkToHost16 (HostToNetwork16 n ++ rest) = n.
Proof.
  intros Hn. unfold HostToNetwork16. cbn [app NetworkToHost16].
  rewrite !Z_of_byte_of_Z.
  rewrite (Z.mod_small (n / 256))
    by (split; [apply Z.div_pos|apply Z.div_lt_upper_bound]; lia).
  pose proof (Z.div_mod n 256). lia.
Qed.

Lemma static_cast_PacketLength_small (cb : Z) :
  0 <= cb < 65536 -> static_cast_PacketLength cb = cb.
Proof.
  intros H. unfold static_cast_PacketLength. apply Z.mod_small.
  change (2 ^ 16) with 65536. lia.
Qed.

Lemma size_HostToNetwork16 n : size (HostToNetwork16 n) = PKT_LEN_SIZE.
Proof. reflexivity. Qed.

(** ** Raw memory *)

Lemma size_nonneg (l : list byte) : 0 <= size l.
Proof. unfold size. lia. Qed.

Lemma size_app (l l' : list byte) : size (l ++ l') = size l + size l'.
Proof. unfold size. rewrite length_app. lia. Qed.

Lemma size_firstn (n : nat) (l : list byte) :
  size (firstn n l) = Z.min (Z.of_nat n) (size l).
Proof. unfold size. rewrite length_firstn. lia. Qed.

Lemma size_skipn (n : nat) (l : list byte) :
  size (skipn n l) = Z.max 0 (size l - Z.of_nat n).
Proof. unfold size. rewrite length_skipn. lia. Qed.

Lemma size_bytes_at buf off n :
  0 <= off -> 0 <= n -> off + n <= size buf -> size (bytes_at buf off n) = n.
Proof.
  intros. unfold bytes_at. rewrite size_firstn, size_skipn. lia.
Qed.

Lemma size_memcpy dst off src n :
  0 <= off -> 0 <= n -> n <= size src -> off + n <= size dst ->
  size (memcpy dst off src n) = size dst.
Proof.
  intros. unfold memcpy.
  rewrite !size_app, !size_firstn, size_skipn. lia.
Qed.

Lemma size_memmove buf from n :
  0 <= from -> 0 <= n -> from + n <= size buf ->
  size (memmove buf from n) = size buf.
Proof.
  intros. unfold memmove.
  rewrite size_app, size_bytes_at, size_skipn by assumption. lia.
Qed.

Lemma firstn_size (l : list byte) : firstn (Z.to_nat (size l)) l = l.
Proof. unfold size. rewrite Nat2Z.id. apply firstn_all. Qed.

Lemma bytes_at_app_exact (l rest : list byte) :
  bytes_at (l ++ rest) 0 (size l) = l.
Proof.
  unfold bytes_at, size. cbn [Z.to_nat skipn]. rewrite Nat2Z.id.
  rewrite firstn_app, Nat.sub_diag, firstn_all. cbn [firstn].
  apply app_nil_r.
Qed.

Lemma bytes_at_app_skip (l mid rest : list byte) :
  bytes_at (l ++ mid ++ rest) (size l) (size mid) = mid.
Proof.
  unfold bytes_at, size. rewrite !Nat2Z.id.
  rewrite skipn_app, Nat.sub_diag, skipn_all. cbn [skipn app].
  rewrite firstn_app, Nat.sub_diag, firstn_all. cbn [firstn].
  apply app_nil_r.
Qed.

(** After [memcpy(dst + off, src, n)] the first [off + n] bytes are the
    first [off] bytes as they were, then the bytes copied. *)
Lemma memcpy_spec dst off src :
  0 <= off <= size dst ->
  memcpy dst off src (size src)
  = bytes_at dst 0 off ++ src ++ skipn (Z.to_nat (off + size src)) dst.
Proof.
  intros. unfold memcpy, bytes_at. cbn [Z.to_nat skipn].
  now rewrite firstn_size.
Qed.

(** [memmove] to the front keeps the bytes moved in their order. *)
Lemma memmove_spec buf from n :
  0 <= from -> 0 <= n -> from + n <= size buf ->
  bytes_at (memmove buf from n) 0 n = bytes_at buf from n.
Proof.
  intros. unfold memmove.
  pose proof (bytes_at_app_exact (bytes_at buf from n)
                (skipn (Z.to_nat n) buf)) as E.
  rewrite size_bytes_at in E by assumption. exact E.
Qed.

Lemma bytes_at_bytes_at buf n off m :
  0 <= off -> 0 <= m -> off + m <= n ->
  bytes_at (bytes_at buf 0 n) off m = bytes_at buf off m.
Proof.
  intros. unfold bytes_at. cbn [Z.to_nat skipn].
  rewrite skipn_firstn_comm, firstn_firstn. f_equal. lia.
Qed.

Lemma bytes_at_skipn buf n m :
  0 <= m <= n ->
  skipn (Z.to_nat m) (bytes_at buf 0 n) = bytes_at buf m (n - m).
Proof.
  intros. unfold bytes_at. cbn [Z.to_nat skipn].
  rewrite skipn_firstn_comm. f_equal. lia.
Qed.

Lemma bytes_at_split buf n m :
  0 <= m <= n ->
  bytes_at buf 0 n = bytes_at buf 0 m ++ bytes_at buf m (n - m).
Proof.
  intros. rewrite <- (firstn_skipn (Z.to_nat m) (bytes_at buf 0 n)).
  rewrite bytes_at_skipn by assumption. f_equal.
  unfold bytes_at. cbn [Z.to_nat skipn]. rewrite firstn_firstn. f_equal. lia.
Qed.

(** ** The socket keeps its address *)

Lemma Socket_Send_remote s buf cb :
  remote_address (snd (Socket.Send s buf cb)) = remote_address s.
Proof.
  unfold Socket.Send. cbn.
  destruct (send_script s) as [|[n|e] rest]; reflexivity.
Qed.

Lemma Socket_Recv_remote s cb :
  remote_address (snd (Socket.Recv s cb)) = remote_address s.
Proof.
  unfold Socket.Recv. cbn.
  destruct (recv_script s) as [|[chunk|e] rest]; reflexivity.
Qed.

(** ** Flush *)

Lemma Flush_cases t : FlushCase t (Flush t).
Proof.
  unfold Flush.
  destruct (Socket.Send (socket_ t) (outbuf_ t) (outpos_ t)) as [res s] eqn:Hs.
  cbn [outpos_ set_socket outbuf_].
  destruct (res <=? 0) eqn:E1.
  - apply Z.leb_le in E1. now apply (FlushNoProgress t res s).
  - apply Z.leb_gt in E1. destruct (res <=? outpos_ t) eqn:E2.
    + apply Z.leb_le in E2.
      pose proof (FlushProgress t res s Hs (conj E1 E2)) as Hc.
      destruct (0 <? outpos_ t - res) eqn:E3; exact Hc.
    + apply Z.leb_gt in E2. now apply (FlushOverrun t res s).
Qed.

Lemma Flush_Inv t : Inv t -> Inv (after (Flush t)).
Proof.
  intros [H1 H2 H3 H4 H5 H6].
  destruct (Flush_cases t) as [res s Hs Hr|res s Hs Hr|res s Hs Hr Hp];
    unfold after; cbn [snd]; constructor; fields; try assumption; try lia.
  destruct (0 <? outpos_ t - res) eqn:E; [|assumption].
  apply Z.ltb_lt in E. rewrite size_memmove; lia.
Qed.

(** The bytes left after a flush are the bytes that were queued, less
    the ones the socket took from the front, in the same order. *)
Lemma Flush_pending t :
  Inv t ->
  pending (after (Flush t))
  = skipn (Z.to_nat (outpos_ t - outpos_ (after (Flush t)))) (pending t).
Proof.
  intros [H1 H2 H3 H4 H5 H6]. unfold pending.
  destruct (Flush_cases t) as [res s Hs Hr|res s Hs Hr|res s Hs Hr Hp];
    unfold after; cbn [snd]; fields;
    rewrite ?Z.sub_diag; try reflexivity.
  replace (outpos_ t - (outpos_ t - res)) with res by lia.
  rewrite bytes_at_skipn by lia.
  destruct (0 <? outpos_ t - res) eqn:E.
  - apply Z.ltb_lt in E. apply memmove_spec; lia.
  - apply Z.ltb_ge in E. replace (outpos_ t - res) with 0 by lia. reflexivity.
Qed.

(** ** Send *)

(** The two [memcpy] calls of [Send] lay the length and the payload at
    the front of the buffer. *)
Lemma Send_layout (outbuf pv : list byte) (n : Z) :
  PKT_LEN_SIZE + size pv <= size outbuf ->
  memcpy (memcpy outbuf 0 (HostToNetwork16 n) PKT_LEN_SIZE)
         PKT_LEN_SIZE pv (size pv)
  = HostToNetwork16 n ++ pv
      ++ skipn (Z.to_nat (PKT_LEN_SIZE + size pv)) outbuf.
Proof.
  intros Hfit. pose proof (size_nonneg pv) as Hpv.
  assert (H1 : memcpy outbuf 0 (HostToNetwork16 n) PKT_LEN_SIZE
               = HostToNetwork16 n ++ skipn 2 outbuf) by reflexivity.
  rewrite H1, memcpy_spec
    by (rewrite size_app, size_HostToNetwork16; unfold PKT_LEN_SIZE, size in *;
        lia).
  change PKT_LEN_SIZE with (size (HostToNetwork16 n)) at 1.
  rewrite bytes_at_app_exact. do 2 f_equal.
  rewrite skipn_app. cbn [length HostToNetwork16].
  replace (Z.to_nat (PKT_LEN_SIZE + size pv) - 2)%nat with (length pv)
    by (unfold size, PKT_LEN_SIZE; lia).
  rewrite skipn_all2
    by (cbn [length HostToNetwork16]; unfold size, PKT_LEN_SIZE; lia).
  cbn [app]. rewrite skipn_skipn. f_equal. unfold size, PKT_LEN_SIZE. lia.
Qed.

Lemma Send_oversize t pv :
  MAX_PACKET_SIZE < size pv ->
  Send t pv = (-1, [], set_socket (Socket.SetError EMSGSIZE (socket_ t)) t).
Proof.
  intros H. unfold Send. fold (size pv).
  apply Z.ltb_lt in H. now rewrite H.
Qed.

Lemma Send_blocked t pv :
  size pv <= MAX_PACKET_SIZE -> outpos_ t <> 0 ->
  Send t pv = (size pv, [], t).
Proof.
  intros H Hb. unfold Send. fold (size pv).
  apply Z.ltb_ge in H. apply Z.eqb_neq in Hb. now rewrite H, Hb.
Qed.

Lemma Send_idle t pv :
  Inv t -> size pv <= MAX_PACKET_SIZE -> outpos_ t = 0 ->
  Send t pv
  = (if returned (Flush (framed t pv)) <=? 0
     then (returned (Flush (framed t pv)), raised (Flush (framed t pv)),
           set_out (outbuf_ (after (Flush (framed t pv)))) 0
                   (after (Flush (framed t pv))))
     else (size pv, raised (Flush (framed t pv)),
           after (Flush (framed t pv)))).
Proof.
  intros [H1 H2 H3 H4 H5 H6] H Hb. unfold Send. fold (size pv).
  apply Z.ltb_ge in H as H'. rewrite H', Hb. cbn [Z.eqb negb].
  rewrite Send_layout
    by (rewrite H5, H4; unfold BUF_SIZE; lia).
  rewrite app_assoc. fold (frame pv). fold (framed t pv).
  destruct (Flush (framed t pv)) as [[res ev] t']. reflexivity.
Qed.

Lemma size_frame pv : size (frame pv) = PKT_LEN_SIZE + size pv.
Proof. unfold frame. now rewrite size_app, size_HostToNetwork16. Qed.

Lemma framed_Inv t pv :
  Inv t -> size pv <= MAX_PACKET_SIZE -> Inv (framed t pv).
Proof.
  intros [H1 H2 H3 H4 H5 H6] H. pose proof (size_nonneg pv).
  constructor; unfold framed; fields; try assumption.
  - rewrite size_app, size_frame, size_skipn. rewrite H4 in *.
    unfold BUF_SIZE, PKT_LEN_SIZE in *. lia.
  - rewrite H4. unfold BUF_SIZE, PKT_LEN_SIZE. lia.
Qed.

Lemma pending_framed t pv : pending (framed t pv) = frame pv.
Proof.
  unfold pending, framed. fields.
  rewrite <- size_frame. apply bytes_at_app_exact.
Qed.

(** C2: a [Send] of an admissible payload on a send-blocked transport
    reports the payload length as sent and changes nothing: the object
    is the same, so are its outbound buffer, its outbound cursor and the
    bytes on the wire, and nothing is raised.  The packet is dropped. *)
Theorem Send_blocked_drops_packet (t : AsyncTCPSocket) (p : list byte) :
  size p <= MAX_PACKET_SIZE ->
  outpos_ t <> 0 ->
  returned (Send t p) = size p
  /\ raised (Send t p) = []
  /\ after (Send t p) = t
  /\ outbuf_ (after (Send t p)) = outbuf_ t
  /\ outpos_ (after (Send t p)) = outpos_ t
  /\ pending (after (Send t p)) = pending t
  /\ wire (socket_ (after (Send t p))) = wire (socket_ t)
  /\ calls (socket_ (after (Send t p))) = calls (socket_ t).
Proof.
  intros Hp Hb. rewrite Send_blocked by assumption.
  unfold returned, raised, after. cbn [fst snd]. repeat split; reflexivity.
Qed.

Lemma Send_blocked_drops_packet_witness :
  pending a_blocked = ["001"%byte; "a"%byte]
  /\ returned (Send a_blocked ["b"%byte]) = 1
  /\ after (Send a_blocked ["b"%byte]) = a_blocked.
Proof.
  split; [vm_compute; reflexivity|].
  destruct (Send_blocked_drops_packet a_blocked ["b"%byte])
    as (H1 & _ & H3 & _).
  - vm_compute. discriminate.
  - intros H. vm_compute in H. discriminate.
  - split; [exact H1 | exact H3].
Defined.

Lemma Socket_Send_calls s buf cb :
  calls (snd (Socket.Send s buf cb)) = calls s ++ [CallSend cb].
Proof.
  unfold Socket.Send.
  destruct (send_script (called (CallSend cb) s)) as [|[n|e] rest];
    reflexivity.
Qed.

Lemma Flush_calls t :
  calls (socket_ (after (Flush t)))
  = calls (socket_ t) ++ [CallSend (outpos_ t)].
Proof.
  destruct (Flush_cases t) as [res s Hs Hr|res s Hs Hr|res s Hs Hr Hp];
    unfold after; cbn [snd]; fields;
    change s with (snd (res, s)); rewrite <- Hs; apply Socket_Send_calls.
Qed.

(** What [Send] asks of the socket when the payload is admissible: one
    [Send] of the whole frame if the transport is idle, nothing if it is
    send-blocked. *)
Lemma Send_calls t pv :
  size pv <= MAX_PACKET_SIZE ->
  calls (socket_ (after (Send t pv)))
  = calls (socket_ t)
      ++ (if outpos_ t =? 0 then [CallSend (PKT_LEN_SIZE + size pv)] else []).
Proof.
  intros H. unfold Send. fold (size pv).
  apply Z.ltb_ge in H. rewrite H.
  destruct (outpos_ t =? 0); cbn [negb].
  - match goal with |- context [Flush ?x] =>
      pose proof (Flush_calls x) as Hc; destruct (Flush x) as [[res ev] t']
    end.
    unfold after in *. cbn [snd] in Hc. revert Hc. fields. intros Hc.
    destruct (res <=? 0); cbn [snd]; fields; exact Hc.
  - unfold after. cbn [snd]. now rewrite app_nil_r.
Qed.

(** What a failed [Send] of an admissible payload is: on an idle
    transport the socket's own [Send] of the frame gave a negative
    result, or claimed more bytes than it was handed; the socket is
    then as its [Send] left it. *)
Lemma Send_negative t pv :
  Inv t -> size pv <= MAX_PACKET_SIZE ->
  (returned (Send t pv) < 0
   <-> outpos_ t = 0
       /\ (fst (flushed (framed t pv)) < 0
           \/ PKT_LEN_SIZE + size pv < fst (flushed (framed t pv))))
  /\ (outpos_ t = 0 ->
      socket_ (after (Send t pv)) = snd (flushed (framed t pv))).
Proof.
  intros HI Hp. pose proof (size_nonneg pv) as Hnn.
  destruct (Z.eq_dec (outpos_ t) 0) as [Hidle|Hbusy].
  - rewrite (Send_idle t pv HI Hp Hidle). unfold flushed.
    destruct (Flush_cases (framed t pv))
      as [res s Hs Hr|res s Hs Hr|res s Hs Hr Hq];
      rewrite Hs; unfold returned, after; cbn [fst snd];
      change (outpos_ (framed t pv)) with (PKT_LEN_SIZE + size pv) in *.
    + replace (res <=? 0) with true by (symmetry; apply Z.leb_le; lia).
      cbn [fst snd]. fields. split; [|reflexivity].
      split; [intros H; split; [exact Hidle|left; exact H]|].
      intros [_ [H|H]]; unfold PKT_LEN_SIZE in *; lia.
    + replace (res <=? 0) with false by (symmetry; apply Z.leb_gt; lia).
      cbn [fst snd]. fields. split; [|reflexivity].
      split; [lia|]. intros [_ [H|H]]; unfold PKT_LEN_SIZE in *; lia.
    + cbn [Z.leb Z.compare Z.opp fst snd]. fields. split; [|reflexivity].
      split; [intros _; split; [exact Hidle|right; exact Hr]|lia].
  - rewrite (Send_blocked t pv Hp Hbusy). unfold returned. cbn [fst].
    split; [|contradiction]. split; [lia|]. intros [H _]. contradiction.
Qed.

(** C3, corrected: a payload longer than [MAX_PACKET_SIZE] makes
    [Send] return -1 with [EMSGSIZE] on the socket, and nothing reaches
    the wire or the socket's [Send], and both buffers and both cursors
    are as they were.  The converse fails: a negative result with
    [EMSGSIZE] on the socket is also what [Send] gives for an admissible
    payload, on an idle transport, when the socket's own [Send] of the
    frame fails (or claims more bytes than it was handed) and leaves
    [EMSGSIZE] on the socket.  These are all the cases.  What holds
    exactly for the long payloads is that [Send] itself sets the
    error: the one call it makes on the socket is [SetError(EMSGSIZE)]. *)
Theorem Send_size_too_large_iff (t : AsyncTCPSocket) (p : list byte) :
  (Inv t ->
   (returned (Send t p) < 0
    /\ Socket.GetError (socket_ (after (Send t p))) = EMSGSIZE
    <-> MAX_PACKET_SIZE < size p
        \/ (size p <= MAX_PACKET_SIZE
            /\ outpos_ t = 0
            /\ (fst (flushed (framed t p)) < 0
                \/ PKT_LEN_SIZE + size p < fst (flushed (framed t p)))
            /\ Socket.GetError (snd (flushed (framed t p))) = EMSGSIZE)))
  /\ (calls (socket_ (after (Send t p)))
      = calls (socket_ t) ++ [CallSetError EMSGSIZE]
      <-> MAX_PACKET_SIZE < size p)
  /\ (MAX_PACKET_SIZE < size p ->
      returned (Send t p) = -1
      /\ raised (Send t p) = []
      /\ Socket.GetError (socket_ (after (Send t p))) = EMSGSIZE
      /\ wire (socket_ (after (Send t p))) = wire (socket_ t)
      /\ send_script (socket_ (after (Send t p))) = send_script (socket_ t)
      /\ outbuf_ (after (Send t p)) = outbuf_ t
      /\ outpos_ (after (Send t p)) = outpos_ t
      /\ inbuf_ (after (Send t p)) = inbuf_ t
      /\ inpos_ (after (Send t p)) = inpos_ t).
Proof.
  assert (Hover : MAX_PACKET_SIZE < size p ->
            returned (Send t p) = -1
            /\ raised (Send t p) = []
            /\ Socket.GetError (socket_ (after (Send t p))) = EMSGSIZE
            /\ wire (socket_ (after (Send t p))) = wire (socket_ t)
            /\ send_script (socket_ (after (Send t p)))
               = send_script (socket_ t)
            /\ outbuf_ (after (Send t p)) = outbuf_ t
            /\ outpos_ (after (Send t p)) = outpos_ t
            /\ inbuf_ (after (Send t p)) = inbuf_ t
            /\ inpos_ (after (Send t p)) = inpos_ t).
  { intros H. rewrite Send_oversize by assumption.
    unfold returned, raised, after. cbn [fst snd]. fields.
    repeat split; reflexivity. }
  refine (conj _ (conj _ Hover)).
  - intros HI.
    destruct (Z_lt_dec MAX_PACKET_SIZE (size p)) as [Hbig|Hle].
    + destruct (Hover Hbig) as (Hr & _ & He & _).
      split; [intros _; left; exact Hbig|].
      intros _. split; [lia|exact He].
    + destruct (Send_negative t p HI ltac:(lia)) as [Hneg Hsock].
      split.
      * intros [Hr He]. right. apply Hneg in Hr as [Hidle Hres].
        rewrite (Hsock Hidle) in He.
        refine (conj _ (conj Hidle (conj Hres He))). lia.
      * intros [Hbig|(_ & Hidle & Hres & He)]; [contradiction|].
        split; [apply Hneg; split; assumption|].
        rewrite (Hsock Hidle). exact He.
  - split.
    + intros Hc.
      destruct (Z_lt_dec MAX_PACKET_SIZE (size p)) as [|Hle]; [assumption|].
      exfalso. rewrite Send_calls in Hc by lia.
      apply app_inv_head in Hc. destruct (outpos_ t =? 0); discriminate.
    + intros H. rewrite Send_oversize by assumption.
      unfold after. cbn [snd]. fields. reflexivity.
Qed.

(** C3 as stated fails for a one-byte payload on an idle transport
    whose socket fails the [Send] with [EMSGSIZE]: the result is
    negative and the socket shows the size-too-large code, yet the
    payload is not longer than [MAX_PACKET_SIZE]. *)
Lemma admissible_Send_shows_EMSGSIZE :
  let t := sending [SendFails EMSGSIZE] a_connection in
  let p := ["a"%byte] in
  returned (Send t p) < 0
  /\ Socket.GetError (socket_ (after (Send t p))) = EMSGSIZE
  /\ size p <= MAX_PACKET_SIZE.
Proof. vm_compute. repeat split; discriminate. Qed.

(** ** ProcessInput *)

(** The loop, one turn unrolled. *)
Lemma ProcessInput_loop remote data len :
  ProcessInput remote data len
  = match ProcessInput_turn remote data len with
    | None => ([], (data, len))
    | Some (ev, (data', len')) =>
        (ev :: fst (ProcessInput remote data' len'),
         snd (ProcessInput remote data' len'))
    end.
Proof.
  funelim (ProcessInput remote data len).
  - rewrite Hturn. reflexivity.
  - rewrite e. reflexivity.
Qed.

(** A turn that goes on has signalled a packet and dropped it, with its
    length prefix, from the front of the buffered bytes. *)
Lemma ProcessInput_turn_consumes {remote data len ev data' len'} :
  ProcessInput_turn remote data len = Some (ev, (data', len')) ->
  0 <= len' <= len - PKT_LEN_SIZE.
Proof.
  unfold ProcessInput_turn.
  pose proof (NetworkToHost16_range (bytes_at data 0 PKT_LEN_SIZE)).
  destruct (len <? PKT_LEN_SIZE) eqn:E1; [discriminate|].
  destruct (len <? PKT_LEN_SIZE + _) eqn:E2; [discriminate|].
  apply Z.ltb_ge in E1, E2.
  destruct (0 <? _); intros Hsome;
    assert (len' = len - (PKT_LEN_SIZE
                          + NetworkToHost16 (bytes_at data 0 PKT_LEN_SIZE)))
      by (inversion Hsome; reflexivity);
    unfold PKT_LEN_SIZE in *; lia.
Qed.

Lemma ProcessInput_turn_size {remote data len ev data' len'} :
  len <= size data ->
  ProcessInput_turn remote data len = Some (ev, (data', len')) ->
  size data' = size data.
Proof.
  intros Hlen Hturn.
  pose proof (ProcessInput_turn_consumes Hturn) as Hc.
  revert Hturn. unfold ProcessInput_turn.
  destruct (len <? PKT_LEN_SIZE); [discriminate|].
  destruct (len <? PKT_LEN_SIZE + _); [discriminate|].
  pose proof (NetworkToHost16_range (bytes_at data 0 PKT_LEN_SIZE)).
  destruct (0 <? _) eqn:E; intros Hsome.
  - assert (Hd : data' = memmove data (PKT_LEN_SIZE
                   + NetworkToHost16 (bytes_at data 0 PKT_LEN_SIZE))
                   (len - (PKT_LEN_SIZE
                   + NetworkToHost16 (bytes_at data 0 PKT_LEN_SIZE))))
      by (inversion Hsome; reflexivity).
    assert (Hl : len' = len - (PKT_LEN_SIZE
                   + NetworkToHost16 (bytes_at data 0 PKT_LEN_SIZE)))
      by (inversion Hsome; reflexivity).
    rewrite Hd. apply size_memmove; unfold PKT_LEN_SIZE in *; lia.
  - assert (Hd : data' = data) by (inversion Hsome; reflexivity).
    now rewrite Hd.
Qed.

(** On return the buffer has its size, [len] has not grown, and every
    packet signalled took at least the two bytes of its prefix. *)
Lemma ProcessInput_returns remote data len :
  0 <= len <= size data ->
  size (fst (snd (ProcessInput remote data len))) = size data
  /\ 0 <= snd (snd (ProcessInput remote data len))
  /\ snd (snd (ProcessInput remote data len))
       + PKT_LEN_SIZE * Z.of_nat (length (fst (ProcessInput remote data len)))
     <= len.
Proof.
  funelim (ProcessInput remote data len); intros Hlen.
  - pose proof (ProcessInput_turn_consumes Hturn) as Hc.
    pose proof (ProcessInput_turn_size (proj2 Hlen) Hturn) as Hs.
    cbn zeta. cbn [fst snd length].
    destruct H as (IH1 & IH2 & IH3); [unfold PKT_LEN_SIZE in *; lia|].
    rewrite IH1. unfold PKT_LEN_SIZE in *. repeat split; lia.
  - cbn [fst snd length]. unfold PKT_LEN_SIZE. repeat split; lia.
Qed.

(** The loop leaves through one of its two [return]s: on return no
    further turn is possible. *)
Lemma ProcessInput_exits remote data len :
  ProcessInput_turn remote (fst (snd (ProcessInput remote data len)))
                    (snd (snd (ProcessInput remote data len))) = None.
Proof.
  funelim (ProcessInput remote data len).
  - cbn zeta. cbn [fst snd]. assumption.
  - cbn [fst snd]. assumption.
Qed.

(** ** Frames in the inbound buffer *)

Lemma prefix_decodes p :
  fits_prefix p ->
  NetworkToHost16 (HostToNetwork16 (static_cast_PacketLength (size p)))
  = size p.
Proof.
  intros Hp. pose proof (size_nonneg p). unfold fits_prefix in Hp.
  rewrite static_cast_PacketLength_small by lia.
  pose proof (NetworkToHost16_HostToNetwork16 (size p) []) as E.
  rewrite app_nil_r in E. apply E. lia.
Qed.

Lemma bytes_at_frame_prefix p rest :
  bytes_at (frame p ++ rest) 0 PKT_LEN_SIZE
  = HostToNetwork16 (static_cast_PacketLength (size p)).
Proof. reflexivity. Qed.

Lemma bytes_at_frame_payload p rest :
  bytes_at (frame p ++ rest) PKT_LEN_SIZE (size p) = p.
Proof.
  unfold frame. rewrite <- app_assoc.
  change PKT_LEN_SIZE
    with (size (HostToNetwork16 (static_cast_PacketLength (size p)))).
  apply bytes_at_app_skip.
Qed.

(** A whole frame at the front of the buffered bytes: the turn signals
    its payload and moves what follows to the front. *)
Lemma ProcessInput_turn_frame remote p rest junk :
  fits_prefix p ->
  ProcessInput_turn remote (frame p ++ rest ++ junk)
                    (size (frame p) + size rest)
  = Some (SignalReadPacket p remote,
          (rest ++ skipn (Z.to_nat (size rest)) (frame p ++ rest ++ junk),
           size rest)).
Proof.
  intros Hp. unfold ProcessInput_turn.
  pose proof (size_nonneg p). pose proof (size_nonneg rest).
  rewrite bytes_at_frame_prefix.
  rewrite prefix_decodes by assumption.
  rewrite size_frame.
  replace (PKT_LEN_SIZE + size p + size rest <? PKT_LEN_SIZE) with false
    by (symmetry; apply Z.ltb_ge; unfold PKT_LEN_SIZE; lia).
  replace (PKT_LEN_SIZE + size p + size rest <? PKT_LEN_SIZE + size p)
    with false by (symmetry; apply Z.ltb_ge; lia).
  rewrite bytes_at_frame_payload.
  replace (PKT_LEN_SIZE + size p + size rest - (PKT_LEN_SIZE + size p))
    with (size rest) by lia.
  destruct (0 <? size rest) eqn:E.
  - unfold memmove. rewrite <- size_frame.
    rewrite bytes_at_app_skip. reflexivity.
  - apply Z.ltb_ge in E. assert (rest = []) as ->
      by (destruct rest; [reflexivity|cbn in *; lia]).
    reflexivity.
Qed.

(** Whole frames at the front of the buffer are signalled one by one, in
    order, and nothing of them stays buffered. *)
Lemma ProcessInput_frames remote ps : forall junk,
  Forall fits_prefix ps ->
  fst (ProcessInput remote (concat (map frame ps) ++ junk)
                    (size (concat (map frame ps))))
  = packets remote ps
  /\ snd (snd (ProcessInput remote (concat (map frame ps) ++ junk)
                            (size (concat (map frame ps))))) = 0.
Proof.
  induction ps as [|p ps IH]; intros junk Hps.
  - rewrite ProcessInput_loop. cbn. split; reflexivity.
  - inversion Hps as [|? ? Hp Hps']; subst.
    cbn [map concat]. rewrite ProcessInput_loop.
    rewrite size_app, <- app_assoc, ProcessInput_turn_frame by assumption.
    cbn [fst snd packets map].
    destruct (IH (skipn (Z.to_nat (size (concat (map frame ps))))
                        (frame p ++ concat (map frame ps) ++ junk)) Hps')
      as [IH1 IH2].
    rewrite IH1, IH2. split; reflexivity.
Qed.

(** Less than a frame in the buffer: the loop returns at once. *)
Lemma ProcessInput_turn_partial remote p pre suf junk :
  fits_prefix p -> pre ++ suf = frame p -> suf <> [] ->
  ProcessInput_turn remote (pre ++ junk) (size pre) = None.
Proof.
  intros Hp Hsplit Hsuf. unfold ProcessInput_turn.
  destruct (size pre <? PKT_LEN_SIZE) eqn:E1; [reflexivity|].
  apply Z.ltb_ge in E1.
  assert (Hhdr : bytes_at (pre ++ junk) 0 PKT_LEN_SIZE
                 = bytes_at (frame p ++ []) 0 PKT_LEN_SIZE).
  { rewrite app_nil_r, <- Hsplit. unfold bytes_at.
    cbn [Z.to_nat skipn]. rewrite !firstn_app.
    replace (Z.to_nat PKT_LEN_SIZE - length pre)%nat with 0%nat
      by (unfold size in E1; lia).
    reflexivity. }
  rewrite Hhdr, bytes_at_frame_prefix.
  rewrite prefix_decodes by assumption.
  assert (size pre < PKT_LEN_SIZE + size p).
  { rewrite <- size_frame, <- Hsplit, size_app.
    destruct suf; [contradiction|]. unfold size. cbn [length]. lia. }
  replace (size pre <? PKT_LEN_SIZE + size p) with true
    by (symmetry; apply Z.ltb_lt; assumption).
  reflexivity.
Qed.

(** ** Read events *)

Lemma Socket_Recv_chunk s cb c rest :
  recv_script s = RecvData c :: rest -> size c <= cb ->
  Socket.Recv s cb
  = (size c, c, with_recv_script rest (called (CallRecv cb) s)).
Proof.
  intros Hs Hc. unfold Socket.Recv.
  cbn [recv_script called]. rewrite Hs.
  rewrite firstn_all2, skipn_all2 by (unfold size in Hc; lia).
  reflexivity.
Qed.

Lemma size_buffered t : Inv t -> size (buffered t) = inpos_ t.
Proof.
  intros [H1 H2 H3 H4 H5 H6]. unfold buffered.
  apply size_bytes_at; lia.
Qed.

(** A read event that finds the chunk [c] in the socket, with room for
    it: [c] goes behind the buffered bytes and [ProcessInput] runs. *)
Lemma OnReadEvent_data_chunk t c rest :
  Inv t ->
  recv_script (socket_ t) = RecvData c :: rest ->
  inpos_ t + size c <= insize_ t ->
  OnReadEvent_data t
  = (let s := with_recv_script rest
                (called (CallRecv (insize_ t - inpos_ t)) (socket_ t)) in
     let r := ProcessInput (remote_address (socket_ t))
                ((buffered t ++ c)
                   ++ skipn (Z.to_nat (inpos_ t + size c)) (inbuf_ t))
                (inpos_ t + size c) in
     if insize_ t <=? snd (snd r)
     then (fst r ++ [LogError "input buffer overflow" None; AssertFailed],
           set_in (fst (snd r)) 0 (set_socket s t))
     else (fst r, set_in (fst (snd r)) (snd (snd r)) (set_socket s t))).
Proof.
  intros [H1 H2 H3 H4 H5 H6] Hs Hfit. unfold OnReadEvent_data.
  rewrite (Socket_Recv_chunk _ _ c rest Hs) by lia. fields.
  pose proof (size_nonneg c).
  replace (size c <? 0) with false by (symmetry; apply Z.ltb_ge; lia).
  rewrite memcpy_spec by lia. rewrite app_assoc. fold (buffered t).
  unfold Socket.GetRemoteAddress. cbn [remote_address with_recv_script called].
  cbn zeta.
  destruct (ProcessInput _ _ _) as [evs [buf pos]]. reflexivity.
Qed.

(** The read event that completes the frames buffered so far. *)
Lemma OnReadEvent_data_frames t c rest ps :
  Inv t ->
  recv_script (socket_ t) = RecvData c :: rest ->
  buffered t ++ c = concat (map frame ps) ->
  Forall fits_prefix ps ->
  inpos_ t + size c <= insize_ t ->
  fst (OnReadEvent_data t) = packets (remote_address (socket_ t)) ps
  /\ Inv (snd (OnReadEvent_data t))
  /\ inpos_ (snd (OnReadEvent_data t)) = 0
  /\ recv_script (socket_ (snd (OnReadEvent_data t))) = rest
  /\ remote_address (socket_ (snd (OnReadEvent_data t)))
     = remote_address (socket_ t)
  /\ listen_ (snd (OnReadEvent_data t)) = listen_ t.
Proof.
  intros HI Hs Hps Hfits Hroom.
  rewrite (OnReadEvent_data_chunk t c rest HI Hs Hroom). cbn zeta.
  pose proof (size_buffered t HI) as Hb.
  assert (Hlen : inpos_ t + size c = size (concat (map frame ps)))
    by (rewrite <- Hps, size_app; lia).
  rewrite Hps, Hlen.
  destruct (ProcessInput_frames (remote_address (socket_ t)) ps
              (skipn (Z.to_nat (size (concat (map frame ps)))) (inbuf_ t))
              Hfits) as [He Hp].
  destruct HI as [H1 H2 H3 H4 H5 H6].
  pose proof (size_nonneg (concat (map frame ps))) as Hnn.
  destruct (ProcessInput_returns (remote_address (socket_ t))
              (concat (map frame ps)
                 ++ skipn (Z.to_nat (size (concat (map frame ps)))) (inbuf_ t))
              (size (concat (map frame ps)))) as (Hsz & _ & _).
  { rewrite size_app, size_skipn. lia. }
  rewrite Hp, He in *.
  replace (insize_ t <=? 0) with false
    by (symmetry; apply Z.leb_gt; rewrite H1; reflexivity).
  cbn [fst snd]. fields.
  cbn [recv_script remote_address with_recv_script called].
  repeat split; try reflexivity; fields; try assumption; try lia.
  rewrite Hsz, size_app, size_skipn. lia.
Qed.

(** A read event that leaves less than a frame buffered raises
    nothing; the chunk stays behind the bytes buffered before. *)
Lemma OnReadEvent_data_partial t c rest p suf :
  Inv t ->
  recv_script (socket_ t) = RecvData c :: rest ->
  fits_prefix p -> (buffered t ++ c) ++ suf = frame p -> suf <> [] ->
  fst (OnReadEvent_data t) = []
  /\ Inv (snd (OnReadEvent_data t))
  /\ buffered (snd (OnReadEvent_data t)) = buffered t ++ c
  /\ recv_script (socket_ (snd (OnReadEvent_data t))) = rest
  /\ remote_address (socket_ (snd (OnReadEvent_data t)))
     = remote_address (socket_ t)
  /\ listen_ (snd (OnReadEvent_data t)) = listen_ t.
Proof.
  intros HI Hs Hp Hsplit Hsuf.
  pose proof (size_buffered t HI) as Hb.
  assert (Hlt : size (buffered t ++ c) < size (frame p)).
  { rewrite <- Hsplit, (size_app _ suf).
    destruct suf; [contradiction|]. unfold size at 3. cbn [length]. lia. }
  rewrite size_frame, size_app, Hb in Hlt.
  destruct HI as [H1 H2 H3 H4 H5 H6].
  assert (Hroom : inpos_ t + size c <= insize_ t).
  { rewrite H1.
    unfold fits_prefix, BUF_SIZE, MAX_PACKET_SIZE, PKT_LEN_SIZE in *. lia. }
  assert (Hlen : inpos_ t + size c = size (buffered t ++ c))
    by (rewrite size_app; lia).
  set (junk := skipn (Z.to_nat (inpos_ t + size c)) (inbuf_ t)).
  assert (HP : ProcessInput (remote_address (socket_ t))
                 ((buffered t ++ c) ++ junk) (inpos_ t + size c)
               = ([], ((buffered t ++ c) ++ junk, inpos_ t + size c))).
  { rewrite Hlen, ProcessInput_loop.
    now rewrite (ProcessInput_turn_partial _ p _ suf _ Hp Hsplit Hsuf). }
  rewrite (OnReadEvent_data_chunk t c rest
             (Build_Inv t H1 H2 H3 H4 H5 H6) Hs Hroom). cbn zeta.
  fold junk. rewrite HP. cbn [fst snd].
  replace (insize_ t <=? inpos_ t + size c) with false
    by (symmetry; apply Z.leb_gt; rewrite H1;
        unfold fits_prefix, BUF_SIZE, MAX_PACKET_SIZE, PKT_LEN_SIZE in *; lia).
  cbn [fst snd]. pose proof (size_nonneg c).
  repeat split; fields; try assumption; try reflexivity; try lia.
  - rewrite size_app, <- Hlen. unfold junk. rewrite size_skipn. lia.
  - unfold buffered at 1. fields. rewrite Hlen. apply bytes_at_app_exact.
Qed.

Lemma OnReadEvent_connection t :
  listen_ t = false -> OnReadEvent t = OnReadEvent_data t.
Proof. intros H. unfold OnReadEvent. now rewrite H. Qed.

Lemma buffered_empty t : inpos_ t = 0 -> buffered t = [].
Proof. intros H. unfold buffered. now rewrite H. Qed.

Lemma size_repeat (b : byte) (n : Z) :
  0 <= n -> size (repeat b (Z.to_nat n)) = n.
Proof. intros H. unfold size. rewrite repeat_length. now apply Z2Nat.id. Qed.

Lemma AsyncTCPSocket_new_Inv s listen :
  Inv (snd (AsyncTCPSocket_new s listen)).
Proof.
  assert (H0 : 0 <= BUF_SIZE) by discriminate.
  assert (HI : forall s', Inv
            {| socket_ := s'; listen_ := listen;
               inbuf_ := repeat x00 (Z.to_nat BUF_SIZE);
               insize_ := BUF_SIZE; inpos_ := 0;
               outbuf_ := repeat x00 (Z.to_nat BUF_SIZE);
               outsize_ := BUF_SIZE; outpos_ := 0 |}).
  { intros s'. constructor; fields.
    - reflexivity.
    - now apply size_repeat.
    - split; [apply Z.le_refl|exact H0].
    - reflexivity.
    - now apply size_repeat.
    - split; [apply Z.le_refl|exact H0]. }
  unfold AsyncTCPSocket_new. destruct listen.
  - destruct (Socket.Listen s LISTEN_BACKLOG) as [res s'].
    destruct (res <? 0); cbn [snd]; apply (HI s').
  - cbn [snd]. apply (HI s).
Qed.

Lemma arriving_Inv chunks t : Inv t -> Inv (arriving chunks t).
Proof. intros [H1 H2 H3 H4 H5 H6]. constructor; assumption. Qed.

Lemma sending_Inv o t : Inv t -> Inv (sending o t).
Proof. intros [H1 H2 H3 H4 H5 H6]. constructor; assumption. Qed.

Lemma Send_size_too_large_iff_witness :
  let p := repeat "a"%byte (Z.to_nat (MAX_PACKET_SIZE + 1)) in
  returned (Send a_connection p) < 0
  /\ Socket.GetError (socket_ (after (Send a_connection p))) = EMSGSIZE.
Proof.
  intros p.
  destruct (Send_size_too_large_iff a_connection p) as [H _].
  apply H.
  - apply AsyncTCPSocket_new_Inv.
  - left. vm_compute. reflexivity.
Defined.

(** Read events that bring no byte to an empty inbound buffer raise
    nothing. *)
Lemma read_events_idle cs : forall t,
  Inv t -> listen_ t = false -> inpos_ t = 0 ->
  recv_script (socket_ t) = map RecvData cs ->
  concat cs = [] ->
  fst (read_events (length cs) t) = []
  /\ inpos_ (snd (read_events (length cs) t)) = 0.
Proof.
  induction cs as [|c cs IH]; intros t HI Hl Hpos Hs Hcs.
  - cbn. split; [reflexivity|assumption].
  - cbn [concat] in Hcs. apply app_eq_nil in Hcs as [-> Hcs].
    cbn [length read_events]. rewrite (OnReadEvent_connection t Hl).
    destruct (OnReadEvent_data_frames t [] (map RecvData cs) [] HI Hs)
      as (He & HI' & Hpos' & Hs' & _ & Hl').
    { now rewrite buffered_empty. }
    { constructor. }
    { rewrite Hpos. destruct HI as [H1 _ _ _ _ _]. rewrite H1. discriminate. }
    destruct (OnReadEvent_data t) as [ev t'].
    cbn [fst snd] in *. rewrite Hl in Hl'.
    destruct (IH t' HI' Hl' Hpos' Hs' Hcs) as [IHe IHp].
    destruct (read_events (length cs) t') as [evs t''].
    cbn [fst snd] in *. subst. split; [reflexivity|assumption].
Qed.

(** Read events that bring the rest of a frame, piece by piece: the
    packet is signalled once, when its last byte arrives. *)
Lemma read_events_reassemble p cs : forall t,
  Inv t -> listen_ t = false -> fits_prefix p ->
  recv_script (socket_ t) = map RecvData cs ->
  buffered t ++ concat cs = frame p ->
  concat cs <> [] ->
  fst (read_events (length cs) t)
  = [SignalReadPacket p (remote_address (socket_ t))]
  /\ inpos_ (snd (read_events (length cs) t)) = 0.
Proof.
  induction cs as [|c cs IH]; intros t HI Hl Hp Hs Hsplit Hne.
  - contradiction.
  - cbn [length read_events]. rewrite (OnReadEvent_connection t Hl).
    cbn [concat] in Hsplit. cbn [map] in Hs.
    destruct (list_eq_dec Byte.byte_eq_dec (concat cs) []) as [Hdone|Hmore].
    + rewrite Hdone, app_nil_r in Hsplit.
      destruct (OnReadEvent_data_frames t c (map RecvData cs) [p] HI Hs)
        as (He & HI' & Hpos' & Hs' & _ & Hl').
      { cbn [map concat]. now rewrite app_nil_r. }
      { constructor; [assumption|constructor]. }
      { rewrite <- (size_buffered t HI), <- size_app, Hsplit, size_frame.
        destruct HI as [H1 _ _ _ _ _]. rewrite H1.
        unfold fits_prefix, BUF_SIZE, MAX_PACKET_SIZE, PKT_LEN_SIZE in *. lia. }
      destruct (OnReadEvent_data t) as [ev t'].
      cbn [fst snd] in *. rewrite Hl in Hl'.
      destruct (read_events_idle cs t' HI' Hl' Hpos' Hs' Hdone) as [IHe IHp].
      destruct (read_events (length cs) t') as [evs t''].
      cbn [fst snd] in *. subst. split; [reflexivity|assumption].
    + rewrite app_assoc in Hsplit.
      destruct (OnReadEvent_data_partial t c (map RecvData cs) p (concat cs)
                  HI Hs Hp Hsplit Hmore)
        as (He & HI' & Hb' & Hs' & Hr' & Hl').
      destruct (OnReadEvent_data t) as [ev t'].
      cbn [fst snd] in *. rewrite Hl in Hl'. rewrite <- Hb' in Hsplit.
      destruct (IH t' HI' Hl' Hp Hs' Hsplit Hmore) as [IHe IHp].
      destruct (read_events (length cs) t') as [evs t''].
      cbn [fst snd] in *. subst. rewrite Hr'. split; [reflexivity|assumption].
Qed.

(** C4: the bytes of one valid frame, cut at byte boundaries into any
    number of pieces and delivered one piece per read event to a
    connection whose inbound buffer is empty, raise exactly one
    packet-received signal, with the payload of the frame: the same as one
    read event that delivers the whole frame. *)
Theorem partial_reads_reassemble
  (t : AsyncTCPSocket) (p : list byte) (chunks : list (list byte)) :
  Inv t -> listen_ t = false -> inpos_ t = 0 ->
  fits_prefix p ->
  concat chunks = frame p ->
  fst (read_events (length chunks) (arriving chunks t))
  = [SignalReadPacket p (remote_address (socket_ t))]
  /\ fst (read_events (length chunks) (arriving chunks t))
     = fst (read_events 1 (arriving [frame p] t))
  /\ inpos_ (snd (read_events (length chunks) (arriving chunks t))) = 0.
Proof.
  intros HI Hl Hpos Hp Hcat.
  assert (Hall : forall cs, concat cs = frame p ->
            fst (read_events (length cs) (arriving cs t))
            = [SignalReadPacket p (remote_address (socket_ t))]
            /\ inpos_ (snd (read_events (length cs) (arriving cs t))) = 0).
  { intros cs Hcs.
    apply (read_events_reassemble p cs (arriving cs t)).
    - now apply arriving_Inv.
    - exact Hl.
    - exact Hp.
    - reflexivity.
    - rewrite buffered_empty by exact Hpos. exact Hcs.
    - rewrite Hcs. discriminate. }
  destruct (Hall chunks Hcat) as [H1 H2].
  destruct (Hall [frame p]) as [H3 _]; [cbn [concat]; apply app_nil_r|].
  cbn [length] in H3. rewrite H1, H3. repeat split. exact H2.
Qed.

Lemma partial_reads_reassemble_witness :
  fst (read_events 3
         (arriving [["000"%byte]; ["002"%byte; "h"%byte]; ["i"%byte]]
                   a_connection))
  = [SignalReadPacket ["h"%byte; "i"%byte] 5222].
Proof.
  apply (partial_reads_reassemble a_connection ["h"%byte; "i"%byte]
           [["000"%byte]; ["002"%byte; "h"%byte]; ["i"%byte]]).
  - apply AsyncTCPSocket_new_Inv.
  - reflexivity.
  - reflexivity.
  - reflexivity.
  - reflexivity.
Defined.

(** C5: [N] valid frames, one after the other, delivered in one read
    event to a connection whose inbound buffer is empty and can hold
    them, raise exactly [N] packet-received signals, one per frame, in
    the order of the frames, each with the payload of its frame; nothing
    stays buffered. *)
Theorem batched_frames_in_order (t : AsyncTCPSocket) (ps : list (list byte)) :
  Inv t -> listen_ t = false -> inpos_ t = 0 ->
  Forall fits_prefix ps ->
  size (concat (map frame ps)) <= insize_ t ->
  fst (OnReadEvent (arriving [concat (map frame ps)] t))
  = packets (remote_address (socket_ t)) ps
  /\ length (fst (OnReadEvent (arriving [concat (map frame ps)] t)))
     = length ps
  /\ inpos_ (snd (OnReadEvent (arriving [concat (map frame ps)] t))) = 0.
Proof.
  intros HI Hl Hpos Hps Hroom.
  rewrite OnReadEvent_connection by exact Hl.
  destruct (OnReadEvent_data_frames (arriving [concat (map frame ps)] t)
              (concat (map frame ps)) [] ps)
    as (He & _ & Hpos' & _).
  - now apply arriving_Inv.
  - reflexivity.
  - now rewrite buffered_empty by exact Hpos.
  - exact Hps.
  - unfold arriving. fields. lia.
  - rewrite He. unfold packets. rewrite length_map.
    repeat split. exact Hpos'.
Qed.

Lemma batched_frames_in_order_witness :
  fst (OnReadEvent
         (arriving [["000"%byte; "001"%byte; "a"%byte; "000"%byte; "000"%byte;
                     "000"%byte; "002"%byte; "b"%byte; "c"%byte]]
                   a_connection))
  = [SignalReadPacket ["a"%byte] 5222; SignalReadPacket [] 5222;
     SignalReadPacket ["b"%byte; "c"%byte] 5222].
Proof.
  apply (batched_frames_in_order a_connection
           [["a"%byte]; []; ["b"%byte; "c"%byte]]).
  - apply AsyncTCPSocket_new_Inv.
  - reflexivity.
  - reflexivity.
  - repeat constructor.
  - vm_compute. discriminate.
Defined.

(** ** Sending a packet *)

Lemma Socket_Send_takes s buf cb n rest :
  send_script s = SendTakes n :: rest ->
  Socket.Send s buf cb
  = (n, with_wire (bytes_at (bytes_at buf 0 cb) 0 n)
          (with_send_script rest (called (CallSend cb) s))).
Proof.
  intros Hs. unfold Socket.Send. cbn [send_script called]. now rewrite Hs.
Qed.

(** A flush of which the socket takes [n] bytes, not more than are
    queued: the bytes taken go to the wire, the others stay queued. *)
Lemma Flush_takes t n rest :
  Inv t ->
  send_script (socket_ t) = SendTakes n :: rest ->
  0 < n <= outpos_ t ->
  returned (Flush t) = n
  /\ raised (Flush t) = []
  /\ outpos_ (after (Flush t)) = outpos_ t - n
  /\ wire (socket_ (after (Flush t))) ++ pending (after (Flush t))
     = wire (socket_ t) ++ pending t
  /\ wire (socket_ (after (Flush t)))
     = wire (socket_ t) ++ firstn (Z.to_nat n) (pending t).
Proof.
  intros HI Hs Hn.
  pose proof (Flush_pending t HI) as Hpend.
  assert (Hw : returned (Flush t) = n /\ raised (Flush t) = []
               /\ outpos_ (after (Flush t)) = outpos_ t - n
               /\ wire (socket_ (after (Flush t)))
                  = wire (socket_ t) ++ firstn (Z.to_nat n) (pending t)).
  { unfold Flush. rewrite (Socket_Send_takes _ _ _ n rest Hs). fields.
    replace (n <=? 0) with false by (symmetry; apply Z.leb_gt; lia).
    replace (n <=? outpos_ t) with true by (symmetry; apply Z.leb_le; lia).
    destruct (0 <? outpos_ t - n);
      unfold returned, raised, after; cbn [fst snd]; fields;
      cbn [wire with_wire with_send_script called]; repeat split. }
  destruct Hw as (H1 & H2 & H3 & H4). repeat split; try assumption.
  rewrite Hpend, H4, H3, <- app_assoc.
  replace (outpos_ t - (outpos_ t - n)) with n by lia.
  now rewrite firstn_skipn.
Qed.

(** [Send] on an idle transport whose socket takes the whole frame. *)
Lemma Send_whole t p rest :
  Inv t -> outpos_ t = 0 -> size p <= MAX_PACKET_SIZE ->
  send_script (socket_ t) = SendTakes (PKT_LEN_SIZE + size p) :: rest ->
  returned (Send t p) = size p
  /\ raised (Send t p) = []
  /\ outpos_ (after (Send t p)) = 0
  /\ wire (socket_ (after (Send t p))) = wire (socket_ t) ++ frame p.
Proof.
  intros HI Hidle Hp Hs. pose proof (size_nonneg p) as Hnn.
  rewrite (Send_idle t p HI Hp Hidle).
  destruct (Flush_takes (framed t p) (PKT_LEN_SIZE + size p) rest)
    as (H1 & H2 & H3 & _ & H5).
  - now apply framed_Inv.
  - exact Hs.
  - unfold framed. fields. unfold PKT_LEN_SIZE. lia.
  - rewrite H1.
    replace (PKT_LEN_SIZE + size p <=? 0) with false
      by (symmetry; apply Z.leb_gt; unfold PKT_LEN_SIZE; lia).
    unfold returned, raised, after in *. cbn [fst snd].
    rewrite H2, H3, H5, pending_framed. unfold framed. fields.
    cbn [wire socket_]. rewrite <- size_frame, firstn_size.
    repeat split. lia.
Qed.

(** C6: on an idle transport, when the flush of [Send] makes no
    progress (the socket takes nothing or fails), [Send] returns the
    non-positive result of the flush and leaves the outbound cursor at 0:
    nothing is queued, and a later write event does not even flush. *)
Theorem Send_without_progress_discards (t : AsyncTCPSocket) (p : list byte) :
  Inv t -> outpos_ t = 0 -> size p <= MAX_PACKET_SIZE ->
  returned (Flush (framed t p)) <= 0 ->
  returned (Send t p) = returned (Flush (framed t p))
  /\ returned (Send t p) <= 0
  /\ outpos_ (after (Send t p)) = 0
  /\ pending (after (Send t p)) = []
  /\ OnWriteEvent (after (Send t p)) = ([], after (Send t p)).
Proof.
  intros HI Hidle Hp Hres.
  rewrite (Send_idle t p HI Hp Hidle).
  apply Z.leb_le in Hres as Hb. rewrite Hb.
  unfold returned, after, pending in *. cbn [fst snd]. fields.
  unfold OnWriteEvent. fields. cbn [Z.ltb Z.compare].
  repeat split. exact Hres.
Qed.

Lemma Send_without_progress_discards_witness :
  returned (Send a_connection ["a"%byte]) <= 0
  /\ outpos_ (after (Send a_connection ["a"%byte])) = 0.
Proof.
  destruct (Send_without_progress_discards a_connection ["a"%byte])
    as (_ & H2 & H3 & _).
  - apply AsyncTCPSocket_new_Inv.
  - reflexivity.
  - vm_compute. discriminate.
  - vm_compute. discriminate.
  - split; [exact H2|exact H3].
Defined.

(** A socket that takes nothing, fails, or has nothing scripted stalls
    the flush and leaves the wire as it is. *)
Lemma Flush_stalls t :
  match send_script (socket_ t) with
  | SendTakes n :: _ => n <= 0
  | _ => True
  end ->
  returned (Flush t) <= 0
  /\ wire (socket_ (after (Flush t))) = wire (socket_ t).
Proof.
  unfold Flush, Socket.Send. cbn [send_script called].
  destruct (send_script (socket_ t)) as [|[n|e] rest]; intros Hn; fields.
  - unfold returned, after. cbn. split; [lia|reflexivity].
  - apply Z.leb_le in Hn as Hb. rewrite Hb.
    unfold returned, after. cbn [fst snd]. fields.
    cbn [wire with_wire with_send_script called].
    unfold bytes_at at 1. replace (Z.to_nat n) with 0%nat by lia.
    cbn [firstn]. split; [lia|apply app_nil_r].
  - unfold returned, after. cbn. split; [lia|reflexivity].
Qed.

(** ** The round trip *)

(** A frame whose prefix is zero is a packet with no payload. *)
Lemma ProcessInput_zero_prefix remote rest len :
  PKT_LEN_SIZE <= len ->
  exists more,
    fst (ProcessInput remote ("000"%byte :: "000"%byte :: rest) len)
    = SignalReadPacket [] remote :: more.
Proof.
  intros Hlen. rewrite ProcessInput_loop. unfold ProcessInput_turn.
  replace (len <? PKT_LEN_SIZE) with false
    by (symmetry; apply Z.ltb_ge; lia).
  change (NetworkToHost16
            (bytes_at ("000"%byte :: "000"%byte :: rest) 0 PKT_LEN_SIZE))
    with 0.
  replace (len <? PKT_LEN_SIZE + 0) with false
    by (symmetry; apply Z.ltb_ge; lia).
  change (bytes_at ("000"%byte :: "000"%byte :: rest) PKT_LEN_SIZE 0)
    with (@nil byte).
  destruct (0 <? len - (PKT_LEN_SIZE + 0)); cbn [fst]; eexists; reflexivity.
Qed.

(** The round trip of a payload that fits the prefix: [Send] on an idle
    transport whose socket takes the whole frame puts the length, most
    significant byte first, and the payload on the wire, and a peer with
    an empty inbound buffer that reads these bytes signals the payload,
    once. *)
Lemma Send_round_trip (t peer : AsyncTCPSocket) (p : list byte) rest :
  Inv t -> outpos_ t = 0 ->
  fits_prefix p ->
  send_script (socket_ t) = SendTakes (PKT_LEN_SIZE + size p) :: rest ->
  Inv peer -> listen_ peer = false -> inpos_ peer = 0 ->
  returned (Send t p) = size p
  /\ wire (socket_ (after (Send t p)))
     = wire (socket_ t)
         ++ [byte_of_Z (size p / 256); byte_of_Z (size p)] ++ p
  /\ fst (OnReadEvent (arriving [frame p] peer))
     = [SignalReadPacket p (remote_address (socket_ peer))].
Proof.
  intros HI Hidle Hp Hs HIp Hl Hpos.
  pose proof (size_nonneg p). unfold fits_prefix in Hp.
  destruct (Send_whole t p rest HI Hidle) as (H1 & _ & _ & H4);
    [unfold MAX_PACKET_SIZE; lia|exact Hs|].
  rewrite (OnReadEvent_connection (arriving [frame p] peer) Hl).
  destruct (OnReadEvent_data_frames (arriving [frame p] peer) (frame p) [] [p])
    as (H5 & _).
  { now apply arriving_Inv. }
  { reflexivity. }
  { rewrite buffered_empty by exact Hpos. cbn [map concat app].
    now rewrite app_nil_r. }
  { constructor; [exact Hp|constructor]. }
  { unfold arriving. fields. rewrite Hpos, size_frame.
    destruct HIp as [Hsz _ _ _ _ _]. rewrite Hsz.
    unfold BUF_SIZE, MAX_PACKET_SIZE, PKT_LEN_SIZE. lia. }
  rewrite H5, H4. unfold frame, HostToNetwork16.
  rewrite static_cast_PacketLength_small by lia.
  repeat split; assumption.
Qed.

(** A one-byte payload on the wire, sent in one go, and sent in two
    steps, the second on a write event. *)
Example Send_on_the_wire :
  wire (socket_ (after (Send (sending [SendTakes 3] a_connection)
                             ["a"%byte])))
  = ["000"%byte; "001"%byte; "a"%byte].
Proof. vm_compute. reflexivity. Qed.

Example Send_then_write_event :
  let t := after (Send (sending [SendTakes 1; SendTakes 2] a_connection)
                       ["a"%byte]) in
  wire (socket_ t) = ["000"%byte]
  /\ pending t = ["001"%byte; "a"%byte]
  /\ wire (socket_ (snd (OnWriteEvent t)))
     = ["000"%byte; "001"%byte; "a"%byte]
  /\ outpos_ (snd (OnWriteEvent t)) = 0.
Proof. vm_compute. repeat split. Qed.

(** C1, at the largest admissible payload: [Send] accepts a payload of
    exactly [MAX_PACKET_SIZE] = 65536 bytes and reports it as sent, but
    the conversion of the length to 16 bits wraps to zero: the wire
    shows the prefix 00 00 before the payload, and a peer that reads
    these bytes signals an empty packet first.  The payload is not what
    the peer receives. *)
Theorem Send_max_payload_breaks_framing
  (t peer : AsyncTCPSocket) (p : list byte) (rest : list SendOutcome) :
  Inv t -> outpos_ t = 0 ->
  size p = MAX_PACKET_SIZE ->
  send_script (socket_ t) = SendTakes (PKT_LEN_SIZE + size p) :: rest ->
  Inv peer -> listen_ peer = false -> inpos_ peer = 0 ->
  returned (Send t p) = size p
  /\ wire (socket_ (after (Send t p)))
     = wire (socket_ t) ++ "000"%byte :: "000"%byte :: p
  /\ (exists more,
        fst (OnReadEvent (arriving ["000"%byte :: "000"%byte :: p] peer))
        = SignalReadPacket [] (remote_address (socket_ peer)) :: more)
  /\ fst (OnReadEvent (arriving ["000"%byte :: "000"%byte :: p] peer))
     <> [SignalReadPacket p (remote_address (socket_ peer))].
Proof.
  intros HI Hidle Hp Hs HIp Hl Hpos.
  destruct (Send_whole t p rest HI Hidle) as (H1 & _ & _ & H4);
    [lia|exact Hs|].
  assert (Hframe : frame p = "000"%byte :: "000"%byte :: p)
    by (unfold frame; rewrite Hp; reflexivity).
  rewrite Hframe in H4.
  assert (Hfirst : exists more,
            fst (OnReadEvent (arriving ["000"%byte :: "000"%byte :: p] peer))
            = SignalReadPacket [] (remote_address (socket_ peer)) :: more).
  { set (q := arriving ["000"%byte :: "000"%byte :: p] peer).
    assert (Hq : inpos_ q = 0) by exact Hpos.
    assert (Hsize : size ("000"%byte :: "000"%byte :: p) = BUF_SIZE)
      by (rewrite <- Hframe, size_frame, Hp; reflexivity).
    change (remote_address (socket_ peer)) with (remote_address (socket_ q)).
    rewrite (OnReadEvent_connection q Hl).
    rewrite (OnReadEvent_data_chunk q ("000"%byte :: "000"%byte :: p) []
               (arriving_Inv _ _ HIp) eq_refl).
    - cbn zeta. rewrite (buffered_empty q Hq), Hq, Hsize. cbn [app].
      match goal with
      | |- context [ProcessInput ?r (_ :: _ :: ?tl) ?len] =>
          destruct (ProcessInput_zero_prefix r tl len) as [more Hmore];
          [discriminate|rewrite Hmore]
      end.
      destruct (insize_ q <=? _); cbn [fst app]; eexists; reflexivity.
    - rewrite Hq, Hsize. destruct HIp as [Hsz _ _ _ _ _].
      change (insize_ q) with (insize_ peer). rewrite Hsz. reflexivity. }
  repeat split; try assumption.
  destruct Hfirst as [more Hmore]. rewrite Hmore.
  intros Heq. injection Heq as Hnil _. rewrite <- Hnil in Hp. discriminate Hp.
Qed.

Lemma Send_max_payload_breaks_framing_witness :
  let p := repeat "a"%byte (Z.to_nat MAX_PACKET_SIZE) in
  let sender := sending [SendTakes (PKT_LEN_SIZE + size p)] a_connection in
  returned (Send sender p) = size p
  /\ exists more,
       fst (OnReadEvent (arriving ["000"%byte :: "000"%byte :: p] a_connection))
       = SignalReadPacket [] 5222 :: more.
Proof.
  intros p sender.
  destruct (Send_max_payload_breaks_framing sender a_connection p [])
    as (H1 & _ & H3 & _).
  - apply sending_Inv, AsyncTCPSocket_new_Inv.
  - reflexivity.
  - apply size_repeat. discriminate.
  - reflexivity.
  - apply AsyncTCPSocket_new_Inv.
  - reflexivity.
  - reflexivity.
  - split; [exact H1|exact H3].
Defined.

(** ** The buffer invariants *)

Lemma set_socket_Inv s t : Inv t -> Inv (set_socket s t).
Proof. intros [H1 H2 H3 H4 H5 H6]. constructor; assumption. Qed.

Lemma Send_Inv t pv : Inv t -> Inv (after (Send t pv)).
Proof.
  intros HI.
  destruct (Z_lt_dec MAX_PACKET_SIZE (size pv)) as [Hbig|Hok].
  - rewrite Send_oversize by assumption. now apply set_socket_Inv.
  - destruct (Z.eq_dec (outpos_ t) 0) as [Hidle|Hblocked].
    + rewrite (Send_idle t pv HI) by lia.
      pose proof (Flush_Inv _ (framed_Inv t pv HI ltac:(lia)))
        as [H1 H2 H3 H4 H5 H6].
      destruct (returned (Flush (framed t pv)) <=? 0); unfold after at 1;
        cbn [snd]; constructor; fields; try assumption. lia.
    + rewrite Send_blocked by lia. exact HI.
Qed.

Lemma SendRaw_Inv t pv : Inv t -> Inv (after (SendRaw t pv)).
Proof.
  intros HI. unfold SendRaw. fold (size pv).
  destruct (outsize_ t <? outpos_ t + size pv) eqn:E.
  - now apply set_socket_Inv.
  - apply Z.ltb_ge in E. apply Flush_Inv.
    destruct HI as [H1 H2 H3 H4 H5 H6]. pose proof (size_nonneg pv).
    constructor; fields; try assumption; try lia.
    rewrite size_memcpy; lia.
Qed.

Lemma OnWriteEvent_Inv t : Inv t -> Inv (snd (OnWriteEvent t)).
Proof.
  intros HI. unfold OnWriteEvent. destruct (0 <? outpos_ t).
  - pose proof (Flush_Inv t HI) as HF.
    destruct (Flush t) as [[res ev] t']. exact HF.
  - exact HI.
Qed.

Lemma OnReadEvent_data_Inv t : Inv t -> Inv (snd (OnReadEvent_data t)).
Proof.
  intros HI. unfold OnReadEvent_data, Socket.Recv.
  cbn [recv_script called].
  destruct (recv_script (socket_ t)) as [|[chunk|e] rest].
  - cbn [Z.ltb Z.compare]. fields.
    destruct (Socket.IsBlocking _); now apply set_socket_Inv.
  - fields.
    set (got := firstn (Z.to_nat (insize_ t - inpos_ t)) chunk).
    fold (size got).
    assert (Hgot : 0 <= size got <= insize_ t - inpos_ t).
    { unfold got. rewrite size_firstn. destruct HI. unfold size. lia. }
    replace (size got <? 0) with false by (symmetry; apply Z.ltb_ge; lia).
    destruct HI as [H1 H2 H3 H4 H5 H6].
    match goal with
    | |- context [ProcessInput ?r ?d ?l] =>
        destruct (ProcessInput_returns r d l) as (Hs & Hp0 & Hp1);
        [rewrite size_memcpy; lia|];
        rewrite size_memcpy in Hs by lia;
        destruct (ProcessInput r d l) as [evs [buf pos]]
    end.
    cbn [fst snd] in *.
    destruct (insize_ t <=? pos) eqn:E; cbn [snd]; constructor; fields;
      try assumption; try lia.
  - cbn [Z.ltb Z.compare]. fields.
    destruct (Socket.IsBlocking _); now apply set_socket_Inv.
Qed.

Lemma OnReadEvent_Inv t : Inv t -> Inv (snd (OnReadEvent t)).
Proof.
  intros HI. unfold OnReadEvent. destruct (listen_ t).
  - destruct (Socket.Accept (socket_ t)) as [[ns|] s].
    + destruct (OnReadEvent_data _) as [primed conn]. cbn [snd].
      now apply set_socket_Inv.
    + cbn [snd]. now apply set_socket_Inv.
  - now apply OnReadEvent_data_Inv.
Qed.

(** What stays buffered after a turn of [ProcessInput] is what was
    buffered behind the packet, in the same order. *)
Lemma ProcessInput_turn_compacts {remote data len ev data' len'} :
  0 <= len <= size data ->
  ProcessInput_turn remote data len = Some (ev, (data', len')) ->
  bytes_at data' 0 len' = skipn (Z.to_nat (len - len')) (bytes_at data 0 len).
Proof.
  intros Hlen Hturn.
  pose proof (ProcessInput_turn_consumes Hturn) as Hc.
  rewrite bytes_at_skipn by (unfold PKT_LEN_SIZE in Hc; lia).
  replace (len - (len - len')) with len' by lia.
  revert Hturn. unfold ProcessInput_turn.
  destruct (len <? PKT_LEN_SIZE); [discriminate|].
  destruct (len <? PKT_LEN_SIZE + _); [discriminate|].
  pose proof (NetworkToHost16_range (bytes_at data 0 PKT_LEN_SIZE)).
  destruct (0 <? _) eqn:E; intros Hsome.
  - assert (Hd : data' = memmove data (PKT_LEN_SIZE
                   + NetworkToHost16 (bytes_at data 0 PKT_LEN_SIZE))
                   (len - (PKT_LEN_SIZE
                   + NetworkToHost16 (bytes_at data 0 PKT_LEN_SIZE))))
      by (inversion Hsome; reflexivity).
    assert (Hl : len' = len - (PKT_LEN_SIZE
                   + NetworkToHost16 (bytes_at data 0 PKT_LEN_SIZE)))
      by (inversion Hsome; reflexivity).
    rewrite Hd, <- Hl. rewrite memmove_spec by (unfold PKT_LEN_SIZE in *; lia).
    f_equal. lia.
  - assert (Hl : len' = len - (PKT_LEN_SIZE
                   + NetworkToHost16 (bytes_at data 0 PKT_LEN_SIZE)))
      by (inversion Hsome; reflexivity).
    apply Z.ltb_ge in E. assert (len' = 0) as -> by lia. reflexivity.
Qed.

(** C9: every operation of the transport keeps both cursors inside
    their buffers (with the buffers at their capacity, [Inv]); a partial
    flush leaves queued the bytes that were queued behind the ones sent,
    in their order, and a turn of the frame extraction leaves buffered
    the bytes that were buffered behind the frame, in their order. *)
Theorem operations_preserve_buffer_invariants (t : AsyncTCPSocket) :
  Inv t ->
  ((forall p, Inv (after (Send t p)))
   /\ (forall p, Inv (after (SendRaw t p)))
   /\ Inv (after (Flush t))
   /\ Inv (snd (OnReadEvent t))
   /\ Inv (snd (OnWriteEvent t)))
  /\ (forall t', Inv t' ->
        0 <= outpos_ t' <= outsize_ t' /\ 0 <= inpos_ t' <= insize_ t')
  /\ pending (after (Flush t))
     = skipn (Z.to_nat (outpos_ t - outpos_ (after (Flush t)))) (pending t)
  /\ (forall remote ev data' len',
        ProcessInput_turn remote (inbuf_ t) (inpos_ t)
        = Some (ev, (data', len')) ->
        bytes_at data' 0 len'
        = skipn (Z.to_nat (inpos_ t - len')) (buffered t)).
Proof.
  intros HI.
  refine (conj (conj _ (conj _ (conj _ (conj _ _)))) (conj _ (conj _ _))).
  - intros p. now apply Send_Inv.
  - intros p. now apply SendRaw_Inv.
  - now apply Flush_Inv.
  - now apply OnReadEvent_Inv.
  - now apply OnWriteEvent_Inv.
  - intros t' [_ _ H3 _ _ H6]. split; assumption.
  - now apply Flush_pending.
  - intros remote ev data' len' Hturn.
    apply (ProcessInput_turn_compacts (remote := remote) (ev := ev)).
    + destruct HI as [H1 H2 H3 H4 H5 H6]. lia.
    + exact Hturn.
Qed.

Lemma operations_preserve_buffer_invariants_witness :
  Inv (after (Send a_connection ["a"%byte]))
  /\ Inv (snd (OnReadEvent a_blocked))
  /\ 0 <= outpos_ a_blocked <= outsize_ a_blocked.
Proof.
  assert (HI : Inv a_blocked)
    by (apply Send_Inv, sending_Inv, AsyncTCPSocket_new_Inv).
  destruct (operations_preserve_buffer_invariants a_connection
              (AsyncTCPSocket_new_Inv a_socket false))
    as ((H1 & _) & H2 & _).
  destruct (operations_preserve_buffer_invariants a_blocked HI)
    as ((_ & _ & _ & H3 & _) & _).
  split; [apply H1|]. split; [exact H3|]. apply (H2 a_blocked HI).
Defined.

(** ** Termination of the frame extraction *)

Lemma ProcessInput_count remote data len :
  snd (snd (ProcessInput remote data len))
    + PKT_LEN_SIZE * Z.of_nat (length (fst (ProcessInput remote data len)))
  <= len.
Proof.
  funelim (ProcessInput remote data len).
  - pose proof (ProcessInput_turn_consumes Hturn) as Hc.
    cbn zeta. cbn [fst snd length]. unfold PKT_LEN_SIZE in *. lia.
  - cbn [fst snd length]. unfold PKT_LEN_SIZE. lia.
Qed.

Lemma ProcessInput_turn_None remote data len :
  ProcessInput_turn remote data len = None
  <-> len < PKT_LEN_SIZE
      \/ len < PKT_LEN_SIZE + NetworkToHost16 (bytes_at data 0 PKT_LEN_SIZE).
Proof.
  unfold ProcessInput_turn.
  destruct (len <? PKT_LEN_SIZE) eqn:E1.
  - apply Z.ltb_lt in E1. split; [now left|reflexivity].
  - apply Z.ltb_ge in E1.
    destruct (len <? PKT_LEN_SIZE + _) eqn:E2.
    + apply Z.ltb_lt in E2. split; [now right|reflexivity].
    + apply Z.ltb_ge in E2.
      destruct (0 <? _); (split; [discriminate|intros [H|H]; lia]).
Qed.

(** C10: [ProcessInput] is a total function: its loop is a recursion on
    [len], well founded because a turn that does not return leaves a
    [len] that is at least 0 and at least the two prefix bytes smaller.
    A turn returns exactly when fewer than two bytes, or less than the
    announced frame, are buffered; the function returns in such a state,
    after at most [len / 2] packets; and a frame with prefix 0 is signalled
    as a packet with an empty payload. *)
Theorem ProcessInput_terminates
  (remote : SocketAddress) (data : list byte) (len : Z) :
  (forall ev data' len',
     ProcessInput_turn remote data len = Some (ev, (data', len')) ->
     0 <= len' <= len - PKT_LEN_SIZE)
  /\ (ProcessInput_turn remote data len = None
      <-> len < PKT_LEN_SIZE
          \/ len < PKT_LEN_SIZE
                   + NetworkToHost16 (bytes_at data 0 PKT_LEN_SIZE))
  /\ ProcessInput_turn remote (fst (snd (ProcessInput remote data len)))
                       (snd (snd (ProcessInput remote data len))) = None
  /\ snd (snd (ProcessInput remote data len))
       + PKT_LEN_SIZE * Z.of_nat (length (fst (ProcessInput remote data len)))
     <= len
  /\ (forall rest,
        data = "000"%byte :: "000"%byte :: rest -> PKT_LEN_SIZE <= len ->
        exists more,
          fst (ProcessInput remote data len)
          = SignalReadPacket [] remote :: more).
Proof.
  refine (conj _ (conj _ (conj _ (conj _ _)))).
  - intros ev data' len' Hturn. exact (ProcessInput_turn_consumes Hturn).
  - apply ProcessInput_turn_None.
  - apply ProcessInput_exits.
  - apply ProcessInput_count.
  - intros rest -> Hlen. now apply ProcessInput_zero_prefix.
Qed.

(** Two frames, the first with no payload, and a byte too few for a
    third. *)
Example ProcessInput_empty_payload :
  ProcessInput 5222
    ["000"%byte; "000"%byte; "000"%byte; "001"%byte; "a"%byte; "000"%byte] 6
  = ([SignalReadPacket [] 5222; SignalReadPacket ["a"%byte] 5222],
     (["000"%byte; "001"%byte; "a"%byte; "000"%byte; "a"%byte; "000"%byte],
      1)).
Proof. vm_compute. reflexivity. Qed.

(** ** Overflow of the inbound buffer *)

Lemma Socket_Recv_len s cb len got s' :
  Socket.Recv s cb = (len, got, s') -> 0 <= cb ->
  0 <= len -> len = size got /\ size got <= cb.
Proof.
  unfold Socket.Recv. cbn [recv_script called].
  destruct (recv_script s) as [|[chunk|e] rest]; intros [= <- <- <-] Hcb Hlen;
    try (exfalso; lia).
  fold (size (firstn (Z.to_nat cb) chunk)).
  rewrite size_firstn. split; [|lia].
  now rewrite <- size_firstn.
Qed.

(** C7: when, in a read event of a connection, the inbound cursor
    stands at (or beyond) the capacity after [ProcessInput], no frame
    was extracted; the event logs the overflow, sets the cursor back to
    0, so that nothing stays buffered, and does nothing else: no packet,
    close or error is signalled, and the socket is as [Recv] left it. *)
Theorem inbound_overflow_resets
  (t : AsyncTCPSocket) (len : Z) (got : list byte) (s : AsyncSocket) :
  listen_ t = false ->
  0 <= inpos_ t <= insize_ t ->
  Socket.Recv (socket_ t) (insize_ t - inpos_ t) = (len, got, s) ->
  0 <= len ->
  insize_ t
  <= snd (snd (ProcessInput (remote_address s)
                  (memcpy (inbuf_ t) (inpos_ t) got len) (inpos_ t + len))) ->
  fst (ProcessInput (remote_address s)
         (memcpy (inbuf_ t) (inpos_ t) got len) (inpos_ t + len)) = []
  /\ fst (OnReadEvent t)
     = [LogError "input buffer overflow" None; AssertFailed]
  /\ inpos_ (snd (OnReadEvent t)) = 0
  /\ buffered (snd (OnReadEvent t)) = []
  /\ socket_ (snd (OnReadEvent t)) = s
  /\ (forall e, ~ In (SignalClose e) (fst (OnReadEvent t))).
Proof.
  intros Hl Hpos Hrecv Hlen Hfull.
  destruct (Socket_Recv_len _ _ _ _ _ Hrecv) as [Hgot Hcap]; [lia|lia|].
  pose proof (ProcessInput_count (remote_address s)
                (memcpy (inbuf_ t) (inpos_ t) got len) (inpos_ t + len)) as Hn.
  assert (Hnone : fst (ProcessInput (remote_address s)
                         (memcpy (inbuf_ t) (inpos_ t) got len)
                         (inpos_ t + len)) = []).
  { destruct (fst (ProcessInput _ _ _)); [reflexivity|].
    cbn [length] in Hn. unfold PKT_LEN_SIZE in Hn. lia. }
  split; [exact Hnone|].
  rewrite (OnReadEvent_connection t Hl). unfold OnReadEvent_data.
  rewrite Hrecv. fields.
  replace (len <? 0) with false by (symmetry; apply Z.ltb_ge; lia).
  unfold Socket.GetRemoteAddress.
  destruct (ProcessInput _ _ _) as [evs [buf pos]]. cbn [fst snd] in *.
  apply Z.leb_le in Hfull. rewrite Hfull. subst evs.
  cbn [fst snd app]. fields. unfold buffered. fields.
  repeat split; try reflexivity.
  intros e [H|[H|[]]]; discriminate H.
Qed.

Lemma inbound_overflow_resets_witness :
  fst (OnReadEvent a_small_buffer)
  = [LogError "input buffer overflow" None; AssertFailed]
  /\ inpos_ (snd (OnReadEvent a_small_buffer)) = 0.
Proof.
  destruct (inbound_overflow_resets a_small_buffer
              4 ["000"%byte; "009"%byte; "a"%byte; "b"%byte]
              (with_recv_script []
                 (called (CallRecv 4) (socket_ a_small_buffer))))
    as (_ & H2 & H3 & _).
  - reflexivity.
  - vm_compute. split; discriminate.
  - reflexivity.
  - discriminate.
  - vm_compute. discriminate.
  - split; [exact H2|exact H3].
Defined.

(** With the capacity [BUF_SIZE] that the constructor gives every
    object the overflow does not arise: a full buffer holds at least
    one whole frame, whatever its prefix, and [ProcessInput] takes it
    out. *)
Lemma inbound_overflow_unreachable
  (t : AsyncTCPSocket) (len : Z) (got : list byte) (s : AsyncSocket) :
  Inv t ->
  Socket.Recv (socket_ t) (insize_ t - inpos_ t) = (len, got, s) ->
  0 <= len ->
  snd (snd (ProcessInput (remote_address s)
              (memcpy (inbuf_ t) (inpos_ t) got len) (inpos_ t + len)))
  < insize_ t.
Proof.
  intros [H1 H2 H3 H4 H5 H6] Hrecv Hlen.
  destruct (Socket_Recv_len _ _ _ _ _ Hrecv) as [Hgot Hcap]; [lia|lia|].
  set (data := memcpy (inbuf_ t) (inpos_ t) got len).
  pose proof (ProcessInput_count (remote_address s) data (inpos_ t + len))
    as Hn.
  destruct (Z_lt_dec (inpos_ t + len) (insize_ t)) as [Hroom|Hfull];
    [unfold PKT_LEN_SIZE in Hn; lia|].
  clear Hn. rewrite ProcessInput_loop.
  destruct (ProcessInput_turn (remote_address s) data (inpos_ t + len))
    as [[ev [data' len']]|] eqn:Hturn.
  - pose proof (ProcessInput_turn_consumes Hturn) as Hc.
    pose proof (ProcessInput_count (remote_address s) data' len') as Hn'.
    cbn [fst snd]. unfold PKT_LEN_SIZE in *. lia.
  - apply ProcessInput_turn_None in Hturn.
    pose proof (NetworkToHost16_range (bytes_at data 0 PKT_LEN_SIZE)).
    rewrite H1 in *. unfold BUF_SIZE, MAX_PACKET_SIZE, PKT_LEN_SIZE in *. lia.
Qed.

(** ** Dispatch of the pump's messages *)

(** C8, as the code has it: a login message that carries its payload
    makes the socket and the auth strategy, in this dispatch, hands them
    with the settings to exactly one [DoLogin] and deletes the payload; a
    login message with a null payload fails the assertion before anything
    is made or called; a disconnect message causes exactly one
    [DoDisconnect]; a message of any other kind fails the assertion and
    nothing is called. *)
Theorem OnMessage_dispatch (next : hello.object) (pmsg : hello.Message) :
  (forall data,
     hello.message_id pmsg = hello.MSG_LOGIN ->
     hello.pdata pmsg = Some data ->
     hello.OnMessage next pmsg
     = (hello.Returned,
        [hello.NewXmppAsyncSocketImpl true next;
         hello.NewPreXmppAuthImpl (S next);
         hello.DoLogin (hello.xcs data) next (S next);
         hello.DeleteLoginData data],
        S (S next))
     /\ hello.count hello.is_DoLogin
          (hello.actions (hello.OnMessage next pmsg)) = 1%nat
     /\ hello.count hello.is_DoDisconnect
          (hello.actions (hello.OnMessage next pmsg)) = 0%nat)
  /\ (hello.message_id pmsg = hello.MSG_LOGIN ->
      hello.pdata pmsg = None ->
      hello.OnMessage next pmsg = (hello.AssertionFailed, [], next))
  /\ (hello.message_id pmsg = hello.MSG_DISCONNECT ->
      hello.OnMessage next pmsg = (hello.Returned, [hello.DoDisconnect], next)
      /\ hello.count hello.is_DoDisconnect
           (hello.actions (hello.OnMessage next pmsg)) = 1%nat
      /\ hello.count hello.is_DoLogin
           (hello.actions (hello.OnMessage next pmsg)) = 0%nat)
  /\ (hello.message_id pmsg <> hello.MSG_LOGIN ->
      hello.message_id pmsg <> hello.MSG_DISCONNECT ->
      hello.OnMessage next pmsg = (hello.AssertionFailed, [], next)).
Proof.
  unfold hello.OnMessage.
  refine (conj _ (conj _ (conj _ _))).
  - intros data Hid Hdata. rewrite Hid, Hdata. cbn. repeat split.
  - intros Hid Hdata. rewrite Hid, Hdata. reflexivity.
  - intros Hid. rewrite Hid. cbn. repeat split.
  - intros Hl Hd. apply Z.eqb_neq in Hl, Hd. now rewrite Hl, Hd.
Qed.

(** C8 as stated fails for a login message whose payload pointer is
    null: [assert(pmsg->pdata)] stops the dispatch and [DoLogin] is not
    called. *)
Lemma login_without_payload_is_not_dispatched :
  let pmsg := {| hello.message_id := hello.MSG_LOGIN;
                 hello.pdata := None |} in
  hello.message_id pmsg = hello.MSG_LOGIN
  /\ hello.outcome (hello.OnMessage 0%nat pmsg) = hello.AssertionFailed
  /\ hello.count hello.is_DoLogin
       (hello.actions (hello.OnMessage 0%nat pmsg)) = 0%nat.
Proof. cbn. repeat split. Qed.

(** The messages that [Login] and [Disconnect] post carry what the
    dispatch needs. *)
Remark posted_messages_dispatch (next : hello.object)
  (settings : hello.XmppClientSettings) :
  hello.count hello.is_DoLogin
    (hello.actions (hello.OnMessage next (hello.Login settings))) = 1%nat
  /\ hello.count hello.is_DoDisconnect
       (hello.actions (hello.OnMessage next hello.Disconnect)) = 1%nat.
Proof. split; reflexivity. Qed.

(** * Further properties of the transport *)

(** ** Flushing keeps the byte stream *)

Lemma Socket_Send_wire s buf cb res s' :
  Socket.Send s buf cb = (res, s') ->
  wire s' = wire s ++ firstn (Z.to_nat res) (bytes_at buf 0 cb).
Proof.
  unfold Socket.Send. cbn [send_script called].
  destruct (send_script s) as [|[n|e] rest]; intros [= <- <-];
    cbn [wire with_error with_wire with_send_script called Z.to_nat firstn];
    try (symmetry; apply app_nil_r).
  reflexivity.
Qed.

Lemma Socket_Send_script s buf cb :
  send_script (snd (Socket.Send s buf cb)) = tl (send_script s).
Proof.
  unfold Socket.Send. cbn [send_script called].
  destruct (send_script s) as [|[n|e] rest] eqn:E;
    cbn [snd send_script with_error with_wire with_send_script called tl];
    rewrite ?E; reflexivity.
Qed.

(** Unless the socket claims to have sent more than it was given, the
    bytes on the wire followed by the bytes queued are the same before
    and after a flush. *)
Lemma Flush_conserves t :
  Inv t -> raised (Flush t) = [] ->
  wire (socket_ (after (Flush t))) ++ pending (after (Flush t))
  = wire (socket_ t) ++ pending t.
Proof.
  intros HI Hhonest. pose proof (Flush_pending t HI) as Hpend.
  rewrite Hpend. clear Hpend. revert Hhonest.
  destruct (Flush_cases t) as [res s Hs Hr|res s Hs Hr|res s Hs Hr Hp];
    unfold raised, after; cbn [fst snd]; fields; intros Hhonest;
    try discriminate Hhonest;
    rewrite (Socket_Send_wire _ _ _ _ _ Hs); fold (pending t).
  - rewrite Z.sub_diag. replace (Z.to_nat res) with 0%nat by lia.
    cbn [firstn Z.to_nat skipn]. now rewrite app_nil_r.
  - replace (outpos_ t - (outpos_ t - res)) with res by lia.
    now rewrite <- app_assoc, firstn_skipn.
Qed.

Lemma Flush_script t :
  send_script (socket_ (after (Flush t))) = tl (send_script (socket_ t)).
Proof.
  destruct (Flush_cases t) as [res s Hs Hr|res s Hs Hr|res s Hs Hr Hp];
    unfold after; cbn [snd]; fields;
    change s with (snd (res, s)); rewrite <- Hs; apply Socket_Send_script.
Qed.

Lemma sum_positive ns :
  Forall (fun k => 0 < k) ns -> 0 <= fold_right Z.add 0 ns.
Proof.
  induction 1 as [|k ns Hk _ IH]; cbn [fold_right]; lia.
Qed.

(** Write events on a transport whose socket takes the queued bytes in
    the portions [ns]: all of them reach the wire, in order. *)
Lemma write_events_drain ns : forall t rest,
  Inv t ->
  Forall (fun k => 0 < k) ns ->
  fold_right Z.add 0 ns = outpos_ t ->
  send_script (socket_ t) = map SendTakes ns ++ rest ->
  fst (write_events (length ns) t) = []
  /\ wire (socket_ (snd (write_events (length ns) t)))
     = wire (socket_ t) ++ pending t
  /\ outpos_ (snd (write_events (length ns) t)) = 0
  /\ send_script (socket_ (snd (write_events (length ns) t))) = rest.
Proof.
  induction ns as [|n ns IH]; intros t rest HI Hpos Hsum Hs.
  - cbn [length write_events fst snd fold_right map app] in *.
    unfold pending. rewrite <- Hsum. cbn [bytes_at Z.to_nat firstn].
    unfold bytes_at. cbn [Z.to_nat firstn].
    rewrite app_nil_r. repeat split. exact Hs.
  - inversion Hpos as [|? ? Hn Hns]; subst.
    pose proof (sum_positive ns Hns) as Hnn.
    cbn [fold_right] in Hsum. cbn [map app] in Hs.
    cbn [length write_events]. unfold OnWriteEvent.
    replace (0 <? outpos_ t) with true by (symmetry; apply Z.ltb_lt; lia).
    destruct (Flush_takes t n (map SendTakes ns ++ rest) HI Hs)
      as (_ & Hr & Hout & Hcons & _); [lia|].
    pose proof (Flush_Inv t HI) as HI'.
    pose proof (Flush_script t) as Hs'. rewrite Hs in Hs'. cbn [tl] in Hs'.
    destruct (Flush t) as [[res ev] t'].
    unfold raised, after in *. cbn [fst snd] in *.
    destruct (IH t' rest HI' Hns) as (He & Hw & Ho & Hscr);
      [lia|exact Hs'|].
    destruct (write_events (length ns) t') as [evs t''].
    cbn [fst snd] in *. subst ev evs.
    rewrite Hw, Hcons. repeat split; assumption.
Qed.

(** A packet of which the socket takes only a part at first: [Send]
    reports the whole payload as sent, the rest of the frame stays
    queued, and the write events that follow put it on the wire, so that
    the wire shows the frame, whole and in order, however the socket
    portions it. *)
Theorem Send_completes_on_write_events
  (t : AsyncTCPSocket) (p : list byte) (n : Z) (ns : list Z)
  (rest : list SendOutcome) :
  Inv t -> outpos_ t = 0 -> size p <= MAX_PACKET_SIZE ->
  Forall (fun k => 0 < k) (n :: ns) ->
  n + fold_right Z.add 0 ns = PKT_LEN_SIZE + size p ->
  send_script (socket_ t) = map SendTakes (n :: ns) ++ rest ->
  returned (Send t p) = size p
  /\ wire (socket_ (after (Send t p))) ++ pending (after (Send t p))
     = wire (socket_ t) ++ frame p
  /\ outpos_ (after (Send t p)) = PKT_LEN_SIZE + size p - n
  /\ fst (write_events (length ns) (after (Send t p))) = []
  /\ wire (socket_ (snd (write_events (length ns) (after (Send t p)))))
     = wire (socket_ t) ++ frame p
  /\ outpos_ (snd (write_events (length ns) (after (Send t p)))) = 0.
Proof.
  intros HI Hidle Hp Hpos Hsum Hs.
  inversion Hpos as [|? ? Hn Hns]; subst.
  pose proof (sum_positive ns Hns) as Hnn.
  pose proof (framed_Inv t p HI Hp) as HIf.
  rewrite (Send_idle t p HI Hp Hidle).
  destruct (Flush_takes (framed t p) n (map SendTakes ns ++ rest) HIf Hs)
    as (Hr & _ & Hout & Hcons & _).
  { unfold framed. fields. lia. }
  rewrite Hr.
  replace (n <=? 0) with false by (symmetry; apply Z.leb_gt; lia).
  pose proof (Flush_Inv _ HIf) as HI'.
  pose proof (Flush_script (framed t p)) as Hs'.
  change (send_script (socket_ (framed t p)))
    with (send_script (socket_ t)) in Hs'.
  rewrite Hs in Hs'. cbn [map app tl] in Hs'.
  rewrite pending_framed in Hcons.
  change (wire (socket_ (framed t p))) with (wire (socket_ t)) in Hcons.
  change (outpos_ (framed t p)) with (PKT_LEN_SIZE + size p) in Hout.
  unfold returned, after in *. cbn [fst snd] in *.
  destruct (write_events_drain ns (snd (Flush (framed t p))) rest HI' Hns)
    as (He & Hw & Ho & _); [lia|exact Hs'|].
  rewrite Hw, Hcons. repeat split; assumption.
Qed.

Lemma Send_completes_on_write_events_witness :
  let t := sending [SendTakes 1; SendTakes 2] a_connection in
  returned (Send t ["a"%byte]) = 1
  /\ wire (socket_ (snd (write_events 1 (after (Send t ["a"%byte])))))
     = ["000"%byte; "001"%byte; "a"%byte].
Proof.
  intros t.
  destruct (Send_completes_on_write_events t ["a"%byte] 1 [2] [])
    as (H1 & _ & _ & _ & H5 & _).
  - apply sending_Inv, AsyncTCPSocket_new_Inv.
  - reflexivity.
  - discriminate.
  - repeat constructor.
  - reflexivity.
  - reflexivity.
  - split; [exact H1|exact H5].
Defined.

(** ** SendRaw *)

Lemma pending_appended t pv :
  Inv t -> outpos_ t + size pv <= outsize_ t ->
  pending (set_out (memcpy (outbuf_ t) (outpos_ t) pv (size pv))
                   (outpos_ t + size pv) t)
  = pending t ++ pv.
Proof.
  intros [H1 H2 H3 H4 H5 H6] Hroom. unfold pending. fields.
  rewrite memcpy_spec by lia. rewrite app_assoc.
  assert (Hsz : size (bytes_at (outbuf_ t) 0 (outpos_ t) ++ pv)
                = outpos_ t + size pv)
    by (rewrite size_app, size_bytes_at; lia).
  rewrite <- Hsz at 2. apply bytes_at_app_exact.
Qed.

(** [SendRaw] refuses bytes that do not fit behind the queued ones:
    it returns -1, shows [EMSGSIZE] and touches neither the buffers nor
    the wire.  Bytes that fit are queued behind the bytes already
    queued, as they are, without a length prefix, and flushed: the wire
    followed by the queue is what it was, followed by the new bytes. *)
Theorem SendRaw_appends (t : AsyncTCPSocket) (pv : list byte) :
  Inv t ->
  (outsize_ t < outpos_ t + size pv ->
   returned (SendRaw t pv) = -1
   /\ Socket.GetError (socket_ (after (SendRaw t pv))) = EMSGSIZE
   /\ wire (socket_ (after (SendRaw t pv))) = wire (socket_ t)
   /\ outbuf_ (after (SendRaw t pv)) = outbuf_ t
   /\ outpos_ (after (SendRaw t pv)) = outpos_ t)
  /\ (outpos_ t + size pv <= outsize_ t ->
      raised (SendRaw t pv) = [] ->
      wire (socket_ (after (SendRaw t pv))) ++ pending (after (SendRaw t pv))
      = wire (socket_ t) ++ pending t ++ pv).
Proof.
  intros HI. unfold SendRaw. fold (size pv). split.
  - intros Hbig. apply Z.ltb_lt in Hbig. rewrite Hbig.
    unfold returned, after. cbn [fst snd]. fields. repeat split.
  - intros Hroom. apply Z.ltb_ge in Hroom as Hb. rewrite Hb.
    intros Hhonest.
    rewrite Flush_conserves.
    + now rewrite pending_appended.
    + destruct HI as [H1 H2 H3 H4 H5 H6]. pose proof (size_nonneg pv).
      constructor; fields; try assumption; try lia.
      rewrite size_memcpy; lia.
    + exact Hhonest.
Qed.

Lemma SendRaw_appends_witness :
  wire (socket_ (after (SendRaw a_blocked ["b"%byte])))
    ++ pending (after (SendRaw a_blocked ["b"%byte]))
  = ["000"%byte; "001"%byte; "a"%byte; "b"%byte].
Proof.
  assert (HI : Inv a_blocked)
    by (apply Send_Inv, sending_Inv, AsyncTCPSocket_new_Inv).
  destruct (SendRaw_appends a_blocked ["b"%byte] HI) as [_ H].
  rewrite H.
  - vm_compute. reflexivity.
  - vm_compute. discriminate.
  - vm_compute. reflexivity.
Defined.

(** ** What the frame extraction makes of arbitrary bytes *)

Lemma byte_of_Z_of_byte (b : byte) : byte_of_Z (Z_of_byte b) = b.
Proof.
  unfold byte_of_Z. pose proof (Z_of_byte_range b) as Hr.
  rewrite Z.mod_small by exact Hr. unfold Z_of_byte.
  now rewrite N2Z.id, Byte.of_to_N.
Qed.

Lemma byte_of_Z_mod (z : Z) : byte_of_Z (z mod 256) = byte_of_Z z.
Proof. unfold byte_of_Z. now rewrite Z.mod_mod by discriminate. Qed.

(** The other half of the byte-order round trip: two bytes read as a
    length and written back are the same two bytes. *)
Lemma HostToNetwork16_NetworkToHost16 (hi lo : byte) (rest : list byte) :
  HostToNetwork16 (NetworkToHost16 (hi :: lo :: rest)) = [hi; lo].
Proof.
  unfold HostToNetwork16. cbn [NetworkToHost16].
  pose proof (Z_of_byte_range hi). pose proof (Z_of_byte_range lo).
  replace ((256 * Z_of_byte hi + Z_of_byte lo) / 256) with (Z_of_byte hi)
    by (apply (Z.div_unique _ 256 _ (Z_of_byte lo)); lia).
  rewrite <- (byte_of_Z_mod (256 * Z_of_byte hi + Z_of_byte lo)).
  replace ((256 * Z_of_byte hi + Z_of_byte lo) mod 256) with (Z_of_byte lo)
    by (apply (Z.mod_unique _ 256 (Z_of_byte hi)); lia).
  now rewrite !byte_of_Z_of_byte.
Qed.

(** Buffered bytes either hold no whole frame, and a turn of the loop
    returns whatever lies behind them, or begin with the frame of a
    payload that fits the prefix. *)
Lemma buffered_bytes_cases (remote : SocketAddress) (v : list byte) :
  (forall junk, ProcessInput_turn remote (v ++ junk) (size v) = None)
  \/ (exists p v', v = frame p ++ v' /\ fits_prefix p).
Proof.
  destruct v as [|hi [|lo tl]].
  - left. intros junk. reflexivity.
  - left. intros junk. reflexivity.
  - set (k := NetworkToHost16 (hi :: lo :: tl)).
    pose proof (NetworkToHost16_range (hi :: lo :: tl)) as Hk. fold k in Hk.
    destruct (Z_lt_dec (size tl) k) as [Hshort|Hlong].
    + left. intros junk. apply ProcessInput_turn_None. right.
      change (bytes_at ((hi :: lo :: tl) ++ junk) 0 PKT_LEN_SIZE)
        with [hi; lo].
      change (NetworkToHost16 [hi; lo]) with k.
      unfold size in *. cbn [length]. unfold PKT_LEN_SIZE. lia.
    + right. exists (firstn (Z.to_nat k) tl), (skipn (Z.to_nat k) tl).
      assert (Hsz : size (firstn (Z.to_nat k) tl) = k)
        by (rewrite size_firstn; lia).
      split; [|unfold fits_prefix; lia].
      unfold frame. rewrite Hsz.
      rewrite static_cast_PacketLength_small by lia.
      unfold k. rewrite HostToNetwork16_NetworkToHost16.
      cbn [app]. now rewrite firstn_skipn.
Qed.

Lemma ProcessInput_stuck remote v junk :
  (forall junk, ProcessInput_turn remote (v ++ junk) (size v) = None) ->
  ProcessInput remote (v ++ junk) (size v) = ([], (v ++ junk, size v)).
Proof. intros H. now rewrite ProcessInput_loop, H. Qed.

Lemma ProcessInput_frame_first remote p v' junk :
  fits_prefix p ->
  ProcessInput remote ((frame p ++ v') ++ junk) (size (frame p ++ v'))
  = (SignalReadPacket p remote
       :: fst (ProcessInput remote
                 (v' ++ skipn (Z.to_nat (size v')) (frame p ++ v' ++ junk))
                 (size v')),
     snd (ProcessInput remote
            (v' ++ skipn (Z.to_nat (size v')) (frame p ++ v' ++ junk))
            (size v'))).
Proof.
  intros Hp. rewrite ProcessInput_loop.
  rewrite <- app_assoc, size_app, ProcessInput_turn_frame by exact Hp.
  reflexivity.
Qed.

(** What lies in the buffer behind the buffered bytes has no part in
    what [ProcessInput] signals and leaves buffered. *)
Lemma ProcessInput_buffered remote : forall n v, (length v <= n)%nat ->
  forall junk,
    fst (ProcessInput remote (v ++ junk) (size v)) = delivered remote v
    /\ snd (snd (ProcessInput remote (v ++ junk) (size v)))
       = size (remainder remote v)
    /\ bytes_at (fst (snd (ProcessInput remote (v ++ junk) (size v))))
                0 (size (remainder remote v))
       = remainder remote v.
Proof.
  induction n as [|n IH]; intros v Hn junk.
  - destruct v; [|cbn in Hn; lia]. cbn [app].
    unfold delivered, remainder. rewrite !ProcessInput_loop. cbn.
    repeat split.
  - destruct (buffered_bytes_cases remote v) as [Hstuck|(p & v' & -> & Hp)].
    + assert (Hd : delivered remote v = [])
        by (unfold delivered; rewrite <- (app_nil_r v) at 1;
            now rewrite ProcessInput_stuck).
      assert (Hr : remainder remote v = v).
      { unfold remainder. rewrite <- (app_nil_r v) at 1 3.
        rewrite ProcessInput_stuck by exact Hstuck. cbn [fst snd].
        apply bytes_at_app_exact. }
      rewrite Hd, Hr, ProcessInput_stuck by exact Hstuck. cbn [fst snd].
      repeat split. apply bytes_at_app_exact.
    + assert (Hn' : (length v' <= n)%nat).
      { rewrite length_app in Hn. unfold frame in Hn.
        rewrite length_app in Hn. cbn [length HostToNetwork16] in Hn. lia. }
      assert (Hd : delivered remote (frame p ++ v')
                   = SignalReadPacket p remote :: delivered remote v'
                   /\ remainder remote (frame p ++ v') = remainder remote v').
      { unfold delivered at 1, remainder at 1.
        rewrite <- (app_nil_r (frame p ++ v')) at 1 3 5.
        rewrite ProcessInput_frame_first by exact Hp. cbn [fst snd].
        destruct (IH v' Hn'
                    (skipn (Z.to_nat (size v')) (frame p ++ v' ++ [])))
          as (H1 & H2 & H3).
        rewrite H1, H2, H3. split; reflexivity. }
      destruct Hd as [Hd Hr]. rewrite Hd, Hr.
      rewrite ProcessInput_frame_first by exact Hp. cbn [fst snd].
      destruct (IH v' Hn'
                  (skipn (Z.to_nat (size v')) (frame p ++ v' ++ junk)))
        as (H1 & H2 & H3).
      rewrite H1, H2, H3. repeat split.
Qed.

Lemma delivered_stuck remote v :
  (forall junk, ProcessInput_turn remote (v ++ junk) (size v) = None) ->
  delivered remote v = [] /\ remainder remote v = v.
Proof.
  intros Hstuck.
  destruct (ProcessInput_buffered remote (length v) v (le_n _) [])
    as (H1 & H2 & H3).
  rewrite ProcessInput_stuck in H1, H2, H3 by exact Hstuck.
  cbn [fst snd] in *. split; [now symmetry|].
  rewrite <- H3, <- H2. apply bytes_at_app_exact.
Qed.

Lemma delivered_frame remote p v' :
  fits_prefix p ->
  delivered remote (frame p ++ v')
  = SignalReadPacket p remote :: delivered remote v'
  /\ remainder remote (frame p ++ v') = remainder remote v'.
Proof.
  intros Hp.
  destruct (ProcessInput_buffered remote _ (frame p ++ v') (le_n _) [])
    as (H1 & H2 & H3).
  rewrite ProcessInput_frame_first in H1, H2, H3 by exact Hp.
  cbn [fst snd] in *.
  destruct (ProcessInput_buffered remote _ v' (le_n _)
              (skipn (Z.to_nat (size v')) (frame p ++ v' ++ [])))
    as (G1 & G2 & G3).
  rewrite G1 in H1. rewrite G2 in H2. split; [now symmetry|].
  rewrite <- H3, <- H2. exact G3.
Qed.

Lemma length_frame_tail p v' : (length v' < length (frame p ++ v'))%nat.
Proof.
  rewrite length_app. unfold frame. rewrite length_app.
  cbn [length HostToNetwork16]. lia.
Qed.

(** Bytes that arrive later do not change what the bytes before them
    have delivered: the packets of [a ++ b] are the packets of [a], then
    the packets of what [a] left buffered followed by [b]. *)
Lemma delivered_app remote b : forall n a, (length a <= n)%nat ->
  delivered remote (a ++ b)
  = delivered remote a ++ delivered remote (remainder remote a ++ b)
  /\ remainder remote (a ++ b)
     = remainder remote (remainder remote a ++ b).
Proof.
  induction n as [|n IH]; intros a Hn.
  - destruct a; [|cbn in Hn; lia].
    destruct (delivered_stuck remote []) as [Hd Hr]; [reflexivity|].
    rewrite Hd, Hr. split; reflexivity.
  - destruct (buffered_bytes_cases remote a) as [Hstuck|(p & a' & -> & Hp)].
    + destruct (delivered_stuck remote a Hstuck) as [Hd Hr].
      rewrite Hd, Hr. split; reflexivity.
    + pose proof (length_frame_tail p a') as Hlt.
      destruct (delivered_frame remote p a' Hp) as [Hd Hr].
      destruct (delivered_frame remote p (a' ++ b) Hp) as [Hd' Hr'].
      rewrite <- app_assoc, Hd, Hr, Hd', Hr'.
      destruct (IH a' ltac:(lia)) as [IH1 IH2].
      rewrite IH1, IH2. split; reflexivity.
Qed.

(** What is left buffered holds no whole frame. *)
Lemma remainder_stable remote : forall n v, (length v <= n)%nat ->
  delivered remote (remainder remote v) = []
  /\ remainder remote (remainder remote v) = remainder remote v.
Proof.
  induction n as [|n IH]; intros v Hn;
    destruct (buffered_bytes_cases remote v) as [Hstuck|(p & v' & -> & Hp)].
  - destruct (delivered_stuck remote v Hstuck) as [Hd Hr].
    rewrite Hr. split; assumption.
  - pose proof (length_frame_tail p v'). lia.
  - destruct (delivered_stuck remote v Hstuck) as [Hd Hr].
    rewrite Hr. split; assumption.
  - pose proof (length_frame_tail p v') as Hlt.
    destruct (delivered_frame remote p v' Hp) as [_ Hr]. rewrite Hr.
    apply IH. lia.
Qed.

(** The bytes are the frames of the packets delivered, in order,
    followed by what is left buffered. *)
Lemma delivered_reencodes remote : forall n v, (length v <= n)%nat ->
  delivered remote v = packets remote (map payload_of (delivered remote v))
  /\ Forall fits_prefix (map payload_of (delivered remote v))
  /\ v = concat (map frame (map payload_of (delivered remote v)))
           ++ remainder remote v
  /\ (size (remainder remote v) < PKT_LEN_SIZE
      \/ size (remainder remote v)
         < PKT_LEN_SIZE
           + NetworkToHost16 (bytes_at (remainder remote v) 0 PKT_LEN_SIZE)).
Proof.
  induction n as [|n IH]; intros v Hn;
    destruct (buffered_bytes_cases remote v) as [Hstuck|(p & v' & -> & Hp)];
    try (pose proof (length_frame_tail p v'); lia).
  - destruct (delivered_stuck remote v Hstuck) as [Hd Hr]. rewrite Hd, Hr.
    cbn [map packets concat app]. repeat split; [constructor|].
    specialize (Hstuck []). rewrite app_nil_r in Hstuck.
    now apply ProcessInput_turn_None in Hstuck.
  - destruct (delivered_stuck remote v Hstuck) as [Hd Hr]. rewrite Hd, Hr.
    cbn [map packets concat app]. repeat split; [constructor|].
    specialize (Hstuck []). rewrite app_nil_r in Hstuck.
    now apply ProcessInput_turn_None in Hstuck.
  - pose proof (length_frame_tail p v') as Hlt.
    destruct (delivered_frame remote p v' Hp) as [Hd Hr]. rewrite Hd, Hr.
    destruct (IH v' ltac:(lia)) as (I1 & I2 & I3 & I4).
    cbn [map payload_of concat]. unfold packets in *. cbn [map].
    rewrite <- I1, <- app_assoc, <- I3.
    repeat split; [constructor; assumption|exact I4].
Qed.

(** [ProcessInput] accounts for every buffered byte: what it signals
    are packet-received signals whose payloads fit the prefix, and the
    buffered bytes are the frames of these payloads, in the order
    signalled, followed by the bytes left buffered. *)
Theorem ProcessInput_accounts_for_every_byte
  (remote : SocketAddress) (data : list byte) (len : Z) :
  0 <= len <= size data ->
  fst (ProcessInput remote data len)
  = packets remote (map payload_of (fst (ProcessInput remote data len)))
  /\ Forall fits_prefix (map payload_of (fst (ProcessInput remote data len)))
  /\ bytes_at data 0 len
     = concat (map frame (map payload_of (fst (ProcessInput remote data len))))
         ++ bytes_at (fst (snd (ProcessInput remote data len)))
                     0 (snd (snd (ProcessInput remote data len))).
Proof.
  intros Hlen.
  assert (Hsplit : data = bytes_at data 0 len ++ skipn (Z.to_nat len) data)
    by (unfold bytes_at; cbn [Z.to_nat skipn]; now rewrite firstn_skipn).
  assert (Hsz : size (bytes_at data 0 len) = len)
    by (apply size_bytes_at; lia).
  set (v := bytes_at data 0 len) in *.
  destruct (ProcessInput_buffered remote _ v (le_n _)
              (skipn (Z.to_nat len) data)) as (H1 & H2 & H3).
  rewrite Hsz, <- Hsplit in H1, H2, H3.
  destruct (delivered_reencodes remote _ v (le_n _)) as (D1 & D2 & D3 & _).
  rewrite H1, H2, H3. repeat split; assumption.
Qed.

Lemma ProcessInput_accounts_for_every_byte_witness :
  let data := ["000"%byte; "001"%byte; "a"%byte; "000"%byte; "000"%byte;
               "000"%byte; "007"%byte] in
  bytes_at data 0 6
  = concat (map frame (map payload_of (fst (ProcessInput 5222 data 6))))
      ++ bytes_at (fst (snd (ProcessInput 5222 data 6)))
                  0 (snd (snd (ProcessInput 5222 data 6))).
Proof.
  intros data.
  destruct (ProcessInput_accounts_for_every_byte 5222 data 6) as (_ & _ & H).
  - vm_compute. split; discriminate.
  - exact H.
Defined.

(** ** Read events on an arbitrary byte stream *)

Lemma ProcessInput_below_capacity remote data len :
  len <= BUF_SIZE -> snd (snd (ProcessInput remote data len)) < BUF_SIZE.
Proof.
  intros Hlen.
  pose proof (ProcessInput_count remote data len) as Hn.
  destruct (Z_lt_dec len BUF_SIZE) as [Hroom|Hfull];
    [unfold PKT_LEN_SIZE in Hn; lia|].
  clear Hn. rewrite ProcessInput_loop.
  destruct (ProcessInput_turn remote data len)
    as [[ev [data' len']]|] eqn:Hturn.
  - pose proof (ProcessInput_turn_consumes Hturn) as Hc.
    pose proof (ProcessInput_count remote data' len') as Hn'.
    cbn [fst snd]. unfold PKT_LEN_SIZE in *. lia.
  - apply ProcessInput_turn_None in Hturn.
    pose proof (NetworkToHost16_range (bytes_at data 0 PKT_LEN_SIZE)).
    unfold BUF_SIZE, MAX_PACKET_SIZE, PKT_LEN_SIZE in *. lia.
Qed.

Lemma size_remainder remote v : size (remainder remote v) <= size v.
Proof.
  destruct (delivered_reencodes remote _ v (le_n _)) as (_ & _ & D3 & _).
  rewrite D3 at 2. rewrite size_app.
  pose proof (size_nonneg
                (concat (map frame (map payload_of (delivered remote v))))).
  lia.
Qed.

(** A read event that finds a chunk, with room for it: the packets of
    the buffered bytes followed by the chunk are signalled, what they
    leave stays buffered. *)
Lemma OnReadEvent_data_step t c rest :
  Inv t ->
  recv_script (socket_ t) = RecvData c :: rest ->
  inpos_ t + size c <= insize_ t ->
  fst (OnReadEvent_data t)
  = delivered (remote_address (socket_ t)) (buffered t ++ c)
  /\ buffered (snd (OnReadEvent_data t))
     = remainder (remote_address (socket_ t)) (buffered t ++ c)
  /\ Inv (snd (OnReadEvent_data t))
  /\ recv_script (socket_ (snd (OnReadEvent_data t))) = rest
  /\ remote_address (socket_ (snd (OnReadEvent_data t)))
     = remote_address (socket_ t)
  /\ listen_ (snd (OnReadEvent_data t)) = listen_ t.
Proof.
  intros HI Hs Hroom.
  rewrite (OnReadEvent_data_chunk t c rest HI Hs Hroom). cbn zeta.
  pose proof (size_buffered t HI) as Hb.
  assert (Hlen : inpos_ t + size c = size (buffered t ++ c))
    by (rewrite size_app; lia).
  set (remote := remote_address (socket_ t)).
  set (junk := skipn (Z.to_nat (inpos_ t + size c)) (inbuf_ t)).
  rewrite Hlen.
  destruct (ProcessInput_buffered remote _ (buffered t ++ c) (le_n _) junk)
    as (H1 & H2 & H3).
  pose proof (size_remainder remote (buffered t ++ c)) as Hrem.
  pose proof (size_nonneg (remainder remote (buffered t ++ c))) as Hnn.
  destruct HI as [I1 I2 I3 I4 I5 I6].
  pose proof (ProcessInput_below_capacity remote
                ((buffered t ++ c) ++ junk) (size (buffered t ++ c))) as Hcap.
  destruct (ProcessInput_returns remote ((buffered t ++ c) ++ junk)
              (size (buffered t ++ c))) as (Hsz & _ & _).
  { rewrite (size_app (buffered t ++ c) junk).
    pose proof (size_nonneg junk). pose proof (size_nonneg (buffered t ++ c)).
    lia. }
  assert (Hjunk : size junk = insize_ t - (inpos_ t + size c)).
  { unfold junk. rewrite size_skipn. pose proof (size_nonneg c). lia. }
  rewrite (size_app (buffered t ++ c) junk), Hjunk in Hsz.
  rewrite H2 in *.
  replace (insize_ t <=? size (remainder remote (buffered t ++ c)))
    with false by (symmetry; apply Z.leb_gt; lia).
  cbn [fst snd]. fields.
  cbn [recv_script remote_address with_recv_script called].
  split; [exact H1|].
  split; [unfold buffered at 1; fields; exact H3|].
  split; [constructor; fields; try assumption; lia|].
  repeat split.
Qed.

(** A read event whose [Recv] fails signals no packet and leaves the
    buffered bytes alone. *)
Lemma OnReadEvent_data_failure t e rest :
  Inv t ->
  recv_script (socket_ t) = RecvFails e :: rest ->
  filter is_packet (fst (OnReadEvent_data t)) = []
  /\ buffered (snd (OnReadEvent_data t)) = buffered t
  /\ inpos_ (snd (OnReadEvent_data t)) = inpos_ t
  /\ Inv (snd (OnReadEvent_data t))
  /\ recv_script (socket_ (snd (OnReadEvent_data t))) = rest
  /\ remote_address (socket_ (snd (OnReadEvent_data t)))
     = remote_address (socket_ t)
  /\ listen_ (snd (OnReadEvent_data t)) = listen_ t.
Proof.
  intros HI Hs. unfold OnReadEvent_data, Socket.Recv.
  cbn [recv_script called]. rewrite Hs. cbn [Z.ltb Z.compare]. fields.
  destruct (Socket.IsBlocking _); cbn [fst snd filter is_packet];
    unfold buffered; fields;
    cbn [recv_script remote_address with_error with_recv_script called];
    repeat split; try reflexivity; now apply set_socket_Inv.
Qed.

Lemma filter_packets remote ps :
  filter is_packet (packets remote ps) = packets remote ps.
Proof.
  induction ps as [|p ps IH]; [reflexivity|].
  cbn [packets map filter is_packet]. unfold packets in IH. now rewrite IH.
Qed.

Lemma filter_delivered remote v :
  filter is_packet (delivered remote v) = delivered remote v.
Proof.
  destruct (delivered_reencodes remote _ v (le_n _)) as (D1 & _).
  rewrite D1. apply filter_packets.
Qed.

Lemma read_events_deliver script : forall t,
  Inv t -> listen_ t = false ->
  recv_script (socket_ t) = script ->
  inpos_ t + size (received script) <= insize_ t ->
  delivered (remote_address (socket_ t)) (buffered t) = [] ->
  remainder (remote_address (socket_ t)) (buffered t) = buffered t ->
  filter is_packet (fst (read_events (length script) t))
  = delivered (remote_address (socket_ t)) (buffered t ++ received script)
  /\ buffered (snd (read_events (length script) t))
     = remainder (remote_address (socket_ t)) (buffered t ++ received script).
Proof.
  induction script as [|[c|e] script IH]; intros t HI Hl Hs Hroom Hd Hr.
  - cbn [length read_events fst snd filter received map concat].
    rewrite app_nil_r. split; [now symmetry|now symmetry].
  - cbn [length read_events]. rewrite (OnReadEvent_connection t Hl).
    change (received (RecvData c :: script)) with (c ++ received script)
      in *.
    rewrite size_app in Hroom.
    pose proof (size_nonneg (received script)) as Hnn.
    destruct (OnReadEvent_data_step t c script HI Hs)
      as (He & Hb' & HI' & Hs' & Hr' & Hl'); [lia|].
    pose proof (size_buffered t HI) as Hsb.
    pose proof (size_buffered _ HI') as Hsb'.
    pose proof (size_remainder (remote_address (socket_ t)) (buffered t ++ c))
      as Hrem.
    rewrite size_app in Hrem.
    destruct (remainder_stable (remote_address (socket_ t)) _
                (buffered t ++ c) (le_n _)) as [St1 St2].
    destruct (delivered_app (remote_address (socket_ t)) (received script)
                _ (buffered t ++ c) (le_n _)) as [A1 A2].
    destruct (OnReadEvent_data t) as [ev t']. cbn [fst snd] in *.
    rewrite Hl in Hl'.
    pose proof (inv_insize t HI) as Hc. pose proof (inv_insize t' HI') as Hc'.
    destruct (IH t' HI' Hl' Hs') as [IH1 IH2];
      [rewrite <- Hsb', Hb'; lia|rewrite Hr', Hb'; exact St1
      |rewrite Hr', Hb'; exact St2|].
    destruct (read_events (length script) t') as [evs t''].
    cbn [fst snd] in *.
    rewrite filter_app, IH1, IH2, He, filter_delivered, Hr', Hb'.
    rewrite app_assoc, A1, A2. split; reflexivity.
  - cbn [length read_events]. rewrite (OnReadEvent_connection t Hl).
    change (received (RecvFails e :: script)) with (received script) in *.
    destruct (OnReadEvent_data_failure t e script HI Hs)
      as (He & Hb' & Hp' & HI' & Hs' & Hr' & Hl').
    destruct (OnReadEvent_data t) as [ev t']. cbn [fst snd] in *.
    rewrite Hl in Hl'.
    pose proof (inv_insize t HI) as Hc. pose proof (inv_insize t' HI') as Hc'.
    destruct (IH t' HI' Hl' Hs') as [IH1 IH2];
      [rewrite Hp', Hc', <- Hc; exact Hroom|rewrite Hr', Hb'; exact Hd
      |rewrite Hr', Hb'; exact Hr|].
    destruct (read_events (length script) t') as [evs t''].
    cbn [fst snd] in *.
    rewrite filter_app, He, IH1, IH2, Hr', Hb'. split; reflexivity.
Qed.

Lemma delivered_frames remote ps :
  Forall fits_prefix ps ->
  delivered remote (concat (map frame ps)) = packets remote ps
  /\ remainder remote (concat (map frame ps)) = [].
Proof.
  induction 1 as [|p ps Hp _ IH].
  - now destruct (delivered_stuck remote []) as [Hd Hr].
  - cbn [map concat]. destruct (delivered_frame remote p
                                  (concat (map frame ps)) Hp) as [Hd Hr].
    destruct IH as [IH1 IH2]. rewrite Hd, Hr, IH1, IH2. split; reflexivity.
Qed.

Lemma read_events_Inv n : forall t, Inv t -> Inv (snd (read_events n t)).
Proof.
  induction n as [|n IH]; intros t HI; [exact HI|].
  cbn [read_events]. pose proof (OnReadEvent_Inv t HI) as HI'.
  destruct (OnReadEvent t) as [ev t']. cbn [snd] in HI'.
  specialize (IH t' HI'). destruct (read_events n t') as [evs t''].
  exact IH.
Qed.

Lemma receiving_Inv script t : Inv t -> Inv (receiving script t).
Proof. intros [H1 H2 H3 H4 H5 H6]. constructor; assumption. Qed.

(** However the network portions a byte stream over read events, and
    whatever [Recv] failures (would-block or errors) come between the
    portions, a connection that starts with an empty inbound buffer, and
    whose buffer can hold the stream, signals the same packets, in the
    same order, and is left with the same bytes buffered, as when the
    whole stream arrives in one read event.  For a stream of valid
    frames these are the payloads of the frames, with nothing left
    buffered. *)
Theorem read_events_follow_the_stream
  (t : AsyncTCPSocket) (script : list RecvOutcome) :
  Inv t -> listen_ t = false -> inpos_ t = 0 ->
  size (received script) <= insize_ t ->
  filter is_packet (fst (read_events (length script) (receiving script t)))
  = fst (OnReadEvent (arriving [received script] t))
  /\ buffered (snd (read_events (length script) (receiving script t)))
     = buffered (snd (OnReadEvent (arriving [received script] t)))
  /\ (forall ps,
        Forall fits_prefix ps -> received script = concat (map frame ps) ->
        filter is_packet
          (fst (read_events (length script) (receiving script t)))
        = packets (remote_address (socket_ t)) ps
        /\ inpos_ (snd (read_events (length script) (receiving script t)))
           = 0).
Proof.
  intros HI Hl Hpos Hroom.
  set (remote := remote_address (socket_ t)).
  destruct (delivered_stuck remote []) as [Hd0 Hr0]; [reflexivity|].
  destruct (read_events_deliver script (receiving script t))
    as [H1 H2].
  { now apply receiving_Inv. }
  { exact Hl. }
  { reflexivity. }
  { change (inpos_ (receiving script t)) with (inpos_ t).
    change (insize_ (receiving script t)) with (insize_ t). lia. }
  { rewrite (buffered_empty (receiving script t) Hpos). exact Hd0. }
  { rewrite (buffered_empty (receiving script t) Hpos). exact Hr0. }
  rewrite (buffered_empty (receiving script t) Hpos) in H1, H2.
  cbn [app] in H1, H2.
  change (remote_address (socket_ (receiving script t))) with remote
    in H1, H2.
  rewrite (OnReadEvent_connection (arriving [received script] t) Hl).
  destruct (OnReadEvent_data_step (arriving [received script] t)
              (received script) [])
    as (G1 & G2 & _).
  { now apply arriving_Inv. }
  { reflexivity. }
  { change (inpos_ (arriving [received script] t)) with (inpos_ t).
    change (insize_ (arriving [received script] t)) with (insize_ t). lia. }
  rewrite (buffered_empty (arriving [received script] t) Hpos) in G1, G2.
  cbn [app] in G1, G2.
  change (remote_address (socket_ (arriving [received script] t)))
    with remote in G1, G2.
  rewrite H1, H2, G1, G2.
  split; [reflexivity|]. split; [reflexivity|].
  intros ps Hps Hframes. rewrite Hframes in *.
  destruct (delivered_frames remote ps Hps) as [F1 F2].
  split; [exact F1|].
  pose proof (read_events_Inv (length script) (receiving script t)
                (receiving_Inv script t HI)) as HI'.
  rewrite <- (size_buffered _ HI'), H2, F2. reflexivity.
Qed.

Lemma read_events_follow_the_stream_witness :
  let script := [RecvData ["000"%byte]; RecvFails EWOULDBLOCK;
                 RecvData ["001"%byte; "a"%byte; "000"%byte];
                 RecvFails 104; RecvData ["000"%byte]] in
  filter is_packet (fst (read_events 5 (receiving script a_connection)))
  = [SignalReadPacket ["a"%byte] 5222; SignalReadPacket [] 5222].
Proof.
  intros script.
  destruct (read_events_follow_the_stream a_connection script)
    as (_ & _ & H).
  - apply AsyncTCPSocket_new_Inv.
  - reflexivity.
  - reflexivity.
  - vm_compute. discriminate.
  - destruct (H [["a"%byte]; []]) as [H1 _].
    + repeat constructor.
    + reflexivity.
    + exact H1.
Defined.

Lemma Send_round_trip_witness :
  let t := sending [SendTakes 4] a_connection in
  returned (Send t ["h"%byte; "i"%byte]) = 2
  /\ wire (socket_ (after (Send t ["h"%byte; "i"%byte])))
     = ["000"%byte; "002"%byte; "h"%byte; "i"%byte]
  /\ fst (OnReadEvent (arriving [frame ["h"%byte; "i"%byte]] a_connection))
     = [SignalReadPacket ["h"%byte; "i"%byte] 5222].
Proof.
  intros t.
  apply (Send_round_trip t a_connection ["h"%byte; "i"%byte] []).
  - apply sending_Inv, AsyncTCPSocket_new_Inv.
  - reflexivity.
  - reflexivity.
  - reflexivity.
  - apply AsyncTCPSocket_new_Inv.
  - reflexivity.
  - reflexivity.
Defined.

Lemma inbound_overflow_unreachable_witness :
  let t := arriving [["000"%byte]] a_connection in
  snd (snd (ProcessInput
              (remote_address
                 (with_recv_script [] (called (CallRecv BUF_SIZE) (socket_ t))))
              (memcpy (inbuf_ t) (inpos_ t) ["000"%byte] 1) (inpos_ t + 1)))
  < insize_ t.
Proof.
  intros t.
  apply (inbound_overflow_unreachable t 1 ["000"%byte]
           (with_recv_script [] (called (CallRecv BUF_SIZE) (socket_ t)))).
  - apply arriving_Inv, AsyncTCPSocket_new_Inv.
  - reflexivity.
  - discriminate.
Defined.

(** ** Listening mode and construction *)

(** A read event of a connection touches the inbound side only. *)
Lemma OnReadEvent_data_keeps t :
  listen_ (snd (OnReadEvent_data t)) = listen_ t
  /\ outbuf_ (snd (OnReadEvent_data t)) = outbuf_ t
  /\ outpos_ (snd (OnReadEvent_data t)) = outpos_ t
  /\ remote_address (socket_ (snd (OnReadEvent_data t)))
     = remote_address (socket_ t)
  /\ wire (socket_ (snd (OnReadEvent_data t))) = wire (socket_ t).
Proof.
  unfold OnReadEvent_data, Socket.Recv. cbn [recv_script called].
  destruct (recv_script (socket_ t)) as [|[chunk|e] rest].
  - cbn [Z.ltb Z.compare]. fields.
    destruct (Socket.IsBlocking _); cbn [snd]; fields; repeat split.
  - fields.
    destruct (_ <? 0); [destruct (Socket.IsBlocking _)| ].
    + cbn [snd]. fields. repeat split.
    + cbn [snd]. fields. repeat split.
    + destruct (ProcessInput _ _ _) as [evs [buf pos]].
      destruct (insize_ t <=? pos); cbn [snd]; fields; repeat split.
  - cbn [Z.ltb Z.compare]. fields.
    destruct (Socket.IsBlocking _); cbn [snd]; fields; repeat split.
Qed.

(** A read event on a listening transport accepts at most one
    connection.  When [Accept] gives a socket, exactly one new-connection
    signal is raised; it carries a transport that is not listening, that
    wraps the accepted socket and has nothing queued, and that has
    already read what the peer had sent: if that is a run of valid
    frames, their packets have been signalled by the new transport, in
    order.  When [Accept] gives nothing, only a line is logged.  Either
    way the buffers and cursors of the listening transport are as they
    were. *)
Theorem listening_read_event_accepts (t : AsyncTCPSocket) :
  listen_ t = true ->
  (forall i rest,
     accept_script (socket_ t) = Some i :: rest ->
     exists conn primed,
       fst (OnReadEvent t) = [SignalNewConnection conn primed]
       /\ listen_ conn = false
       /\ Inv conn
       /\ remote_address (socket_ conn) = peer i
       /\ outpos_ conn = 0
       /\ accept_script (socket_ (snd (OnReadEvent t))) = rest
       /\ (forall ps,
             Forall fits_prefix ps ->
             early_data i = [RecvData (concat (map frame ps))] ->
             size (concat (map frame ps)) <= BUF_SIZE ->
             primed = packets (peer i) ps /\ inpos_ conn = 0))
  /\ (forall rest,
        accept_script (socket_ t) = [] \/
        accept_script (socket_ t) = None :: rest ->
        exists code,
          fst (OnReadEvent t)
          = [LogError "TCP accept failed with error " code])
  /\ inbuf_ (snd (OnReadEvent t)) = inbuf_ t
  /\ inpos_ (snd (OnReadEvent t)) = inpos_ t
  /\ outbuf_ (snd (OnReadEvent t)) = outbuf_ t
  /\ outpos_ (snd (OnReadEvent t)) = outpos_ t
  /\ listen_ (snd (OnReadEvent t)) = true.
Proof.
  intros Hl. unfold OnReadEvent, Socket.Accept. rewrite Hl.
  cbn [accept_script called].
  refine (conj _ (conj _ _)).
  - intros i rest Hs. rewrite Hs.
    set (c0 := snd (AsyncTCPSocket_new (Socket.accepted i) false)).
    pose proof (AsyncTCPSocket_new_Inv (Socket.accepted i) false) as HI0.
    fold c0 in HI0.
    pose proof (OnReadEvent_data_Inv c0 HI0) as HI1.
    destruct (OnReadEvent_data_keeps c0) as (K1 & _ & K3 & K4 & _).
    assert (Hframes : forall ps,
              Forall fits_prefix ps ->
              early_data i = [RecvData (concat (map frame ps))] ->
              size (concat (map frame ps)) <= BUF_SIZE ->
              fst (OnReadEvent_data c0) = packets (peer i) ps
              /\ inpos_ (snd (OnReadEvent_data c0)) = 0).
    { intros ps Hps He Hsz.
      assert (Hrecv : recv_script (socket_ c0)
                      = RecvData (concat (map frame ps)) :: []) by exact He.
      assert (Hbuf : buffered c0 ++ concat (map frame ps)
                     = concat (map frame ps))
        by (now rewrite (buffered_empty c0 eq_refl)).
      assert (Hroom : inpos_ c0 + size (concat (map frame ps)) <= insize_ c0)
        by (change (inpos_ c0) with 0; change (insize_ c0) with BUF_SIZE; lia).
      destruct (OnReadEvent_data_frames c0 (concat (map frame ps)) [] ps
                  HI0 Hrecv Hbuf Hps Hroom) as (F1 & _ & F3 & _).
      split; [exact F1|exact F3]. }
    destruct (OnReadEvent_data c0) as [primed conn]. cbn [fst snd] in *.
    exists conn, primed. fields.
    cbn [accept_script with_accept_script called].
    exact (conj eq_refl (conj K1 (conj HI1 (conj K4 (conj K3
             (conj eq_refl Hframes)))))).
  - intros rest [Hs|Hs]; rewrite Hs; eexists; reflexivity.
  - destruct (accept_script (socket_ t)) as [|[i|] rest].
    + cbn [snd]. fields. repeat split; assumption.
    + destruct (OnReadEvent_data _) as [primed conn]. cbn [snd]. fields.
      repeat split; assumption.
    + cbn [snd]. fields. repeat split; assumption.
Qed.

Lemma listening_read_event_accepts_witness :
  exists conn,
    fst (OnReadEvent a_listener)
    = [SignalNewConnection conn [SignalReadPacket ["a"%byte] 7]]
    /\ listen_ conn = false.
Proof.
  destruct (listening_read_event_accepts a_listener eq_refl) as (H & _).
  destruct (H {| peer := 7;
                 early_data :=
                   [RecvData ["000"%byte; "001"%byte; "a"%byte]] |}
              [] eq_refl)
    as (conn & primed & E & L & _ & _ & _ & _ & F).
  destruct (F [["a"%byte]]) as [P _].
  - repeat constructor.
  - reflexivity.
  - vm_compute. discriminate.
  - exists conn. rewrite E, P. split; [reflexivity|exact L].
Defined.

(** [Create] gives nothing when the factory gives no socket.  With a
    socket it always gives a transport, also when [Listen] fails: the
    failure is logged and the transport is as usable as any other, with
    both buffers at their capacity and empty.  [Listen] is called, with
    backlog 5, only for a listening transport. *)
Theorem Create_survives_listen_failure
  (sock : option AsyncSocket) (listen : bool) :
  (sock = None -> Create sock listen = None)
  /\ (forall s,
        sock = Some s ->
        exists ev t,
          Create sock listen = Some (ev, t)
          /\ Inv t /\ inpos_ t = 0 /\ outpos_ t = 0
          /\ listen_ t = listen
          /\ wire (socket_ t) = wire s
          /\ calls (socket_ t)
             = calls s ++ (if listen then [CallListen 5] else [])
          /\ (ev = []
              <-> ~ (listen = true /\ listen_result s < 0))).
Proof.
  split; [intros ->; reflexivity|].
  intros s ->. unfold Create.
  pose proof (AsyncTCPSocket_new_Inv s listen) as HI.
  unfold AsyncTCPSocket_new in *. destruct listen.
  - unfold Socket.Listen in *.
    destruct (listen_result s <? 0) eqn:E; cbn [snd] in HI;
      eexists; eexists; (split; [reflexivity|]); fields;
      cbn [wire calls called];
      refine (conj HI (conj eq_refl (conj eq_refl (conj eq_refl
                (conj eq_refl (conj eq_refl _)))))).
    + apply Z.ltb_lt in E. split; [discriminate|]. intros H. exfalso.
      apply H. split; [reflexivity|exact E].
    + apply Z.ltb_ge in E. split; [|reflexivity]. intros _ [_ H]. lia.
  - cbn [snd] in HI. eexists; eexists; (split; [reflexivity|]); fields.
    refine (conj HI (conj eq_refl (conj eq_refl (conj eq_refl
              (conj eq_refl (conj _ _)))))).
    + symmetry. apply app_nil_r.
    + split; [|reflexivity]. intros _ [H _]. discriminate H.
Qed.

(** * The pump, request after request *)

Lemma dispatch_posted (rs : list Request) : forall next,
  exists acts final,
    dispatch next (map posted rs) = (hello.Returned, acts, final)
    /\ flat_map pump_call acts = rs
    /\ NoDup (flat_map login_objects acts)
    /\ Forall (fun o => (next <= o < final)%nat) (flat_map login_objects acts)
    /\ (next <= final)%nat.
Proof.
  induction rs as [|[settings|] rs IH]; intros next.
  - exists [], next. cbn. repeat split; [constructor|constructor|lia].
  - destruct (IH (S (S next))) as (acts & final & E & C & N & F & L).
    cbn [map posted dispatch]. unfold hello.Login at 1. cbn.
    rewrite E. eexists; eexists. split; [reflexivity|].
    cbn [flat_map pump_call login_objects app hello.xcs].
    rewrite C. split; [reflexivity|].
    assert (Hfresh : forall o, In o (flat_map login_objects acts) ->
                        (S (S next) <= o)%nat)
      by (intros o Ho; rewrite Forall_forall in F; apply F in Ho; lia).
    split; [|split].
    + constructor.
      * intros [H|H]; [lia|]. apply Hfresh in H. lia.
      * constructor; [|exact N]. intros H. apply Hfresh in H. lia.
    + constructor; [lia|]. constructor; [lia|].
      eapply Forall_impl; [|exact F]. cbn. intros o Ho. lia.
    + lia.
  - destruct (IH next) as (acts & final & E & C & N & F & L).
    cbn [map posted dispatch]. unfold hello.Disconnect at 1. cbn.
    rewrite E. eexists; eexists. split; [reflexivity|].
    cbn [flat_map pump_call login_objects app].
    rewrite C. repeat split; assumption.
Qed.

(** The messages that [Login] and [Disconnect] post never fail an
    assertion of [OnMessage]; dispatched in post order they make the
    pump calls that were asked for, one [DoLogin] or [DoDisconnect] per
    request and in the order of the requests; and no socket or auth
    strategy handed to a [DoLogin] existed before the dispatch or is
    handed over twice. *)
Theorem posted_requests_are_served_in_order
  (next : hello.object) (rs : list Request) :
  hello.outcome (dispatch next (map posted rs)) = hello.Returned
  /\ flat_map pump_call (hello.actions (dispatch next (map posted rs))) = rs
  /\ NoDup (flat_map login_objects
              (hello.actions (dispatch next (map posted rs))))
  /\ Forall (fun o => (next <= o)%nat)
       (flat_map login_objects
          (hello.actions (dispatch next (map posted rs)))).
Proof.
  destruct (dispatch_posted rs next) as (acts & final & E & C & N & F & _).
  rewrite E. unfold hello.outcome, hello.actions. cbn [fst snd].
  repeat split; try assumption.
  eapply Forall_impl; [|exact F]. cbn. intros o Ho. lia.
Qed.

(** * The parser of /proc/cpuinfo *)

(** ** Sections as maps *)

Lemma find_assign_same m k v :
  ConfigParser.find (ConfigParser.assign m k v) k = Some v.
Proof.
  induction m as [|[k' v'] m IH]; cbn.
  - now rewrite String.eqb_refl.
  - destruct (String.eqb k' k) eqn:E; cbn; rewrite E; [reflexivity|exact IH].
Qed.

Lemma find_assign_other m k v k' :
  k <> k' ->
  ConfigParser.find (ConfigParser.assign m k v) k' = ConfigParser.find m k'.
Proof.
  intros Hne. induction m as [|[k0 v0] m IH]; cbn.
  - apply String.eqb_neq in Hne. now rewrite Hne.
  - destruct (String.eqb k0 k) eqn:E; cbn.
    + apply String.eqb_eq in E. subst k0.
      apply String.eqb_neq in Hne. now rewrite Hne.
    + destruct (String.eqb k0 k'); [reflexivity|exact IH].
Qed.

Lemma assign_not_empty m k v :
  ConfigParser.empty (ConfigParser.assign m k v) = false.
Proof.
  destruct m as [|[k' v'] m]; cbn; [reflexivity|].
  destruct (String.eqb k' k); reflexivity.
Qed.

Lemma fill_not_empty g : forall m,
  g <> [] -> ConfigParser.empty (fill m g) = false.
Proof.
  induction g as [|[k v] g IH]; intros m Hg; [contradiction|].
  cbn [fill fold_left fst snd]. destruct g as [|kv g].
  - apply assign_not_empty.
  - apply IH. discriminate.
Qed.

Lemma find_fill_absent g : forall m k,
  (forall v, ~ In (k, v) g) ->
  ConfigParser.find (fill m g) k = ConfigParser.find m k.
Proof.
  induction g as [|[k' v'] g IH]; intros m k Habsent; [reflexivity|].
  cbn [fill fold_left fst snd].
  assert (Hne : k' <> k) by (intros ->; apply (Habsent v'); now left).
  change (ConfigParser.find (fill (ConfigParser.assign m k' v') g) k
          = ConfigParser.find m k).
  rewrite IH by (intros v H; apply (Habsent v); now right).
  now apply find_assign_other.
Qed.

(** The last line of a section that names a key decides its value. *)
Lemma find_fill_last m g1 k v g2 :
  (forall v', ~ In (k, v') g2) ->
  ConfigParser.find (fill m (g1 ++ (k, v) :: g2)) k = Some v.
Proof.
  intros Hlast. unfold fill. rewrite fold_left_app. cbn [fold_left fst snd].
  fold (fill m g1).
  fold (fill (ConfigParser.assign (fill m g1) k v) g2).
  rewrite find_fill_absent by exact Hlast. apply find_assign_same.
Qed.

(** ** ParseSection and Parse *)

Lemma ParseSection_group g : forall m rest,
  ConfigParser.ParseSection m (map Some g ++ None :: rest)
  = (negb (ConfigParser.empty (fill m g)), fill m g, rest).
Proof.
  induction g as [|[k v] g IH]; intros m rest; [reflexivity|].
  cbn [map app ConfigParser.ParseSection]. rewrite IH. reflexivity.
Qed.

Lemma ParseSection_end g : forall m,
  ConfigParser.ParseSection m (map Some g)
  = (negb (ConfigParser.empty (fill m g)), fill m g, []).
Proof.
  induction g as [|[k v] g IH]; intros m; [reflexivity|].
  cbn [map ConfigParser.ParseSection]. rewrite IH. reflexivity.
Qed.

(** The loop of [Parse], one turn unrolled. *)
Lemma Parse_loop key_val_pairs instream_ :
  ConfigParser.Parse key_val_pairs instream_
  = match ConfigParser.ParseSection [] instream_ with
    | (true, section, rest) =>
        ConfigParser.Parse (key_val_pairs ++ [section]) rest
    | (false, _, rest) =>
        (negb (ConfigParser.empty key_val_pairs), (key_val_pairs, rest))
    end.
Proof.
  funelim (ConfigParser.Parse key_val_pairs instream_).
  - rewrite Hsection. reflexivity.
  - rewrite e. reflexivity.
Qed.

Lemma empty_app {A} (l l' : list A) :
  ConfigParser.empty (l ++ l')
  = ConfigParser.empty l && ConfigParser.empty l'.
Proof. destruct l; reflexivity. Qed.

Lemma Parse_sections groups : forall key_val_pairs,
  Forall (fun g => g <> []) groups ->
  (forall rest,
     ConfigParser.Parse key_val_pairs (sections_stream groups ++ None :: rest)
     = (negb (ConfigParser.empty (key_val_pairs ++ map (fill []) groups)),
        (key_val_pairs ++ map (fill []) groups, rest)))
  /\ ConfigParser.Parse key_val_pairs (sections_stream groups)
     = (negb (ConfigParser.empty (key_val_pairs ++ map (fill []) groups)),
        (key_val_pairs ++ map (fill []) groups, [])).
Proof.
  induction groups as [|g groups IH]; intros kv Hne.
  - cbn [sections_stream flat_map map app]. rewrite app_nil_r.
    split; [intros rest|]; rewrite Parse_loop; reflexivity.
  - inversion Hne as [|? ? Hg Hgs]; subst.
    destruct (IH (kv ++ [fill [] g]) Hgs) as [IH1 IH2].
    cbn [sections_stream flat_map map].
    fold (sections_stream groups).
    split; [intros rest|]; rewrite Parse_loop;
      rewrite <- (app_assoc (map Some g) [None]); cbn [app].
    + rewrite <- app_assoc. cbn [app].
      rewrite ParseSection_group, (fill_not_empty g [] Hg). cbn [negb].
      rewrite IH1, <- app_assoc. reflexivity.
    + rewrite ParseSection_group, (fill_not_empty g [] Hg). cbn [negb].
      rewrite IH2, <- app_assoc. reflexivity.
Qed.

Lemma empty_map {A B} (f : A -> B) (l : list A) :
  ConfigParser.empty (map f l) = ConfigParser.empty l.
Proof. destruct l; reflexivity. Qed.

(** [Parse] reads section after section, a section being the lines up
    to the next one that [ParseLine] rejects, and stops at the first
    rejected line that does not end a section (or at the end of the
    stream): what follows is left unread.  It adds one map per section
    behind the maps already there, and returns true unless there is no
    map at all.  In each new map a key has the value of the last line
    of its section that names it. *)
Theorem Parse_reads_sections_up_to_blank
  (key_val_pairs : ConfigParser.MapVector)
  (groups : list (list (string * string))) (rest : ConfigParser.Stream) :
  Forall (fun g => g <> []) groups ->
  exists new,
    ConfigParser.Parse key_val_pairs (sections_stream groups ++ None :: rest)
    = (negb (ConfigParser.empty key_val_pairs && ConfigParser.empty groups),
       (key_val_pairs ++ new, rest))
    /\ ConfigParser.Parse key_val_pairs (sections_stream groups)
       = (negb (ConfigParser.empty key_val_pairs && ConfigParser.empty groups),
          (key_val_pairs ++ new, []))
    /\ length new = length groups
    /\ (forall n g1 k v g2,
          nth_error groups n = Some (g1 ++ (k, v) :: g2) ->
          (forall v', ~ In (k, v') g2) ->
          ProcCpuInfo.GetSectionStringValue new n k = Some v)
    /\ (forall n g k,
          nth_error groups n = Some g ->
          (forall v, ~ In (k, v) g) ->
          ProcCpuInfo.GetSectionStringValue new n k = None)
    /\ (forall n k,
          (length groups <= n)%nat ->
          ProcCpuInfo.GetSectionStringValue new n k = None).
Proof.
  intros Hne. exists (map (fill []) groups).
  destruct (Parse_sections groups key_val_pairs Hne) as [P1 P2].
  rewrite P1, P2, empty_app, empty_map, length_map.
  unfold ProcCpuInfo.GetSectionStringValue.
  refine (conj eq_refl (conj eq_refl (conj eq_refl (conj _ (conj _ _))))).
  - intros n g1 k v g2 Hn Hlast. rewrite nth_error_map, Hn. cbn [option_map].
    now apply find_fill_last.
  - intros n g k Hn Habsent. rewrite nth_error_map, Hn. cbn [option_map].
    now rewrite find_fill_absent.
  - intros n k Hn. rewrite nth_error_map.
    apply nth_error_None in Hn. now rewrite Hn.
Qed.

Lemma Parse_reads_sections_up_to_blank_witness :
  exists new,
    ConfigParser.Parse []
      (sections_stream
         [[("processor", "0"); ("flags", "fpu"); ("flags", "sse")];
          [("processor", "1")]]%string
         ++ None :: [Some ("processor", "2")]%string)
    = (true, (new, [Some ("processor", "2")]%string))
    /\ ProcCpuInfo.GetSectionStringValue new 0 "flags" = Some "sse"%string.
Proof.
  destruct (Parse_reads_sections_up_to_blank []
              [[("processor", "0"); ("flags", "fpu"); ("flags", "sse")];
               [("processor", "1")]]%string
              [Some ("processor", "2")]%string)
    as (new & P & _ & _ & L & _).
  - repeat constructor; discriminate.
  - exists new. split; [exact P|].
    apply (L 0%nat [("processor", "0"); ("flags", "fpu")]%string
             "flags"%string "sse"%string []); [reflexivity|].
    intros v' [].
Defined.

(** ** Loading twice *)

Lemma Parse_appends : forall n instream_, (length instream_ <= n)%nat ->
  forall key_val_pairs,
    ConfigParser.Parse key_val_pairs instream_
    = (negb (ConfigParser.empty
               (key_val_pairs ++ fst (snd (ConfigParser.Parse [] instream_)))),
       (key_val_pairs ++ fst (snd (ConfigParser.Parse [] instream_)),
        snd (snd (ConfigParser.Parse [] instream_)))).
Proof.
  assert (Hshrink : forall stream m,
            (length (snd (ConfigParser.ParseSection m stream))
             <= length stream)%nat
            /\ (fst (fst (ConfigParser.ParseSection m stream)) = true ->
                m = [] ->
                (length (snd (ConfigParser.ParseSection m stream))
                 < length stream)%nat)).
  { induction stream as [|[[k v]|] stream IH]; intros m; cbn.
    - split; [lia|]. intros H ->. discriminate H.
    - destruct (IH (ConfigParser.assign m k v)) as [IH1 _]. split; lia.
    - split; [lia|]. intros H ->. discriminate H. }
  induction n as [|n IH]; intros stream Hn kv.
  - destruct stream; [|cbn in Hn; lia].
    rewrite !Parse_loop. cbn. now rewrite app_nil_r.
  - rewrite (Parse_loop kv), (Parse_loop []).
    destruct (Hshrink stream []) as [_ Hlt].
    destruct (ConfigParser.ParseSection [] stream) as [[[|] section] rest].
    + cbn [fst snd] in Hlt. specialize (Hlt eq_refl eq_refl).
      rewrite (IH rest ltac:(lia) (kv ++ [section])).
      rewrite (IH rest ltac:(lia) ([] ++ [section])).
      cbn [fst snd app]. now rewrite <- app_assoc.
    + cbn [fst snd]. now rewrite app_nil_r.
Qed.

Lemma static_cast_int_small (n : Z) :
  - ProcCpuInfo.INT_MAX - 1 <= n <= ProcCpuInfo.INT_MAX ->
  ProcCpuInfo.static_cast_int n = n.
Proof.
  unfold ProcCpuInfo.INT_MAX, ProcCpuInfo.static_cast_int. intros H.
  rewrite Z.mod_small; lia.
Qed.

(** [LoadFromSystem] adds what it parses to the sections already
    loaded: it does not replace them.  It fails when the file cannot be
    opened, and otherwise reports success as soon as there is any
    section, old or new.  Loading the same file twice therefore doubles
    the number of CPUs that [GetNumCpus] reports (outside ARM builds,
    and as long as the doubled number fits an [int]). *)
Theorem LoadFromSystem_appends
  (FromString : string -> option Z)
  (sections_ : ConfigParser.MapVector) (file : option ConfigParser.Stream) :
  (file = None ->
   ProcCpuInfo.LoadFromSystem sections_ file = (false, sections_))
  /\ (file <> None ->
      snd (ProcCpuInfo.LoadFromSystem sections_ file)
      = sections_ ++ snd (ProcCpuInfo.LoadFromSystem [] file)
      /\ fst (ProcCpuInfo.LoadFromSystem sections_ file)
         = negb (ConfigParser.empty sections_)
           || fst (ProcCpuInfo.LoadFromSystem [] file))
  /\ (2 * Z.of_nat (length (snd (ProcCpuInfo.LoadFromSystem [] file)))
      <= ProcCpuInfo.INT_MAX ->
      ProcCpuInfo.GetNumCpus FromString false
        (snd (ProcCpuInfo.LoadFromSystem
                (snd (ProcCpuInfo.LoadFromSystem [] file)) file))
      = option_map (Z.mul 2)
          (ProcCpuInfo.GetNumCpus FromString false
             (snd (ProcCpuInfo.LoadFromSystem [] file)))).
Proof.
  destruct file as [procfs|].
  - unfold ProcCpuInfo.LoadFromSystem. cbn [fst snd].
    assert (Happ : forall kv,
              fst (snd (ConfigParser.Parse kv procfs))
              = kv ++ fst (snd (ConfigParser.Parse [] procfs))
              /\ fst (ConfigParser.Parse kv procfs)
                 = negb (ConfigParser.empty kv)
                   || fst (ConfigParser.Parse [] procfs)).
    { intros kv.
      pose proof (Parse_appends _ procfs (le_n _) []) as E0. cbn [app] in E0.
      assert (E : fst (ConfigParser.Parse [] procfs)
                  = negb (ConfigParser.empty
                            (fst (snd (ConfigParser.Parse [] procfs)))))
        by (rewrite E0 at 1; reflexivity).
      rewrite (Parse_appends _ procfs (le_n _) kv).
      cbn [fst snd]. split; [reflexivity|].
      rewrite empty_app, E.
      now destruct (ConfigParser.empty kv),
        (ConfigParser.empty (fst (snd (ConfigParser.Parse [] procfs)))). }
    refine (conj _ (conj _ _)).
    + discriminate.
    + intros _. apply Happ.
    + destruct (Happ (fst (snd (ConfigParser.Parse [] procfs)))) as [-> _].
      unfold ProcCpuInfo.GetNumCpus. rewrite empty_app, length_app.
      intros Hfits.
      destruct (fst (snd (ConfigParser.Parse [] procfs)));
        cbn [ConfigParser.empty andb option_map]; [reflexivity|].
      rewrite !static_cast_int_small
        by (unfold ProcCpuInfo.INT_MAX in *; lia).
      f_equal. lia.
  - refine (conj _ (conj _ _)); [reflexivity|congruence|reflexivity].
Qed.

(** ** Counting CPUs *)

Lemma processors_counted_bound (g : nat -> option Z) (indices : list nat) :
  forall start,
    start <= fold_left (fun total i => match g i with
                                       | Some _ => total + 1
                                       | None => total
                                       end)
                       indices start
    <= start + Z.of_nat (length indices).
Proof.
  induction indices as [|i indices IH]; intros start; cbn [fold_left length].
  - lia.
  - destruct (g i); [specialize (IH (start + 1))|specialize (IH start)]; lia.
Qed.

Lemma processors_counted (g : nat -> option Z) (indices : list nat) :
  forall start,
    fold_left (fun total i => match g i with
                              | Some _ => total + 1
                              | None => total
                              end)
              indices start
    = start
      + Z.of_nat (length (filter (fun i => match g i with
                                           | Some _ => true
                                           | None => false
                                           end) indices)).
Proof.
  induction indices as [|i indices IH]; intros start; cbn [fold_left filter].
  - cbn [length]. lia.
  - rewrite IH. destruct (g i); cbn [length]; lia.
Qed.

(** Counting over the indices of [sections_] is counting over its
    sections. *)
Lemma processors_by_section FromString (later : ConfigParser.MapVector) :
  forall earlier,
    length (filter
              (fun i =>
                 match ProcCpuInfo.GetSectionIntValue FromString
                         (earlier ++ later) i "processor" with
                 | Some _ => true
                 | None => false
                 end)
              (seq (length earlier) (length later)))
    = length (filter (names_a_processor FromString) later).
Proof.
  induction later as [|section later IH]; intros earlier; [reflexivity|].
  cbn [length seq filter].
  assert (Hhere : ProcCpuInfo.GetSectionIntValue FromString
                    (earlier ++ section :: later) (length earlier)
                    "processor"
                  = ProcCpuInfo.GetSectionIntValue FromString [section] 0
                      "processor").
  { unfold ProcCpuInfo.GetSectionIntValue,
      ProcCpuInfo.GetSectionStringValue.
    rewrite nth_error_app2 by apply le_n. now rewrite Nat.sub_diag. }
  specialize (IH (earlier ++ [section])).
  rewrite <- app_assoc, length_app, Nat.add_comm in IH.
  cbn [app length Nat.add] in IH.
  rewrite Hhere. unfold names_a_processor at 1.
  destruct (ProcCpuInfo.GetSectionIntValue FromString [section] 0
              "processor"); cbn [length]; now rewrite IH.
Qed.

(** [GetNumCpus] fails exactly when no section is loaded.  On ARM
    builds the number it gives is the number of sections that have a
    "processor" entry which reads as a number, and 1 when there is no
    such section.  Outside ARM builds it is the number of sections, the
    number [GetSectionCount] gives, as long as that fits an [int];
    beyond that the cast to [int] wraps it.  So, as long as the number
    of sections fits an [int], the number is at least one and at most
    the number of sections, on every build. *)
Theorem GetNumCpus_is_at_least_one
  (FromString : string -> option Z) (arm : bool)
  (sections_ : ConfigParser.MapVector) :
  (ProcCpuInfo.GetNumCpus FromString arm sections_ = None
   <-> sections_ = [])
  /\ (Z.of_nat (length sections_) <= ProcCpuInfo.INT_MAX ->
      (forall num,
         ProcCpuInfo.GetNumCpus FromString arm sections_ = Some num ->
         1 <= num <= Z.of_nat (length sections_))
      /\ (arm = false ->
          ProcCpuInfo.GetNumCpus FromString arm sections_
          = ProcCpuInfo.GetSectionCount sections_))
  /\ (arm = false ->
      ProcCpuInfo.GetNumCpus FromString arm sections_
      = option_map ProcCpuInfo.static_cast_int
          (ProcCpuInfo.GetSectionCount sections_))
  /\ (arm = true ->
      ProcCpuInfo.GetNumCpus FromString arm sections_
      = if ConfigParser.empty sections_ then None
        else Some (Z.max 1
                     (Z.of_nat
                        (length (filter (names_a_processor FromString)
                                   sections_))))).
Proof.
  unfold ProcCpuInfo.GetNumCpus, ProcCpuInfo.GetSectionCount.
  pose proof (processors_counted_bound
                (fun i => ProcCpuInfo.GetSectionIntValue FromString sections_
                            i "processor")
                (seq 0 (length sections_)) 0) as Hb.
  rewrite length_seq in Hb. cbv beta in Hb.
  pose proof (processors_counted
                (fun i => ProcCpuInfo.GetSectionIntValue FromString sections_
                            i "processor")
                (seq 0 (length sections_)) 0) as Hc.
  pose proof (processors_by_section FromString sections_ []) as Hs.
  cbn [app length] in Hs. cbv beta in Hc. rewrite Hs in Hc. clear Hs.
  set (total_cpus := fold_left _ _ 0) in *.
  destruct sections_ as [|section sections] eqn:Hsec;
    cbn [ConfigParser.empty].
  - repeat split; try reflexivity; intros; discriminate.
  - rewrite <- Hsec in *. assert (Hlen : 1 <= Z.of_nat (length sections_))
      by (rewrite Hsec; cbn [length]; lia).
    refine (conj _ (conj _ (conj _ _))).
    + split; [destruct arm; discriminate|]. intros H. rewrite H in Hsec.
      discriminate Hsec.
    + intros Hfits.
      rewrite static_cast_int_small
        by (unfold ProcCpuInfo.INT_MAX in *; lia).
      split.
      * intros num Hnum.
        assert (num = if arm then if total_cpus =? 0 then 1 else total_cpus
                      else Z.of_nat (length sections_))
          by (destruct arm; congruence).
        subst num. destruct arm; [|lia].
        destruct (total_cpus =? 0) eqn:E; [lia|]. apply Z.eqb_neq in E. lia.
      * intros ->. reflexivity.
    + intros ->. reflexivity.
    + intros ->. f_equal.
      destruct (total_cpus =? 0) eqn:E;
        [apply Z.eqb_eq in E|apply Z.eqb_neq in E]; lia.
Qed.

Lemma GetSectionIntValue_range FromString sections_ i key value :
  ProcCpuInfo.GetSectionIntValue FromString sections_ i key = Some value ->
  (i < length sections_)%nat.
Proof.
  unfold ProcCpuInfo.GetSectionIntValue, ProcCpuInfo.GetSectionStringValue.
  intros H. apply nth_error_Some. intros Hn. rewrite Hn in H. discriminate H.
Qed.

Lemma GetSectionIntValue_app_old FromString sections_ section i key :
  (i < length sections_)%nat ->
  ProcCpuInfo.GetSectionIntValue FromString (sections_ ++ [section]) i key
  = ProcCpuInfo.GetSectionIntValue FromString sections_ i key.
Proof.
  intros Hi.
  unfold ProcCpuInfo.GetSectionIntValue, ProcCpuInfo.GetSectionStringValue.
  now rewrite nth_error_app1.
Qed.

Lemma GetSectionIntValue_app_new FromString sections_ section key :
  ProcCpuInfo.GetSectionIntValue FromString (sections_ ++ [section])
    (length sections_) key
  = ProcCpuInfo.GetSectionIntValue FromString [section] 0 key.
Proof.
  unfold ProcCpuInfo.GetSectionIntValue, ProcCpuInfo.GetSectionStringValue.
  now rewrite nth_error_app2, Nat.sub_diag by apply le_n.
Qed.

(** One more turn of the loop of [GetNumPhysicalCpus]. *)
Lemma count_cores_snoc FromString sections_ indices i :
  ProcCpuInfo.count_cores FromString sections_ (indices ++ [i])
  = match
      ProcCpuInfo.GetSectionIntValue FromString sections_ i "physical id",
      ProcCpuInfo.GetSectionIntValue FromString sections_ i "cpu cores"
    with
    | Some physical_id, Some cores =>
        if existsb (Z.eqb physical_id)
             (fst (ProcCpuInfo.count_cores FromString sections_ indices))
        then ProcCpuInfo.count_cores FromString sections_ indices
        else (physical_id
                :: fst (ProcCpuInfo.count_cores FromString sections_ indices),
              snd (ProcCpuInfo.count_cores FromString sections_ indices)
                + cores)
    | _, _ => ProcCpuInfo.count_cores FromString sections_ indices
    end.
Proof.
  unfold ProcCpuInfo.count_cores. rewrite fold_left_app. cbn [fold_left].
  destruct (fold_left _ indices ([], 0)) as [ids total]. cbn [fst snd].
  destruct (ProcCpuInfo.GetSectionIntValue FromString sections_ i
              "physical id");
    destruct (ProcCpuInfo.GetSectionIntValue FromString sections_ i
                "cpu cores");
    reflexivity.
Qed.

Lemma count_cores_agree FromString A B : forall n,
  (forall i key, (i < n)%nat ->
     ProcCpuInfo.GetSectionIntValue FromString A i key
     = ProcCpuInfo.GetSectionIntValue FromString B i key) ->
  ProcCpuInfo.count_cores FromString A (seq 0 n)
  = ProcCpuInfo.count_cores FromString B (seq 0 n).
Proof.
  induction n as [|n IH]; intros Hsame; [reflexivity|].
  rewrite seq_S, !count_cores_snoc. cbn [Nat.add].
  rewrite IH by (intros i key Hi; apply Hsame; lia).
  now rewrite !Hsame by lia.
Qed.

(** The physical ids met so far are those of the sections that have
    both keys. *)
Lemma count_cores_seen FromString sections_ physical_id : forall n,
  In physical_id
     (fst (ProcCpuInfo.count_cores FromString sections_ (seq 0 n)))
  <-> exists i,
        (i < n)%nat
        /\ ProcCpuInfo.GetSectionIntValue FromString sections_ i "physical id"
           = Some physical_id
        /\ ProcCpuInfo.GetSectionIntValue FromString sections_ i "cpu cores"
           <> None.
Proof.
  induction n as [|n IH].
  - cbn. split; [contradiction|]. intros (i & Hi & _). lia.
  - rewrite seq_S, count_cores_snoc. cbn [Nat.add].
    set (seen := fst (ProcCpuInfo.count_cores FromString sections_ (seq 0 n)))
      in *.
    assert (Hold : (exists i, (i < n)%nat
                     /\ ProcCpuInfo.GetSectionIntValue FromString sections_
                          i "physical id" = Some physical_id
                     /\ ProcCpuInfo.GetSectionIntValue FromString sections_
                          i "cpu cores" <> None)
                   -> exists i, (i < S n)%nat
                     /\ ProcCpuInfo.GetSectionIntValue FromString sections_
                          i "physical id" = Some physical_id
                     /\ ProcCpuInfo.GetSectionIntValue FromString sections_
                          i "cpu cores" <> None)
      by (intros (i & Hi & H); exists i; split; [lia|exact H]).
    destruct (ProcCpuInfo.GetSectionIntValue FromString sections_ n
                "physical id") as [pid|] eqn:Ep;
      [destruct (ProcCpuInfo.GetSectionIntValue FromString sections_ n
                   "cpu cores") as [cores|] eqn:Ec|].
    + destruct (existsb (Z.eqb pid) seen) eqn:Es.
      * fold seen. split.
        -- intros H. apply Hold, IH, H.
        -- intros (i & Hi & Hp & Hc).
           destruct (Nat.eq_dec i n) as [->|Hne].
           ++ rewrite Ep in Hp. injection Hp as <-.
              apply existsb_exists in Es as (x & Hx & Hxe).
              apply Z.eqb_eq in Hxe. now subst x.
           ++ apply IH. exists i. split; [lia|]. split; assumption.
      * cbn [fst]. split.
        -- intros [<-|H].
           ++ exists n. split; [lia|]. split; [exact Ep|].
              rewrite Ec. discriminate.
           ++ apply Hold, IH, H.
        -- intros (i & Hi & Hp & Hc).
           destruct (Nat.eq_dec i n) as [->|Hne].
           ++ rewrite Ep in Hp. injection Hp as <-. now left.
           ++ right. apply IH. exists i. split; [lia|]. split; assumption.
    + fold seen. split.
      * intros H. apply Hold, IH, H.
      * intros (i & Hi & Hp & Hc).
        destruct (Nat.eq_dec i n) as [->|Hne]; [contradiction|].
        apply IH. exists i. split; [lia|]. split; assumption.
    + fold seen. split.
      * intros H. apply Hold, IH, H.
      * intros (i & Hi & Hp & Hc).
        destruct (Nat.eq_dec i n) as [->|Hne];
          [rewrite Ep in Hp; discriminate|].
        apply IH. exists i. split; [lia|]. split; assumption.
Qed.

(** Outside ARM builds [GetNumPhysicalCpus] counts the cores of a
    package once, however many sections belong to it.  One more section
    leaves the number as it is when it lacks a readable "physical id" or
    "cpu cores", or when an earlier section with both has the same
    physical id; it adds its "cpu cores" when no earlier section with
    both has its physical id. *)
Theorem GetNumPhysicalCpus_counts_a_package_once
  (FromString : string -> option Z)
  (sections_ : ConfigParser.MapVector) (section : ConfigParser.SimpleMap) :
  sections_ <> [] ->
  exists total,
    ProcCpuInfo.GetNumPhysicalCpus FromString false sections_ = Some total
    /\ (ProcCpuInfo.GetSectionIntValue FromString [section] 0 "physical id"
        = None
        \/ ProcCpuInfo.GetSectionIntValue FromString [section] 0 "cpu cores"
           = None ->
        ProcCpuInfo.GetNumPhysicalCpus FromString false
          (sections_ ++ [section]) = Some total)
    /\ (forall physical_id cores,
          ProcCpuInfo.GetSectionIntValue FromString [section] 0 "physical id"
          = Some physical_id ->
          ProcCpuInfo.GetSectionIntValue FromString [section] 0 "cpu cores"
          = Some cores ->
          ((exists i,
              ProcCpuInfo.GetSectionIntValue FromString sections_ i
                "physical id" = Some physical_id
              /\ ProcCpuInfo.GetSectionIntValue FromString sections_ i
                   "cpu cores" <> None) ->
           ProcCpuInfo.GetNumPhysicalCpus FromString false
             (sections_ ++ [section]) = Some total)
          /\ ((forall i,
                 ProcCpuInfo.GetSectionIntValue FromString sections_ i
                   "physical id" = Some physical_id ->
                 ProcCpuInfo.GetSectionIntValue FromString sections_ i
                   "cpu cores" = None) ->
              ProcCpuInfo.GetNumPhysicalCpus FromString false
                (sections_ ++ [section]) = Some (total + cores))).
Proof.
  intros Hne.
  exists (snd (ProcCpuInfo.count_cores FromString sections_
                 (seq 0 (length sections_)))).
  assert (Hafter : ProcCpuInfo.GetNumPhysicalCpus FromString false
                     (sections_ ++ [section])
                   = Some (snd (ProcCpuInfo.count_cores FromString
                                  (sections_ ++ [section])
                                  (seq 0 (length sections_) ++
                                   [length sections_])))).
  { unfold ProcCpuInfo.GetNumPhysicalCpus.
    rewrite length_app, Nat.add_comm. cbn [length Nat.add].
    rewrite seq_S. cbn [Nat.add].
    destruct (sections_ ++ [section]) eqn:E; [|reflexivity].
    apply app_eq_nil in E as [_ E]. discriminate E. }
  rewrite Hafter, count_cores_snoc, !GetSectionIntValue_app_new.
  rewrite (count_cores_agree FromString (sections_ ++ [section]) sections_)
    by (intros i key Hi; now apply GetSectionIntValue_app_old).
  split; [|split].
  - unfold ProcCpuInfo.GetNumPhysicalCpus.
    destruct sections_; [contradiction|reflexivity].
  - intros [H|H]; rewrite H; [reflexivity|].
    now destruct (ProcCpuInfo.GetSectionIntValue _ [section] 0 "physical id").
  - intros physical_id cores Hp Hc. rewrite Hp, Hc.
    pose proof (count_cores_seen FromString sections_ physical_id
                  (length sections_)) as Hseen.
    destruct (existsb (Z.eqb physical_id) _) eqn:Es.
    + split; [reflexivity|]. intros Hnone. exfalso.
      apply existsb_exists in Es as (x & Hx & Hxe).
      apply Z.eqb_eq in Hxe. subst x.
      apply Hseen in Hx as (i & _ & Hip & Hic). now apply Hic, Hnone.
    + split; [|reflexivity]. intros (i & Hip & Hic). exfalso.
      assert (Hin : In physical_id
                       (fst (ProcCpuInfo.count_cores FromString sections_
                               (seq 0 (length sections_))))).
      { apply Hseen. exists i. split; [|split; assumption].
        eapply GetSectionIntValue_range, Hip. }
      assert (Htrue : existsb (Z.eqb physical_id)
                        (fst (ProcCpuInfo.count_cores FromString sections_
                                (seq 0 (length sections_)))) = true)
        by (apply existsb_exists; exists physical_id;
            split; [exact Hin|apply Z.eqb_refl]).
      rewrite Htrue in Es. discriminate Es.
Qed.

Lemma GetNumPhysicalCpus_counts_a_package_once_witness :
  ProcCpuInfo.GetNumPhysicalCpus one_digit false (map (fill []) a_cpuinfo)
  = Some 3
  /\ ProcCpuInfo.GetNumCpus one_digit false (map (fill []) a_cpuinfo)
     = Some 4.
Proof.
  split; [|reflexivity].
  destruct (GetNumPhysicalCpus_counts_a_package_once one_digit
              (map (fill []) (firstn 3 a_cpuinfo))
              (fill [] [("processor", "3"); ("physical id", "0");
                        ("cpu cores", "2")]%string))
    as (total & Hb & _ & H).
  - discriminate.
  - vm_compute in Hb. injection Hb as <-.
    destruct (H 0 2 eq_refl eq_refl) as [Hsame _].
    apply Hsame. exists 0%nat. split; [reflexivity|discriminate].
Defined.

(** * The cached release string *)

(** Without a cached string, the call caches one exactly when the
    command starts and gives four lines. *)
Lemma ReadLinuxLsbRelease_fresh (run : linux.POpenStream) :
  linux.is_empty (linux.cached (linux.ReadLinuxLsbRelease EmptyString run))
  = false
  <-> linux.opens run = true
      /\ exists id description release codename more,
           linux.output run
           = (linux.SR_SUCCESS, id) :: (linux.SR_SUCCESS, description)
               :: (linux.SR_SUCCESS, release)
               :: (linux.SR_SUCCESS, codename) :: more.
Proof.
  unfold linux.ReadLinuxLsbRelease. cbn [linux.is_empty negb].
  destruct (linux.opens run); cbn [negb].
  2: { cbn. split; [discriminate|]. intros [H _]. discriminate H. }
  destruct (linux.output run)
    as [|[r1 l1] [|[r2 l2] [|[r3 l3] [|[r4 l4] more]]]];
    try destruct r1; try destruct r2; try destruct r3; try destruct r4;
    cbn; (split; [intros H|intros [_ (a & b & c & d & m & H)]]);
    try discriminate; try reflexivity.
  split; [reflexivity|]. now exists l1, l2, l3, l4, more.
Qed.

(** With four lines from a command that started, the string is
    built from them, whatever follows and however the command exits. *)
Lemma ReadLinuxLsbRelease_four_lines (run : linux.POpenStream)
  id description release codename more :
  linux.opens run = true ->
  linux.output run
  = (linux.SR_SUCCESS, id) :: (linux.SR_SUCCESS, description)
      :: (linux.SR_SUCCESS, release) :: (linux.SR_SUCCESS, codename) :: more ->
  linux.ReadLinuxLsbRelease EmptyString run
  = let sstr :=
      ("DISTRIB_ID=" ++ id
       ++ " DISTRIB_DESCRIPTION=" ++ linux.double_quote ++ description
       ++ linux.double_quote
       ++ " DISTRIB_RELEASE=" ++ release
       ++ " DISTRIB_CODENAME=" ++ codename)%string in
    {| linux.returned_string := sstr; linux.cached := sstr;
       linux.logged :=
         linux.ExpectEofFromStream more
           ++ (if linux.exited_cleanly run then []
               else [linux.LS_WARNING
                       "Unexpected exit status from lsb_release"]);
       linux.started := true |}.
Proof.
  intros Ho Hl. unfold linux.ReadLinuxLsbRelease. rewrite Ho, Hl.
  reflexivity.
Qed.

(** A call that finds no cached string and caches none logs one
    error, and nothing else. *)
Lemma ReadLinuxLsbRelease_failure (run : linux.POpenStream) :
  linux.is_empty (linux.cached (linux.ReadLinuxLsbRelease EmptyString run))
  = true ->
  exists msg,
    linux.logged (linux.ReadLinuxLsbRelease EmptyString run)
    = [linux.LS_ERROR msg].
Proof.
  unfold linux.ReadLinuxLsbRelease. cbn [linux.is_empty negb].
  destruct (linux.opens run); cbn [negb]; [|intros _; eexists; reflexivity].
  destruct (linux.output run)
    as [|[r1 l1] [|[r2 l2] [|[r3 l3] [|[r4 l4] more]]]];
    try destruct r1; try destruct r2; try destruct r3; try destruct r4;
    cbn; intros H; try discriminate H; eexists; reflexivity.
Qed.

Lemma ExpectEofFromStream_warns stream :
  Forall (fun entry => exists msg, entry = linux.LS_WARNING msg)
    (linux.ExpectEofFromStream stream).
Proof.
  unfold linux.ExpectEofFromStream.
  destruct stream as [|[[| |] line] stream]; cbn;
    repeat constructor; eexists; reflexivity.
Qed.

(** [ReadLinuxLsbRelease] returns what it leaves in the cache.  A
    string once cached is returned by every later call, which neither
    starts the command nor logs anything.  A call that caches nothing
    leaves the next call to try the command again: it starts it if
    [Open] succeeds.  Without a cached string, one is cached exactly
    when the command starts and gives four lines; it is then built from
    these lines, and extra lines or a bad exit status of the command
    do not keep it from being cached: all they add to the log are
    warnings, and a clean exit with nothing after the four lines logs
    nothing.  A call that finds no cached string and caches none logs
    exactly one error. *)
Theorem ReadLinuxLsbRelease_caches_success
  (lsb_release_string : string) (run again : linux.POpenStream) :
  linux.returned_string (linux.ReadLinuxLsbRelease lsb_release_string run)
  = linux.cached (linux.ReadLinuxLsbRelease lsb_release_string run)
  /\ (linux.is_empty
        (linux.cached (linux.ReadLinuxLsbRelease lsb_release_string run))
      = false ->
      linux.ReadLinuxLsbRelease
        (linux.cached (linux.ReadLinuxLsbRelease lsb_release_string run))
        again
      = {| linux.returned_string :=
             linux.returned_string
               (linux.ReadLinuxLsbRelease lsb_release_string run);
           linux.cached :=
             linux.cached (linux.ReadLinuxLsbRelease lsb_release_string run);
           linux.logged := []; linux.started := false |})
  /\ (linux.is_empty
        (linux.cached (linux.ReadLinuxLsbRelease lsb_release_string run))
      = true ->
      linux.started
        (linux.ReadLinuxLsbRelease
           (linux.cached (linux.ReadLinuxLsbRelease lsb_release_string run))
           again)
      = linux.opens again)
  /\ (linux.is_empty lsb_release_string = true ->
      (linux.is_empty
         (linux.cached (linux.ReadLinuxLsbRelease lsb_release_string run))
       = false
       <-> linux.opens run = true
           /\ exists id description release codename more,
                linux.output run
                = (linux.SR_SUCCESS, id) :: (linux.SR_SUCCESS, description)
                    :: (linux.SR_SUCCESS, release)
                    :: (linux.SR_SUCCESS, codename) :: more)
      /\ (linux.is_empty
            (linux.cached (linux.ReadLinuxLsbRelease lsb_release_string run))
          = true ->
          exists msg,
            linux.logged (linux.ReadLinuxLsbRelease lsb_release_string run)
            = [linux.LS_ERROR msg])
      /\ (forall id description release codename more,
            linux.opens run = true ->
            linux.output run
            = (linux.SR_SUCCESS, id) :: (linux.SR_SUCCESS, description)
                :: (linux.SR_SUCCESS, release)
                :: (linux.SR_SUCCESS, codename) :: more ->
            linux.cached (linux.ReadLinuxLsbRelease lsb_release_string run)
            = ("DISTRIB_ID=" ++ id
               ++ " DISTRIB_DESCRIPTION=" ++ linux.double_quote
               ++ description ++ linux.double_quote
               ++ " DISTRIB_RELEASE=" ++ release
               ++ " DISTRIB_CODENAME=" ++ codename)%string
            /\ linux.started
                 (linux.ReadLinuxLsbRelease lsb_release_string run) = true
            /\ Forall (fun entry => exists msg, entry = linux.LS_WARNING msg)
                 (linux.logged
                    (linux.ReadLinuxLsbRelease lsb_release_string run))
            /\ (more = [] -> linux.exited_cleanly run = true ->
                linux.logged
                  (linux.ReadLinuxLsbRelease lsb_release_string run) = []))).
Proof.
  assert (Hret : forall c r,
            linux.returned_string (linux.ReadLinuxLsbRelease c r)
            = linux.cached (linux.ReadLinuxLsbRelease c r)).
  { intros c r. unfold linux.ReadLinuxLsbRelease.
    destruct (negb (linux.is_empty c)); [reflexivity|].
    destruct (negb (linux.opens r)); [reflexivity|].
    repeat match goal with
           | |- context [linux.ExpectLineFromStream ?x] =>
               destruct (linux.ExpectLineFromStream x) as [[[?|] ?] ?]
           end; reflexivity. }
  assert (Hhit : forall c r,
            linux.is_empty c = false ->
            linux.ReadLinuxLsbRelease c r
            = {| linux.returned_string := c; linux.cached := c;
                 linux.logged := []; linux.started := false |})
    by (intros c r H; unfold linux.ReadLinuxLsbRelease; now rewrite H).
  assert (Hmiss : forall c r,
            linux.is_empty c = true ->
            linux.started (linux.ReadLinuxLsbRelease c r) = linux.opens r).
  { intros c r H. unfold linux.ReadLinuxLsbRelease. rewrite H. cbn [negb].
    destruct (linux.opens r); cbn [negb]; [|reflexivity].
    repeat match goal with
           | |- context [linux.ExpectLineFromStream ?x] =>
               destruct (linux.ExpectLineFromStream x) as [[[?|] ?] ?]
           end; reflexivity. }
  refine (conj (Hret _ _) (conj _ (conj (Hmiss _ _) _))).
  - intros H. rewrite (Hhit _ again H), Hret. reflexivity.
  - intros H. destruct lsb_release_string; [|discriminate H].
    refine (conj (ReadLinuxLsbRelease_fresh run)
              (conj (ReadLinuxLsbRelease_failure run) _)).
    intros id description release codename more Ho Hl.
    rewrite (ReadLinuxLsbRelease_four_lines run id description release
               codename more Ho Hl).
    cbn [linux.cached linux.started linux.logged].
    refine (conj eq_refl (conj eq_refl (conj _ _))).
    + apply Forall_app. split; [apply ExpectEofFromStream_warns|].
      destruct (linux.exited_cleanly run); repeat constructor.
      eexists; reflexivity.
    + intros -> ->. reflexivity.
Qed.
